(** * Asset rebalancer: a shallow embedding of [main.ts]

    [main.ts] holds three successive scripts (lines 1-142, 144-322 and
    324-481).  They share [kahanSum]; [calculateAllocation] and [rebalance]
    are those of the first and of the third script, where [rebalance] checks
    the lengths of its arguments.  The scripts differ in
    [rebalanceWithoutNegativeRebalancing]:
      - lines 202-259: the iterative variant, which spreads the negative
        rebalancings evenly over a shrinking set of indexes ([Iterative]);
      - lines 390-417: the two-pass variant, which clamps the differences
        and redistributes the sum proportionally ([TwoPass]);
      - lines 67-79: the first script's variant, the two-pass one for a
        deposit only ([FirstScript]).
    [truncate], [displayResults] and [main] are those of the third script;
    what they write on the console is kept as a list of [output]s.

    Numbers.  A JavaScript number is modelled by [number]: an exact rational
    (rounding of binary64 is not modelled), or one of the three non-finite
    values that the code can produce by dividing by zero.  Zero has no sign
    in the model: it stands for JavaScript's [+0]. *)

From Stdlib Require Import String.
From Stdlib Require Import List Bool Arith ZArith QArith Qcanon Lia Lqa.
Import ListNotations.

(** ** Numbers *)

Inductive number : Type :=
| Fin (q : Qc)
| PInf
| NInf
| NaN.

Declare Scope js_scope.
Delimit Scope js_scope with js.
Bind Scope js_scope with number.

Module Num.

Local Open Scope Qc_scope.

Definition Qcltb (a b : Qc) : bool :=
  match a ?= b with Lt => true | _ => false end.

Definition Qcleb (a b : Qc) : bool :=
  match a ?= b with Gt => false | _ => true end.

Definition Qceqb (a b : Qc) : bool :=
  match a ?= b with Eq => true | _ => false end.

Definition of_nat (n : nat) : number := Fin (Q2Qc (inject_Z (Z.of_nat n))).

Definition zero : number := Fin 0.

Definition neg (a : number) : number :=
  match a with
  | Fin x => Fin (- x)
  | PInf => NInf
  | NInf => PInf
  | NaN => NaN
  end.

Definition add (a b : number) : number :=
  match a, b with
  | NaN, _ | _, NaN => NaN
  | Fin x, Fin y => Fin (x + y)
  | PInf, NInf | NInf, PInf => NaN
  | PInf, _ | _, PInf => PInf
  | NInf, _ | _, NInf => NInf
  end.

Definition sub (a b : number) : number := add a (neg b).

(** An infinity of sign [pos] scaled by the finite factor [y]. *)
Definition scale_inf (pos : bool) (y : Qc) : number :=
  match y ?= 0 with
  | Eq => NaN
  | Gt => if pos then PInf else NInf
  | Lt => if pos then NInf else PInf
  end.

Definition mul (a b : number) : number :=
  match a, b with
  | NaN, _ | _, NaN => NaN
  | Fin x, Fin y => Fin (x * y)
  | PInf, Fin y | Fin y, PInf => scale_inf true y
  | NInf, Fin y | Fin y, NInf => scale_inf false y
  | PInf, PInf | NInf, NInf => PInf
  | PInf, NInf | NInf, PInf => NInf
  end.

Definition div (a b : number) : number :=
  match a, b with
  | NaN, _ | _, NaN => NaN
  | Fin x, Fin y =>
      if Qceqb y 0 then
        match x ?= 0 with Eq => NaN | Gt => PInf | Lt => NInf end
      else Fin (x / y)
  | Fin _, (PInf | NInf) => Fin 0
  | PInf, Fin y => if Qcltb y 0 then NInf else PInf
  | NInf, Fin y => if Qcltb y 0 then PInf else NInf
  | (PInf | NInf), (PInf | NInf) => NaN
  end.

(** Comparisons: every comparison with [NaN] is false. *)
Definition ltb (a b : number) : bool :=
  match a, b with
  | NaN, _ | _, NaN => false
  | Fin x, Fin y => Qcltb x y
  | NInf, (Fin _ | PInf) => true
  | Fin _, PInf => true
  | _, _ => false
  end.

Definition leb (a b : number) : bool :=
  match a, b with
  | NaN, _ | _, NaN => false
  | Fin x, Fin y => Qcleb x y
  | NInf, _ => true
  | _, PInf => true
  | _, _ => false
  end.

Definition gtb (a b : number) : bool := ltb b a.
Definition geb (a b : number) : bool := leb b a.

(** [a === b] *)
Definition strict_eqb (a b : number) : bool :=
  match a, b with
  | Fin x, Fin y => Qceqb x y
  | PInf, PInf | NInf, NInf => true
  | _, _ => false
  end.

Definition is_finite (a : number) : bool :=
  match a with Fin _ => true | _ => false end.

End Num.

Notation "0" := Num.zero : js_scope.
Infix "+" := Num.add : js_scope.
Infix "-" := Num.sub : js_scope.
Infix "*" := Num.mul : js_scope.
Infix "/" := Num.div : js_scope.
Infix "<?" := Num.ltb : js_scope.
Infix "<=?" := Num.leb : js_scope.
Infix ">?" := Num.gtb : js_scope.
Infix ">=?" := Num.geb : js_scope.
Infix "===" := Num.strict_eqb (at level 70, no associativity) : js_scope.

(** ** Arrays *)

(** [arr.map((value, index) => f index value)], with the index of the first
    element given by [k]. *)
Fixpoint mapi_from {A B : Type} (k : nat) (f : nat -> A -> B) (l : list A) : list B :=
  match l with
  | [] => []
  | x :: l' => f k x :: mapi_from (S k) f l'
  end.

Definition mapi {A B : Type} (f : nat -> A -> B) (l : list A) : list B :=
  mapi_from 0 f l.

(** [arr[i]] read inside an arithmetic expression: past the end the read
    gives [undefined], which every arithmetic operator turns into [NaN]. *)
Definition get (arr : list number) (i : nat) : number := nth i arr NaN.

(** [arr[i] = x] for an index inside the array. *)
Fixpoint set_at (arr : list number) (i : nat) (x : number) : list number :=
  match arr, i with
  | [], _ => []
  | _ :: arr', O => x :: arr'
  | y :: arr', S i' => y :: set_at arr' i' x
  end.

(** ** Results of calls guarded by [assert] *)

Inductive result (A : Type) : Type :=
| Ok (value : A)
| AssertionError (message : string).

Arguments Ok {A} value.
Arguments AssertionError {A} message.

Definition same_length_message : string :=
  "Arguments must be arrays with same length"%string.

(** ** Shared functions (lines 9-23, 35-38 and 48-58) *)

Section Shared.

Local Open Scope js_scope.

(** The body of [for (const v of arr.slice(1))] in [kahanSum]. *)
Fixpoint kahanLoop (s r : number) (rest : list number) : number :=
  match rest with
  | [] => s
  | v :: rest' =>
      let t1 := v - r in
      let t2 := s + t1 in
      kahanLoop t2 ((t2 - s) - t1) rest'
  end.

Definition kahanSum (arr : list number) : number :=
  match arr with
  | [] => 0
  | a0 :: rest => kahanLoop a0 0 rest
  end.

Definition calculateAllocation (arr : list number) : number * list number :=
  let sum := kahanSum arr in
  (sum, map (fun v => v / sum) arr).

Definition rebalance (sumInitial : number) (allocInitial allocTargets : list number)
    (sumToAdd : number) : result (list number) :=
  if Nat.eqb (length allocInitial) (length allocTargets) then
    Ok (mapi (fun index value =>
                (value - get allocInitial index) * sumInitial + value * sumToAdd)
             allocTargets)
  else AssertionError same_length_message.

End Shared.

(** ** The two-pass variant (lines 390-417) *)

Module TwoPass.

Local Open Scope js_scope.

(** The differences of line 408, before they are clamped: how much each
    asset must receive for the final sum to follow the target allocation. *)
Definition diffInitial (sumsInitial allocTargets : list number) (sumToAdd : number)
    : list number :=
  let '(sumInitial, allocInitial) := calculateAllocation sumsInitial in
  let sumFinal := sumInitial + sumToAdd in
  let sumFinalDivided := map (fun a => a * sumFinal) allocTargets in
  mapi (fun i s => s - get allocInitial i * sumInitial) sumFinalDivided.

(** The function chosen at line 410. *)
Definition clamp (sumToAdd : number) : number -> number :=
  if sumToAdd >? 0 then (fun s => if s <? 0 then 0 else s)
  else (fun s => if s >? 0 then 0 else s).

Definition sumFinalDividedDiffInitial (sumsInitial allocTargets : list number)
    (sumToAdd : number) : list number :=
  map (clamp sumToAdd) (diffInitial sumsInitial allocTargets sumToAdd).

Definition rebalanceWithoutNegativeRebalancing (sumsInitial allocTargets : list number)
    (sumToAdd : number) : result (list number) :=
  if Nat.eqb (length sumsInitial) (length allocTargets) then
    if sumToAdd === 0 then Ok (repeat 0 (length sumsInitial))
    else
      let '(_, diffAllocation) :=
        calculateAllocation (sumFinalDividedDiffInitial sumsInitial allocTargets sumToAdd) in
      Ok (map (fun d => d * sumToAdd) diffAllocation)
  else AssertionError same_length_message.

End TwoPass.

(** ** The iterative variant (lines 202-259) *)

Module Iterative.

Local Open Scope js_scope.

(** [indexesRedistribution] is a [Set<number>]: it is iterated in insertion
    order, so it is kept as the list of its elements in that order. *)
Definition set_add (i : nat) (s : list nat) : list nat :=
  if existsb (Nat.eqb i) s then s else s ++ [i].

Definition set_delete (i : nat) (s : list nat) : list nat :=
  filter (fun j => negb (Nat.eqb j i)) s.

(** The variables that the function updates. *)
Record state : Type := mkState {
  sumDivided : list number;
  indexesRedistribution : list nat;
  (** [sumNegativeRebalacings] in the [forEach], [reimainingToDistribute]
      in the [while] loop, which starts from it. *)
  reimainingToDistribute : number
}.

(** The callback of [allocTargets.forEach] (lines 208-222). *)
Definition subdivide (sumInitial : number) (allocInitial : list number)
    (sumToAdd : number) (index : nat) (value : number) (st : state) : state :=
  let sumToAddSuddivision :=
    ((value - get allocInitial index) * sumInitial) + (value * sumToAdd) in
  if sumToAddSuddivision <=? 0 then
    mkState (set_at (sumDivided st) index 0)
            (indexesRedistribution st)
            (reimainingToDistribute st + sumToAddSuddivision)
  else
    mkState (set_at (sumDivided st) index sumToAddSuddivision)
            (set_add index (indexesRedistribution st))
            (reimainingToDistribute st).

Fixpoint forEach_from (k : nat) (f : nat -> number -> state -> state)
    (arr : list number) (st : state) : state :=
  match arr with
  | [] => st
  | value :: arr' => forEach_from (S k) f arr' (f k value st)
  end.

(** Lines 205-222. *)
Definition subdivision (sumInitial : number) (allocInitial allocTargets : list number)
    (sumToAdd : number) : state :=
  forEach_from 0 (subdivide sumInitial allocInitial sumToAdd) allocTargets
    (mkState (repeat NaN (length allocTargets)) [] 0).

(** One turn of the [for] loop, up to the test of [break] (lines 234-250). *)
Definition redistribute (remainingSingleRedistributedRebalancing : number)
    (indexToRedistribute : nat) (st : state) : state :=
  let distributeEffect :=
    get (sumDivided st) indexToRedistribute + remainingSingleRedistributedRebalancing in
  let st1 :=
    if distributeEffect >=? 0 then
      mkState (set_at (sumDivided st) indexToRedistribute distributeEffect)
              (indexesRedistribution st)
              (reimainingToDistribute st - remainingSingleRedistributedRebalancing)
    else
      mkState (set_at (sumDivided st) indexToRedistribute 0)
              (indexesRedistribution st)
              (reimainingToDistribute st
               - (remainingSingleRedistributedRebalancing - distributeEffect)) in
  if get (sumDivided st1) indexToRedistribute <=? 0 then
    mkState (sumDivided st1)
            (set_delete indexToRedistribute (indexesRedistribution st1))
            (reimainingToDistribute st1)
  else st1.

(** The [for] loop over the set (lines 233-254).  The only element that a
    turn deletes is the one it visits, so the turns visit the elements that
    the set had when the loop started: [todo] is what is left of them. *)
Fixpoint forLoop (single : number) (todo : list nat) (st : state) : state :=
  match todo with
  | [] => st
  | indexToRedistribute :: todo' =>
      let st' := redistribute single indexToRedistribute st in
      if reimainingToDistribute st' >=? 0 then st'
      else forLoop single todo' st'
  end.

(** The test of the [while] loop (line 229). *)
Definition continues (st : state) : bool :=
  (reimainingToDistribute st <? 0)
  && Nat.ltb 0 (length (indexesRedistribution st)).

(** One pass of the [while] loop (lines 230-254). *)
Definition pass (st : state) : state :=
  let remainingSingleRedistributedRebalancing :=
    reimainingToDistribute st / Num.of_nat (length (indexesRedistribution st)) in
  forLoop remainingSingleRedistributedRebalancing (indexesRedistribution st) st.

(** The [while] loop; [None] when [fuel] passes were not enough. *)
Fixpoint whileLoop (fuel : nat) (st : state) : option state :=
  if continues st then
    match fuel with
    | O => None
    | S fuel' => whileLoop fuel' (pass st)
    end
  else Some st.

Definition rebalanceWithoutNegativeRebalancing (fuel : nat) (sumInitial : number)
    (allocInitial allocTargets : list number) (sumToAdd : number)
    : option (list number) :=
  let st := subdivision sumInitial allocInitial allocTargets sumToAdd in
  if reimainingToDistribute st <? 0 then
    option_map sumDivided (whileLoop fuel st)
  else Some (sumDivided st).

End Iterative.

(** ** Exact sums and rational mirrors of the computations *)

Definition finite (l : list Qc) : list number := map Fin l.

Fixpoint sumQc (l : list Qc) : Qc :=
  match l with
  | [] => 0%Qc
  | x :: l' => (x + sumQc l')%Qc
  end.

Fixpoint zipWith {A B C : Type} (f : A -> B -> C) (l : list A) (l' : list B) : list C :=
  match l, l' with
  | x :: t, y :: t' => f x y :: zipWith f t t'
  | _, _ => []
  end.

(** The rational [n / d], for a positive [d]. *)
Definition q (n d : Z) : Qc := Q2Qc (Qmake n (Z.to_pos d)).

(** [clampQ] is [TwoPass.clamp] on rationals. *)
Definition clampQ (sumToAdd s : Qc) : Qc :=
  if Num.Qcltb 0 sumToAdd then (if Num.Qcltb s 0 then 0%Qc else s)
  else (if Num.Qcltb 0 s then 0%Qc else s).

(** [diffQ], [clampedQ] and [sharesQ] are the three vectors that the two-pass
    variant computes when the sums it divides by are not zero (lemmas
    [diffInitial_finite], [clamped_finite] and [twopass_finite]). *)
Definition diffQ (vs ts : list Qc) (sumToAdd : Qc) : list Qc :=
  zipWith (fun t v => (t * (sumQc vs + sumToAdd) - v)%Qc) ts vs.

Definition clampedQ (vs ts : list Qc) (sumToAdd : Qc) : list Qc :=
  map (clampQ sumToAdd) (diffQ vs ts sumToAdd).

Definition sharesQ (c : list Qc) (sumToAdd : Qc) : list Qc :=
  map (fun d => (d / sumQc c * sumToAdd)%Qc) c.

(** [rebalanceQ] is [rebalance] on rationals (lemma [rebalance_finite]). *)
Definition rebalanceQ (T : Qc) (cur ts : list Qc) (sumToAdd : Qc) : list Qc :=
  zipWith (fun t c => ((t - c) * T + t * sumToAdd)%Qc) ts cur.

(** The formula of lines 56 and 211: what [rebalance] returns at [index] and
    what the iterative variant calls [sumToAddSuddivision]. *)
Definition sumToAddSuddivision (sumInitial : number) (allocInitial : list number)
    (sumToAdd : number) (index : nat) (value : number) : number :=
  ((value - get allocInitial index) * sumInitial + value * sumToAdd)%js.

(** What the iterative variant stores in [sumDivided] for a subdivision. *)
Definition positivePart (s : number) : number :=
  if (s <=? 0)%js then 0%js else s.

(** [r - s - ... - s], with [n] subtractions: [reimainingToDistribute] after
    [n] turns of the [for] loop that all applied the distribution. *)
Fixpoint iter_sub (n : nat) (r s : number) : number :=
  match n with
  | O => r
  | S n' => (iter_sub n' r s - s)%js
  end.

(** The iterative variant on rationals, when one pass is enough.
    [positions_from k l] lists the indexes, counted from [k], of the
    positive entries of [l]: the set [indexesRedistribution] after the
    [forEach].  [nonPositiveSum] is the sum of the negative rebalancings,
    [positivePartQ] is [positivePart], and [evenShare s] gives a positive
    entry its part [s] of that sum. *)
Fixpoint positions_from (k : nat) (l : list Qc) : list nat :=
  match l with
  | [] => []
  | x :: l' =>
      if Num.Qcleb x 0 then positions_from (S k) l'
      else k :: positions_from (S k) l'
  end.

Definition nonPositiveSum (l : list Qc) : Qc :=
  sumQc (filter (fun x => Num.Qcleb x 0) l).

Definition positivePartQ (x : Qc) : Qc := if Num.Qcleb x 0 then 0%Qc else x.

Definition evenShare (s x : Qc) : Qc := if Num.Qcleb x 0 then 0%Qc else (x + s)%Qc.

(** ** Deciding equality of computed values *)

(** The same number ([NaN] is the same as [NaN] here, unlike for [===]). *)
Definition same_number (a b : number) : bool :=
  match a, b with
  | Fin x, Fin y => Num.Qceqb x y
  | PInf, PInf | NInf, NInf | NaN, NaN => true
  | _, _ => false
  end.

Fixpoint same_numbers (l l' : list number) : bool :=
  match l, l' with
  | [], [] => true
  | a :: t, b :: t' => same_number a b && same_numbers t t'
  | _, _ => false
  end.

Definition same_result (r r' : result (list number)) : bool :=
  match r, r' with
  | Ok l, Ok l' => same_numbers l l'
  | AssertionError m, AssertionError m' => String.eqb m m'
  | _, _ => false
  end.

Definition same_option (r r' : option (list number)) : bool :=
  match r, r' with
  | Some l, Some l' => same_numbers l l'
  | None, None => true
  | _, _ => false
  end.

(** ** Vocabulary of the statements *)

Section Vocabulary.

Local Open Scope js_scope.

(** The difference [d] asks to move an asset the way [sumToAdd] goes. *)
Definition agrees_in_sign (sumToAdd d : number) : bool :=
  ((sumToAdd >? 0) && (d >? 0)) || ((sumToAdd <? 0) && (d <? 0)).

(** The difference [d] asks to move an asset against [sumToAdd]. *)
Definition opposes_in_sign (sumToAdd d : number) : bool :=
  ((sumToAdd >? 0) && (d <? 0)) || ((sumToAdd <? 0) && (d >? 0)).

(** The assets' sums after the adjustments, as fractions of
    [sumInitial + sumToAdd]. *)
Definition allocationAfter (sumInitial sumToAdd : number)
    (sumsInitial adjustments : list number) : list number :=
  zipWith (fun v a => (v + a) / (sumInitial + sumToAdd)) sumsInitial adjustments.

End Vocabulary.

(** ** The first script's variant (lines 67-79) *)

Module FirstScript.

Local Open Scope js_scope.

Definition rebalanceWithoutNegativeRebalancing (sumsInitial allocTargets : list number)
    (sumToAdd : number) : result (list number) :=
  if Nat.eqb (length sumsInitial) (length allocTargets) then
    let '(sumInitial, allocInitial) := calculateAllocation sumsInitial in
    let sumFinal := sumInitial + sumToAdd in
    let sumFinalDivided := map (fun a => a * sumFinal) allocTargets in
    let sumFinalDividedDiffInitial :=
      map (fun s => if s <? 0 then 0 else s)
        (mapi (fun i s => s - get allocInitial i * sumInitial) sumFinalDivided) in
    let '(_, diffAllocation) := calculateAllocation sumFinalDividedDiffInitial in
    Ok (map (fun d => d * sumToAdd) diffAllocation)
  else AssertionError same_length_message.

End FirstScript.

(** ** The state of the iterative variant on rationals *)

(** [set_atQ] is [set_at] on rationals. *)
Fixpoint set_atQ (l : list Qc) (i : nat) (y : Qc) : list Qc :=
  match l, i with
  | [], _ => []
  | _ :: l', O => y :: l'
  | x :: l', S i' => x :: set_atQ l' i' y
  end.

(** What the loops of the iterative variant keep, for subdivisions whose
    positive parts are [sd0] and whose sum is [total]: the entries of
    [sumDivided] are finite, not negative and at most what they were; what
    remains to distribute is finite and not positive; the entries and what
    remains sum to [total]; the indexes of the set are inside the array and
    every positive entry has its index in the set. *)
Definition distributing (total : Qc) (sd0 : list Qc) (st : Iterative.state) : Prop :=
  exists (sd : list Qc) (r : Qc),
    Iterative.sumDivided st = finite sd
    /\ Iterative.reimainingToDistribute st = Fin r
    /\ length sd = length sd0
    /\ (forall j, 0 <= nth j sd 0 <= nth j sd0 0)%Qc
    /\ (r <= 0)%Qc
    /\ (sumQc sd + r = total)%Qc
    /\ (forall i, In i (Iterative.indexesRedistribution st) -> (i < length sd)%nat)
    /\ (forall j, (0 < nth j sd 0)%Qc -> In j (Iterative.indexesRedistribution st)).

(** ** Printing (lines 348-356 and 419-480 of the third script) *)

(** [Math.trunc] *)
Definition trunc (x : number) : number :=
  match x with
  | Fin v => Fin (Q2Qc (inject_Z (Z.quot (Qnum v) (Zpos (Qden v)))))
  | _ => x
  end.

(** [Number.isInteger] *)
Definition isInteger (x : number) : bool :=
  match x with
  | Fin v => Pos.eqb (Qden v) 1
  | _ => false
  end.

(** [Math.pow(10, decimals)] for the integers that [truncate] lets through. *)
Definition pow10 (decimals : number) : number :=
  match decimals with
  | Fin v => Fin (Q2Qc (Qpower (10 # 1) (Qnum v)))
  | _ => NaN
  end.

Definition truncate (x : number) (decimals : option number) : result number :=
  match decimals with
  | None => Ok (trunc x)
  | Some decimals =>
      if isInteger decimals then
        let tenPow := pow10 decimals in
        Ok (trunc (x * tenPow) / tenPow)%js
      else AssertionError "decimals must be an integer"%string
  end.

Record Allocation : Type := mkAllocation {
  name : string;
  value : number;
  allocationTarget : number
}.

(** A row of the table that [displayResults] prints. *)
Module TableRow.

Record t : Type := make {
  name : string;
  sumToAdd : number;
  sumFinal : number;
  allocationTarget : number;
  allocationInitial : number;
  allocationFinal : number
}.

End TableRow.

(** What the script writes on the console. *)
Inductive output : Type :=
| Log (line : string)
| TableOfInputs (rows : list Allocation)
| TableOfResults (rows : list TableRow.t).

(** A run of a part of the script: what it has written, and its value or
    the assertion that stopped it. *)
Definition script (A : Type) : Type := (list output * result A)%type.

Definition ret {A : Type} (a : A) : script A := ([], Ok a).

Definition bind {A B : Type} (m : script A) (f : A -> script B) : script B :=
  match m with
  | (out, Ok a) => let '(out', r) := f a in (out ++ out', r)
  | (out, AssertionError message) => (out, AssertionError message)
  end.

Declare Scope script_scope.
Delimit Scope script_scope with script.

Notation "x <- m ;; k" := (bind m (fun x => k))
  (at level 61, m at next level, right associativity) : script_scope.
Notation "m ;; k" := (bind m (fun _ => k))
  (at level 61, right associativity) : script_scope.

Definition assert (condition : bool) (message : string) : script unit :=
  if condition then ret tt else ([], AssertionError message).

Definition console_log (line : string) : script unit := ([Log line], Ok tt).

Definition lift {A : Type} (r : result A) : script A := ([], r).

(** [arr.map] with a callback that can raise. *)
Fixpoint mapi_result_from {A B : Type} (k : nat) (f : nat -> A -> result B)
    (l : list A) : result (list B) :=
  match l with
  | [] => Ok []
  | x :: l' =>
      match f k x with
      | Ok y =>
          match mapi_result_from (S k) f l' with
          | Ok ys => Ok (y :: ys)
          | AssertionError message => AssertionError message
          end
      | AssertionError message => AssertionError message
      end
  end.

Section Script.

(** The conversion of a number to the text that a template literal inserts:
    it belongs to JavaScript, not to the script. *)
Variable toString : number -> string.

Local Open Scope string_scope.
Local Open Scope script_scope.

(** The row that [displayResults] builds for [input] (lines 428-435). *)
Definition resultRow (sumsDivided allocFinalSums allocInitial allocFinal : list number)
    (index : nat) (input : Allocation) : result TableRow.t :=
  match truncate (get sumsDivided index) (Some (Fin (q 2 1))) with
  | AssertionError message => AssertionError message
  | Ok a =>
  match truncate (get allocFinalSums index) (Some (Fin (q 2 1))) with
  | AssertionError message => AssertionError message
  | Ok b =>
  match truncate (get allocInitial index) (Some (Fin (q 3 1))) with
  | AssertionError message => AssertionError message
  | Ok c =>
  match truncate (get allocFinal index) (Some (Fin (q 3 1))) with
  | AssertionError message => AssertionError message
  | Ok d => Ok (TableRow.make (name input) a b (allocationTarget input) c d)
  end end end end.

Definition displayResults (inputs : list Allocation)
    (sumsDivided allocInitial : list number) : script unit :=
  assert (Nat.eqb (length inputs) (length sumsDivided)
          && Nat.eqb (length allocInitial) (length inputs))
    same_length_message ;;
  let allocFinalSums :=
    mapi (fun index input => (value input + get sumsDivided index)%js) inputs in
  let sumFinal := kahanSum allocFinalSums in
  let allocFinal := map (fun value => (value / sumFinal)%js) allocFinalSums in
  console_log ("Final sum: " ++ toString sumFinal) ;;
  rows <- lift (mapi_result_from 0
                  (resultRow sumsDivided allocFinalSums allocInitial allocFinal)
                  inputs) ;;
  ([TableOfResults rows], Ok tt).

(** [main] of the third script (lines 441-478), for any [inputs] and
    [sumToAdd] in the place of the ones written in the script. *)
Definition main (inputs : list Allocation) (sumToAdd : number) : script unit :=
  let allocInitialSums := map value inputs in
  let allocTargets := map allocationTarget inputs in
  let sumInitial := kahanSum allocInitialSums in
  let allocInitial := map (fun value => (value / sumInitial)%js) allocInitialSums in
  assert (Nat.leb 2 (length inputs))
    "Allocation must be composed at least 2 elements" ;;
  assert (forallb (fun s => (value s >=? 0)%js) inputs)
    "Initial allocated values can't be < 0" ;;
  assert (forallb (fun s => ((allocationTarget s >=? 0)
                             && (allocationTarget s <=? Fin 1%Qc))%js) inputs)
    "Allocation target values must be between 0 and 1, inclusive" ;;
  assert (kahanSum allocTargets === Fin 1%Qc)%js
    ("Allocation targets sum must be 1. Is " ++ toString (kahanSum allocTargets)) ;;
  assert (sumToAdd + sumInitial >=? 0)%js "The final sum must be > 0" ;;
  console_log ("Initial allocated sums (total: " ++ toString sumInitial ++ ")") ;;
  ([TableOfInputs inputs], Ok tt) ;;
  console_log ("Sum to add: " ++ toString sumToAdd) ;;
  sumsDivided <- lift (rebalance sumInitial allocInitial allocTargets sumToAdd) ;;
  console_log "" ;;
  console_log "------ Results with negative rebalancings ------" ;;
  displayResults inputs sumsDivided allocInitial ;;
  sumDividedWithoutNegativeRebalancings <-
    lift (TwoPass.rebalanceWithoutNegativeRebalancing
            allocInitialSums allocTargets sumToAdd) ;;
  console_log "" ;;
  console_log "------ Results without negative rebalancings ------" ;;
  displayResults inputs sumDividedWithoutNegativeRebalancings allocInitial.

(** The lines that [main] writes when its checks pass, given what the two
    calls of [displayResults] write. *)
Definition written (inputs : list Allocation) (sumToAdd : number)
    (first second : list output) : list output :=
  [Log ("Initial allocated sums (total: "
        ++ toString (kahanSum (map value inputs)) ++ ")");
   TableOfInputs inputs;
   Log ("Sum to add: " ++ toString sumToAdd);
   Log "";
   Log "------ Results with negative rebalancings ------"]
  ++ first
  ++ [Log ""; Log "------ Results without negative rebalancings ------"]
  ++ second.

End Script.

(** The five conditions that [main] asserts before it computes (lines
    459-463). *)
Definition checks (inputs : list Allocation) (sumToAdd : number) : bool :=
  Nat.leb 2 (length inputs)
  && forallb (fun s => (value s >=? 0)%js) inputs
  && forallb (fun s => ((allocationTarget s >=? 0)
                        && (allocationTarget s <=? Fin 1%Qc))%js) inputs
  && (kahanSum (map allocationTarget inputs) === Fin 1%Qc)%js
  && (sumToAdd + kahanSum (map value inputs) >=? 0)%js.

(** * Properties *)

(** ** Rational arithmetic *)

(** Order facts about [Qc] are read as facts about [Q]. *)
Ltac qc_to_q :=
  unfold Qcle, Qclt, Qcminus, Qcdiv, Qcplus, Qcmult, Qcopp, Qcinv in *;
  cbn [this Q2Qc] in *;
  repeat (rewrite !Qred_correct in * ).

Section QcFacts.

Local Open Scope Qc_scope.

Lemma Qcltb_spec (a b : Qc) : reflect (a < b) (Num.Qcltb a b).
Proof.
  unfold Num.Qcltb. destruct (a ?= b) eqn:E; constructor.
  - intro H. apply (proj1 (Qclt_alt a b)) in H. congruence.
  - now apply Qclt_alt.
  - intro H. apply (proj1 (Qclt_alt a b)) in H. congruence.
Qed.

Lemma Qcleb_spec (a b : Qc) : reflect (a <= b) (Num.Qcleb a b).
Proof.
  unfold Num.Qcleb. destruct (a ?= b) eqn:E; constructor.
  - apply Qcle_alt. congruence.
  - apply Qcle_alt. congruence.
  - intro H. apply (proj1 (Qcle_alt a b)) in H. congruence.
Qed.

Lemma Qceqb_spec (a b : Qc) : reflect (a = b) (Num.Qceqb a b).
Proof.
  unfold Num.Qceqb. destruct (a ?= b) eqn:E; constructor.
  - now apply Qceq_alt.
  - intro H. apply (proj1 (Qceq_alt a b)) in H. congruence.
  - intro H. apply (proj1 (Qceq_alt a b)) in H. congruence.
Qed.

Lemma Qceqb_false (a b : Qc) : a <> b -> Num.Qceqb a b = false.
Proof. intro H. destruct (Qceqb_spec a b); [contradiction | reflexivity]. Qed.

Lemma Qcltb_true (a b : Qc) : a < b -> Num.Qcltb a b = true.
Proof. intro H. destruct (Qcltb_spec a b); [reflexivity | contradiction]. Qed.

Lemma Qcltb_false (a b : Qc) : b <= a -> Num.Qcltb a b = false.
Proof.
  intro H. destruct (Qcltb_spec a b); [|reflexivity].
  exfalso. exact (Qcle_not_lt _ _ H q0).
Qed.

Lemma Qclt_irrefl (a : Qc) : ~ a < a.
Proof. intro H. exact (Qclt_not_eq _ _ H eq_refl). Qed.

Lemma Qcinv_pos (s : Qc) : 0 < s -> 0 < / s.
Proof.
  intro H. qc_to_q. now apply Qinv_lt_0_compat.
Qed.

Lemma Qcmult_nonneg (a b : Qc) : 0 <= a -> 0 <= b -> 0 <= a * b.
Proof.
  intros Ha Hb. qc_to_q. now apply Qmult_le_0_compat.
Qed.

Lemma Qcopp_nonneg (a : Qc) : a <= 0 -> 0 <= - a.
Proof. intro H. apply Qcopp_le_compat in H. exact H. Qed.

Lemma Qcopp_pos (a : Qc) : a < 0 -> 0 < - a.
Proof.
  intro H. qc_to_q. lra.
Qed.

Lemma Qcopp_nonpos (a : Qc) : 0 <= - a -> a <= 0.
Proof.
  intro H. qc_to_q. lra.
Qed.

Lemma Qcplus_nonneg (a b : Qc) : 0 <= a -> 0 <= b -> 0 <= a + b.
Proof.
  intros Ha Hb. qc_to_q. lra.
Qed.

Lemma Qcplus_pos_nonneg (a b : Qc) : 0 < a -> 0 <= b -> 0 < a + b.
Proof.
  intros Ha Hb. qc_to_q. lra.
Qed.

Lemma Qcplus_nonneg_pos (a b : Qc) : 0 <= a -> 0 < b -> 0 < a + b.
Proof.
  intros Ha Hb. qc_to_q. lra.
Qed.

(** A share [a / s * d] of a deposit [d] is not negative. *)
Lemma share_nonneg (a s d : Qc) : 0 <= a -> 0 < s -> 0 <= d -> 0 <= a / s * d.
Proof.
  intros Ha Hs Hd. apply Qcmult_nonneg; [|assumption].
  apply Qcmult_nonneg; [assumption|].
  apply Qclt_le_weak, Qcinv_pos, Hs.
Qed.

(** A share [a / s * d] of a withdrawal [d] is not positive. *)
Lemma share_nonpos (a s d : Qc) : a <= 0 -> s < 0 -> d <= 0 -> a / s * d <= 0.
Proof.
  intros Ha Hs Hd. apply Qcopp_nonpos.
  assert (Hs' : s <> 0) by (intro E; rewrite E in Hs; exact (Qclt_irrefl _ Hs)).
  assert (Hs2 : - s <> 0).
  { intro E. apply Hs'. rewrite <- (Qcopp_involutive s), E. reflexivity. }
  replace (- (a / s * d)) with ((- a) / (- s) * (- d)) by (field; split; assumption).
  apply share_nonneg.
  - now apply Qcopp_nonneg.
  - now apply Qcopp_pos.
  - now apply Qcopp_nonneg.
Qed.

Lemma of_nat_nonzero (n : nat) :
  (0 < n)%nat -> Q2Qc (inject_Z (Z.of_nat n)) <> 0.
Proof.
  intros Hn E. apply Q2Qc_eq_iff in E.
  unfold Qeq in E. cbn in E. lia.
Qed.

End QcFacts.

(** ** Numbers and arrays *)

Section NumFacts.

Local Open Scope js_scope.

Lemma div_fin (x y : Qc) : y <> 0%Qc -> Fin x / Fin y = Fin (x / y)%Qc.
Proof. intro H. unfold Num.div. now rewrite Qceqb_false. Qed.

Lemma div_zero_zero : Fin 0%Qc / Fin 0%Qc = NaN.
Proof. reflexivity. Qed.

Lemma mul_NaN_l (x : number) : NaN * x = NaN.
Proof. now destruct x. Qed.

Lemma ltb_fin (x y : Qc) : (Fin x <? Fin y) = Num.Qcltb x y.
Proof. reflexivity. Qed.

Lemma gtb_fin (x y : Qc) : (Fin x >? Fin y) = Num.Qcltb y x.
Proof. reflexivity. Qed.

Lemma strict_eqb_fin_false (x : Qc) : x <> 0%Qc -> (Fin x === 0) = false.
Proof. intro H. unfold Num.strict_eqb, Num.zero. now apply Qceqb_false. Qed.

Lemma clamp_fin (d s : Qc) : TwoPass.clamp (Fin d) (Fin s) = Fin (clampQ d s).
Proof.
  unfold TwoPass.clamp, clampQ, Num.zero. rewrite gtb_fin.
  destruct (Num.Qcltb 0 d); [rewrite ltb_fin | rewrite gtb_fin];
    now destruct (Num.Qcltb _ _).
Qed.

End NumFacts.

Section ArrayFacts.

Lemma length_finite (l : list Qc) : length (finite l) = length l.
Proof. apply length_map. Qed.

Lemma finite_inj (l l' : list Qc) : finite l = finite l' -> l = l'.
Proof.
  revert l'. induction l as [|x l IH]; intros [|y l'] H; try discriminate.
  - reflexivity.
  - cbn in H. injection H as Hx Hl. f_equal; auto.
Qed.

Lemma length_mapi_from {A B : Type} (f : nat -> A -> B) (l : list A) (k : nat) :
  length (mapi_from k f l) = length l.
Proof. revert k. induction l; intro k; cbn; auto. Qed.

Lemma length_zipWith {A B C : Type} (f : A -> B -> C) (l : list A) (l' : list B) :
  length l = length l' -> length (zipWith f l l') = length l.
Proof.
  revert l'. induction l as [|x l IH]; intros [|y l'] H; cbn in *; try discriminate; auto.
Qed.

(** A callback that reads a second array of the same length at the index
    it is given walks the two arrays side by side. *)
Lemma mapi_from_zipWith {B : Type} (f : nat -> number -> B) (g : number -> number -> B)
    (l a pre : list number) :
  (forall i x, f i x = g x (get (pre ++ a) i)) ->
  length a = length l ->
  mapi_from (length pre) f l = zipWith g l a.
Proof.
  revert a pre. induction l as [|x l IH]; intros [|y a] pre Hf Hlen;
    cbn in *; try discriminate; try reflexivity.
  f_equal.
  - rewrite Hf. unfold get. rewrite app_nth2, Nat.sub_diag by lia. reflexivity.
  - replace (S (length pre)) with (length (pre ++ [y]))
      by (rewrite length_app; cbn; lia).
    apply IH; [|lia].
    intros i z. rewrite Hf, <- app_assoc. reflexivity.
Qed.

Lemma mapi_zipWith {B : Type} (f : nat -> number -> B) (g : number -> number -> B)
    (l a : list number) :
  (forall i x, f i x = g x (get a i)) ->
  length a = length l ->
  mapi f l = zipWith g l a.
Proof. intros Hf Hlen. now apply (mapi_from_zipWith f g l a []). Qed.

Lemma zipWith_finite (g : number -> number -> number) (h : Qc -> Qc -> Qc)
    (l a : list Qc) :
  (forall x y, g (Fin x) (Fin y) = Fin (h x y)) ->
  zipWith g (finite l) (finite a) = finite (zipWith h l a).
Proof.
  intro H. revert a. induction l as [|x l IH]; intros [|y a]; cbn; try reflexivity.
  now rewrite H, <- IH.
Qed.

Lemma zipWith_map_l {A A' B C : Type} (f : A' -> B -> C) (u : A -> A')
    (l : list A) (l' : list B) :
  zipWith f (map u l) l' = zipWith (fun x y => f (u x) y) l l'.
Proof.
  revert l'. induction l as [|x l IH]; intros [|y l']; cbn; try reflexivity.
  now rewrite IH.
Qed.

Lemma zipWith_map_r {A B B' C : Type} (f : A -> B' -> C) (u : B -> B')
    (l : list A) (l' : list B) :
  zipWith f l (map u l') = zipWith (fun x y => f x (u y)) l l'.
Proof.
  revert l'. induction l as [|x l IH]; intros [|y l']; cbn; try reflexivity.
  now rewrite IH.
Qed.

Lemma zipWith_ext {A B C : Type} (f g : A -> B -> C) (l : list A) (l' : list B) :
  (forall x y, f x y = g x y) -> zipWith f l l' = zipWith g l l'.
Proof.
  intro H. revert l'. induction l as [|x l IH]; intros [|y l']; cbn; try reflexivity.
  now rewrite H, IH.
Qed.

Lemma map_finite (g : number -> number) (h : Qc -> Qc) (l : list Qc) :
  (forall x, g (Fin x) = Fin (h x)) -> map g (finite l) = finite (map h l).
Proof.
  intro H. unfold finite. rewrite !map_map. apply map_ext. intro x. apply H.
Qed.

End ArrayFacts.

(** ** [kahanSum] and [calculateAllocation] on finite numbers *)

Section SumFacts.

Local Open Scope Qc_scope.

(** With exact arithmetic the compensation term stays zero. *)
Lemma kahanLoop_finite (l : list Qc) (s : Qc) :
  kahanLoop (Fin s) (Fin 0) (finite l) = Fin (s + sumQc l).
Proof.
  revert s. induction l as [|v l IH]; intro s.
  - cbn. f_equal. ring.
  - cbn [finite map kahanLoop Num.sub Num.add Num.neg].
    match goal with
    | |- kahanLoop (Fin ?x) (Fin ?y) _ = _ =>
        replace y with 0 by ring; replace x with (s + v) by ring
    end.
    fold (finite l). rewrite IH. cbn. f_equal. ring.
Qed.

Lemma kahanSum_finite (l : list Qc) : kahanSum (finite l) = Fin (sumQc l).
Proof.
  destruct l as [|v l]; [reflexivity|].
  cbn [finite map kahanSum]. unfold Num.zero. apply kahanLoop_finite.
Qed.

Lemma calculateAllocation_finite (l : list Qc) :
  sumQc l <> 0 ->
  calculateAllocation (finite l)
  = (Fin (sumQc l), finite (map (fun v => v / sumQc l) l)).
Proof.
  intro H. unfold calculateAllocation. rewrite kahanSum_finite. f_equal.
  apply map_finite. intro x. now apply div_fin.
Qed.

Lemma sumQc_scale (l : list Qc) (k : Qc) :
  sumQc (map (fun d => d * k) l) = sumQc l * k.
Proof. induction l as [|x l IH]; cbn; [ring | rewrite IH; ring]. Qed.

Lemma sumQc_nonneg (l : list Qc) : Forall (fun x => 0 <= x) l -> 0 <= sumQc l.
Proof.
  induction 1 as [|x l Hx _ IH]; cbn.
  - apply Qcle_refl.
  - now apply Qcplus_nonneg.
Qed.

Lemma sumQc_pos (l : list Qc) :
  Forall (fun x => 0 <= x) l -> Exists (fun x => 0 < x) l -> 0 < sumQc l.
Proof.
  induction 1 as [|x l Hx Hl IH]; intro E; inversion E; subst; cbn.
  - apply Qcplus_pos_nonneg; [assumption | now apply sumQc_nonneg].
  - apply Qcplus_nonneg_pos; auto.
Qed.

Lemma sumQc_repeat_zero (n : nat) : sumQc (repeat 0 n) = 0.
Proof. induction n as [|n IH]; cbn; [reflexivity | rewrite IH; ring]. Qed.

Lemma sumQc_opp (l : list Qc) : sumQc (map Qcopp l) = - sumQc l.
Proof. induction l as [|x l IH]; cbn; [ring | rewrite IH; ring]. Qed.

Lemma sumQc_neg (l : list Qc) :
  Forall (fun x => x <= 0) l -> Exists (fun x => x < 0) l -> sumQc l < 0.
Proof.
  intros Hall Hex.
  assert (H : 0 < sumQc (map Qcopp l)).
  { apply sumQc_pos.
    - apply Forall_map. revert Hall. apply Forall_impl. intro. apply Qcopp_nonneg.
    - apply Exists_map. revert Hex. apply Exists_impl. intro. apply Qcopp_pos. }
  rewrite sumQc_opp in H. qc_to_q. lra.
Qed.

End SumFacts.

(** Closed facts about rationals, by evaluation. *)
Ltac qc_eval :=
  lazymatch goal with
  | |- @eq Qc _ _ => apply Qc_is_canon; vm_compute; reflexivity
  | |- not (@eq Qc _ _) =>
      let E := fresh in intro E; apply (f_equal this) in E; vm_compute in E; discriminate E
  | |- Qclt _ _ => vm_compute; reflexivity
  | |- Qcle _ _ => vm_compute; discriminate
  | |- _ /\ _ => split; qc_eval
  | |- Forall _ _ => repeat constructor; qc_eval
  | |- _ => reflexivity
  end.

Section SameFacts.

Lemma same_number_eq (a b : number) : same_number a b = true -> a = b.
Proof.
  destruct a, b; cbn; try discriminate; try reflexivity.
  intro H. f_equal. now destruct (Qceqb_spec q0 q1).
Qed.

Lemma same_numbers_eq (l l' : list number) : same_numbers l l' = true -> l = l'.
Proof.
  revert l'. induction l as [|a l IH]; intros [|b l']; cbn; try discriminate.
  - reflexivity.
  - intro H. apply andb_prop in H as [Ha Hl].
    f_equal; [now apply same_number_eq | now apply IH].
Qed.

Lemma same_result_eq (r r' : result (list number)) : same_result r r' = true -> r = r'.
Proof.
  destruct r, r'; cbn; try discriminate.
  - intro H. f_equal. now apply same_numbers_eq.
  - intro H. f_equal. now apply String.eqb_eq.
Qed.

Lemma same_option_eq (r r' : option (list number)) : same_option r r' = true -> r = r'.
Proof.
  destruct r, r'; cbn; try discriminate; try reflexivity.
  intro H. f_equal. now apply same_numbers_eq.
Qed.

End SameFacts.

(** Closed equations between computed values, by evaluation. *)
Ltac array_eval :=
  lazymatch goal with
  | |- @eq number _ _ => apply same_number_eq; vm_compute; reflexivity
  | |- @eq (list number) _ _ => apply same_numbers_eq; vm_compute; reflexivity
  | |- @eq (result (list number)) _ _ => apply same_result_eq; vm_compute; reflexivity
  | |- @eq (option (list number)) _ _ => apply same_option_eq; vm_compute; reflexivity
  | |- @eq (prod _ _) _ _ => apply injective_projections; cbn [fst snd]; array_eval
  | |- _ /\ _ => split; array_eval
  end.

(** ** The unconstrained rebalancer *)

Section Rebalance.

Local Open Scope Qc_scope.

Lemma rebalance_finite (T : Qc) (cur ts : list Qc) (d : Qc) :
  length cur = length ts ->
  rebalance (Fin T) (finite cur) (finite ts) (Fin d)
  = Ok (finite (rebalanceQ T cur ts d)).
Proof.
  intro Hlen. unfold rebalance, rebalanceQ.
  rewrite !length_finite, Hlen, Nat.eqb_refl. f_equal.
  rewrite (mapi_zipWith _
             (fun value a => ((value - a) * Fin T + value * Fin d)%js)
             (finite ts) (finite cur)).
  - now apply zipWith_finite.
  - reflexivity.
  - now rewrite !length_finite.
Qed.

Lemma sumQc_rebalanceQ (T : Qc) (cur ts : list Qc) (d : Qc) :
  length cur = length ts ->
  sumQc (rebalanceQ T cur ts d) = (sumQc ts - sumQc cur) * T + sumQc ts * d.
Proof.
  unfold rebalanceQ. revert cur.
  induction ts as [|t ts IH]; intros [|c cur] Hlen; cbn in *; try discriminate.
  - ring.
  - rewrite IH by lia. ring.
Qed.

Lemma allocationAfter_rebalanceQ (T d : Qc) (vs ts : list Qc) :
  T <> 0 -> T + d <> 0 -> length vs = length ts ->
  allocationAfter (Fin T) (Fin d) (finite vs)
    (finite (rebalanceQ T (map (fun v => v / T) vs) ts d))
  = finite ts.
Proof.
  intros HT HTd. unfold allocationAfter, rebalanceQ. revert ts.
  induction vs as [|v vs IH]; intros [|t ts] Hlen; cbn in *; try discriminate.
  - reflexivity.
  - f_equal.
    + rewrite Qceqb_false by assumption. f_equal. now field.
    + apply IH. lia.
Qed.

(** A finite allocation obtained by dividing by [T] needs [T <> 0]. *)
Lemma allocation_of_finite (T : Qc) (cur vs : list Qc) :
  finite cur = map (fun v => (v / Fin T)%js) (finite vs) ->
  cur <> [] ->
  T <> 0 /\ cur = map (fun v => v / T) vs.
Proof.
  intros H Hne.
  assert (HT : T <> 0).
  { destruct cur as [|c cur]; [congruence|].
    destruct vs as [|v vs]; [discriminate|].
    cbn in H. injection H as Hc _. intro E. subst T.
    unfold Num.div in Hc. cbn in Hc.
    destruct (v ?= Q2Qc 0); discriminate. }
  split; [assumption|].
  apply finite_inj. rewrite H.
  apply map_finite. intro x. now apply div_fin.
Qed.

End Rebalance.

(** C4.  [rebalance], given a current and a target allocation of the same
    length that each sum to 1, returns adjustments whose sum is [sumToAdd],
    whatever [sumInitial] and [sumToAdd] are: the exact sum [sumQc] and the
    sum computed by [kahanSum] both give it. *)
Theorem rebalance_sums_to_delta (T d : Qc) (cur ts : list Qc) :
  length cur = length ts ->
  sumQc cur = 1%Qc ->
  sumQc ts = 1%Qc ->
  exists adj : list Qc,
    rebalance (Fin T) (finite cur) (finite ts) (Fin d) = Ok (finite adj)
    /\ sumQc adj = d
    /\ kahanSum (finite adj) = Fin d.
Proof.
  intros Hlen Hcur Hts. exists (rebalanceQ T cur ts d).
  assert (Hsum : sumQc (rebalanceQ T cur ts d) = d).
  { rewrite sumQc_rebalanceQ, Hcur, Hts by assumption. ring. }
  split; [now apply rebalance_finite|].
  split; [assumption|].
  now rewrite kahanSum_finite, Hsum.
Qed.

Lemma rebalance_sums_to_delta_witness :
  exists adj : list Qc,
    rebalance (Fin (q 17000 1)) (finite [q 6 17; q 5 17; q 6 17])
      (finite [q 3 10; q 1 2; q 1 5]) (Fin (q 10000 1)) = Ok (finite adj)
    /\ sumQc adj = q 10000 1
    /\ kahanSum (finite adj) = Fin (q 10000 1).
Proof.
  apply (rebalance_sums_to_delta (q 17000 1) (q 10000 1)
           [q 6 17; q 5 17; q 6 17] [q 3 10; q 1 2; q 1 5]).
  - reflexivity.
  - qc_eval.
  - qc_eval.
Defined.

(** C3.  When the current allocation is each asset's sum divided by
    [sumInitial], both allocations sum to 1 and the final sum is positive,
    adding the adjustments that [rebalance] returns to the assets' sums and
    dividing by the final sum gives the target allocation, at every index. *)
Theorem rebalance_reaches_target (T d : Qc) (vs cur ts : list Qc) :
  length cur = length ts ->
  sumQc cur = 1%Qc ->
  sumQc ts = 1%Qc ->
  finite cur = map (fun v => (v / Fin T)%js) (finite vs) ->
  (0 < T + d)%Qc ->
  exists adj : list number,
    rebalance (Fin T) (finite cur) (finite ts) (Fin d) = Ok adj
    /\ length adj = length ts
    /\ allocationAfter (Fin T) (Fin d) (finite vs) adj = finite ts.
Proof.
  intros Hlen Hcur Hts Halloc Hpos.
  assert (Hne : cur <> []).
  { intro E. subst cur. cbn in Hcur. symmetry in Hcur. exact (Q_apart_0_1 Hcur). }
  destruct (allocation_of_finite T cur vs Halloc Hne) as [HT Hcur'].
  assert (HTd : (T + d)%Qc <> 0%Qc).
  { intro E. rewrite E in Hpos. exact (Qclt_irrefl _ Hpos). }
  assert (Hvs : length vs = length ts).
  { rewrite <- Hlen, Hcur'. now rewrite length_map. }
  exists (finite (rebalanceQ T cur ts d)).
  split; [now apply rebalance_finite|].
  split.
  - rewrite length_finite. unfold rebalanceQ. rewrite length_zipWith; auto.
  - rewrite Hcur'. now apply allocationAfter_rebalanceQ.
Qed.

Lemma rebalance_reaches_target_witness :
  exists adj : list number,
    rebalance (Fin (q 17000 1)) (finite [q 6 17; q 5 17; q 6 17])
      (finite [q 3 10; q 1 2; q 1 5]) (Fin (q 10000 1)) = Ok adj
    /\ length adj = 3%nat
    /\ allocationAfter (Fin (q 17000 1)) (Fin (q 10000 1))
         (finite [q 6000 1; q 5000 1; q 6000 1]) adj
       = finite [q 3 10; q 1 2; q 1 5].
Proof.
  apply (rebalance_reaches_target (q 17000 1) (q 10000 1)
           [q 6000 1; q 5000 1; q 6000 1]
           [q 6 17; q 5 17; q 6 17] [q 3 10; q 1 2; q 1 5]).
  - reflexivity.
  - qc_eval.
  - qc_eval.
  - array_eval.
  - qc_eval.
Defined.

(** ** The two-pass variant on finite numbers *)

Section TwoPassFacts.

Local Open Scope Qc_scope.

Variables (vs ts : list Qc) (d : Qc).
Hypothesis Hlen : length vs = length ts.

Lemma diffInitial_finite :
  sumQc vs <> 0 ->
  TwoPass.diffInitial (finite vs) (finite ts) (Fin d) = finite (diffQ vs ts d).
Proof.
  intro HT. unfold TwoPass.diffInitial, diffQ.
  rewrite calculateAllocation_finite by assumption.
  rewrite (map_finite (fun a => (a * (Fin (sumQc vs) + Fin d))%js)
             (fun t => t * (sumQc vs + d))) by reflexivity.
  rewrite (mapi_zipWith _ (fun s a => (s - a * Fin (sumQc vs))%js)
             (finite (map (fun t => t * (sumQc vs + d)) ts))
             (finite (map (fun v => v / sumQc vs) vs))).
  - rewrite (zipWith_finite _ (fun s a => s - a * sumQc vs)) by reflexivity.
    f_equal. rewrite zipWith_map_l, zipWith_map_r.
    apply zipWith_ext. intros t v. now field.
  - reflexivity.
  - now rewrite !length_finite, !length_map.
Qed.

Lemma clamped_finite :
  sumQc vs <> 0 ->
  TwoPass.sumFinalDividedDiffInitial (finite vs) (finite ts) (Fin d)
  = finite (clampedQ vs ts d).
Proof.
  intro HT. unfold TwoPass.sumFinalDividedDiffInitial, clampedQ.
  rewrite diffInitial_finite by assumption.
  apply map_finite. intro x. apply clamp_fin.
Qed.

Lemma twopass_finite :
  sumQc vs <> 0 -> d <> 0 -> sumQc (clampedQ vs ts d) <> 0 ->
  TwoPass.rebalanceWithoutNegativeRebalancing (finite vs) (finite ts) (Fin d)
  = Ok (finite (sharesQ (clampedQ vs ts d) d)).
Proof.
  intros HT Hd HS. unfold TwoPass.rebalanceWithoutNegativeRebalancing.
  rewrite !length_finite, Hlen, Nat.eqb_refl.
  rewrite strict_eqb_fin_false by assumption.
  rewrite clamped_finite by assumption.
  rewrite calculateAllocation_finite by assumption.
  f_equal. unfold sharesQ.
  rewrite (map_finite (fun x => (x * Fin d)%js) (fun x => x * d)) by reflexivity.
  now rewrite map_map.
Qed.

Lemma twopass_zero :
  TwoPass.rebalanceWithoutNegativeRebalancing (finite vs) (finite ts) (Fin 0)
  = Ok (finite (repeat 0 (length vs))).
Proof.
  unfold TwoPass.rebalanceWithoutNegativeRebalancing.
  rewrite !length_finite, Hlen, Nat.eqb_refl. cbn.
  f_equal. unfold finite. now rewrite map_repeat.
Qed.

End TwoPassFacts.

Section ShareFacts.

Local Open Scope Qc_scope.

Lemma clampQ_deposit (d s : Qc) : 0 < d -> 0 <= clampQ d s.
Proof.
  intro Hd. unfold clampQ. rewrite (Qcltb_true _ _ Hd).
  destruct (Qcltb_spec s 0); [apply Qcle_refl | now apply Qcnot_lt_le].
Qed.

Lemma clampQ_withdrawal (d s : Qc) : d < 0 -> clampQ d s <= 0.
Proof.
  intro Hd. unfold clampQ. rewrite (Qcltb_false 0 d) by now apply Qclt_le_weak.
  destruct (Qcltb_spec 0 s); [apply Qcle_refl | now apply Qcnot_lt_le].
Qed.

Lemma agrees_in_sign_fin (d s : Qc) :
  agrees_in_sign (Fin d) (Fin s) = true ->
  (0 < d /\ 0 < s) \/ (d < 0 /\ s < 0).
Proof.
  unfold agrees_in_sign. cbn -[Num.Qcltb]. intro H.
  apply orb_prop in H as [H|H]; apply andb_prop in H as [H1 H2].
  - left. split; [now destruct (Qcltb_spec 0 d) | now destruct (Qcltb_spec 0 s)].
  - right. split; [now destruct (Qcltb_spec d 0) | now destruct (Qcltb_spec s 0)].
Qed.

Lemma clampQ_agrees (d s : Qc) :
  agrees_in_sign (Fin d) (Fin s) = true -> clampQ d s = s.
Proof.
  intro H. unfold clampQ.
  destruct (agrees_in_sign_fin _ _ H) as [[Hd Hs]|[Hd Hs]].
  - rewrite (Qcltb_true _ _ Hd), Qcltb_false by now apply Qclt_le_weak.
    reflexivity.
  - rewrite (Qcltb_false 0 d), (Qcltb_false 0 s) by now apply Qclt_le_weak.
    reflexivity.
Qed.


Lemma sumQc_sharesQ (c : list Qc) (d : Qc) :
  sumQc c <> 0 -> sumQc (sharesQ c d) = d.
Proof.
  intro HS. unfold sharesQ.
  rewrite (map_ext _ (fun x => x * (/ sumQc c * d))) by (intro; now field).
  rewrite sumQc_scale. now field.
Qed.



Lemma Qclt_asym (a b : Qc) : a < b -> b < a -> False.
Proof. intros H1 H2. exact (Qclt_irrefl _ (Qclt_trans _ _ _ H1 H2)). Qed.

(** When some difference agrees in sign with [d], the clamped differences
    have a sum of the sign of [d]: the division of the third phase is by a
    number that is not zero. *)
Lemma sum_clamped_deposit (l : list Qc) (d : Qc) :
  0 < d ->
  existsb (agrees_in_sign (Fin d)) (finite l) = true ->
  0 < sumQc (map (clampQ d) l).
Proof.
  intros Hd H. apply sumQc_pos.
  - apply Forall_map, Forall_forall. intros x _. now apply clampQ_deposit.
  - apply existsb_exists in H as [x [Hin Hx]].
    apply in_map_iff in Hin as [y [<- Hin]].
    apply Exists_exists. exists (clampQ d y). split; [now apply in_map|].
    rewrite (clampQ_agrees _ _ Hx).
    destruct (agrees_in_sign_fin _ _ Hx) as [[_ Hy]|[Hd' _]]; [assumption|].
    destruct (Qclt_asym _ _ Hd Hd').
Qed.

Lemma sum_clamped_withdrawal (l : list Qc) (d : Qc) :
  d < 0 ->
  existsb (agrees_in_sign (Fin d)) (finite l) = true ->
  sumQc (map (clampQ d) l) < 0.
Proof.
  intros Hd H. apply sumQc_neg.
  - apply Forall_map, Forall_forall. intros x _. now apply clampQ_withdrawal.
  - apply existsb_exists in H as [x [Hin Hx]].
    apply in_map_iff in Hin as [y [<- Hin]].
    apply Exists_exists. exists (clampQ d y). split; [now apply in_map|].
    rewrite (clampQ_agrees _ _ Hx).
    destruct (agrees_in_sign_fin _ _ Hx) as [[Hd' _]|[_ Hy]]; [|assumption].
    destruct (Qclt_asym _ _ Hd Hd').
Qed.

Lemma Qc_nonzero_cases (d : Qc) : d <> 0 -> 0 < d \/ d < 0.
Proof. intro H. destruct (Qc_dec 0 d) as [[H1|H1]|H1]; auto. now symmetry in H1. Qed.

Lemma Qclt_nonzero (a : Qc) : 0 < a \/ a < 0 -> a <> 0.
Proof. intros [H|H] E; subst a; exact (Qclt_irrefl _ H). Qed.

Lemma sum_clamped_nonzero (l : list Qc) (d : Qc) :
  d <> 0 ->
  existsb (agrees_in_sign (Fin d)) (finite l) = true ->
  sumQc (map (clampQ d) l) <> 0.
Proof.
  intros Hd H. apply Qclt_nonzero.
  destruct (Qc_nonzero_cases d Hd) as [Hd'|Hd'].
  - left. now apply sum_clamped_deposit.
  - right. now apply sum_clamped_withdrawal.
Qed.

End ShareFacts.

Section TwoPassValid.

Local Open Scope Qc_scope.

Variables (vs ts : list Qc) (d : Qc).
Hypothesis Hlen : length vs = length ts.
Hypothesis Htotal : 0 < sumQc vs.

Let diffs := TwoPass.diffInitial (finite vs) (finite ts) (Fin d).

Lemma total_nonzero : sumQc vs <> 0.
Proof. apply Qclt_nonzero. now left. Qed.

Lemma agrees_diffQ :
  existsb (agrees_in_sign (Fin d)) diffs = true ->
  existsb (agrees_in_sign (Fin d)) (finite (diffQ vs ts d)) = true.
Proof.
  unfold diffs. now rewrite (diffInitial_finite vs ts d Hlen total_nonzero).
Qed.

(** On a valid input that is not degenerate the function returns the
    shares of [sumToAdd] given by the clamped differences. *)
Lemma twopass_valid :
  d <> 0 ->
  existsb (agrees_in_sign (Fin d)) diffs = true ->
  TwoPass.rebalanceWithoutNegativeRebalancing (finite vs) (finite ts) (Fin d)
  = Ok (finite (sharesQ (clampedQ vs ts d) d)).
Proof.
  intros Hd Hex. apply twopass_finite; auto using total_nonzero.
  apply sum_clamped_nonzero; [assumption | now apply agrees_diffQ].
Qed.

End TwoPassValid.



(** C2.  On a valid input (vectors of the same length, sums that are not
    negative and have a positive total, targets that sum to 1, and, when
    [sumToAdd] is not zero, some asset whose difference agrees in sign with
    it) the adjustments that the two-pass variant returns sum to [sumToAdd]. *)
Theorem constrained_sums_to_delta (vs ts : list Qc) (d : Qc) :
  length vs = length ts ->
  Forall (fun v => 0 <= v)%Qc vs ->
  (0 < sumQc vs)%Qc ->
  sumQc ts = 1%Qc ->
  (d <> 0%Qc ->
   existsb (agrees_in_sign (Fin d))
     (TwoPass.diffInitial (finite vs) (finite ts) (Fin d)) = true) ->
  exists adj : list Qc,
    TwoPass.rebalanceWithoutNegativeRebalancing (finite vs) (finite ts) (Fin d)
    = Ok (finite adj)
    /\ sumQc adj = d
    /\ kahanSum (finite adj) = Fin d.
Proof.
  intros Hlen _ Htotal _ Hex.
  assert (H : exists adj : list Qc,
             TwoPass.rebalanceWithoutNegativeRebalancing (finite vs) (finite ts) (Fin d)
             = Ok (finite adj) /\ sumQc adj = d).
  { destruct (Qc_eq_dec d 0) as [Hd|Hd].
    - subst d. exists (repeat 0%Qc (length vs)).
      split; [now apply twopass_zero|].
      apply sumQc_repeat_zero.
    - specialize (Hex Hd). exists (sharesQ (clampedQ vs ts d) d).
      split; [now apply twopass_valid|].
      apply sumQc_sharesQ. apply sum_clamped_nonzero; [assumption|].
      now apply agrees_diffQ. }
  destruct H as [adj [Hres Hsum]]. exists adj.
  split; [assumption|]. split; [assumption|].
  now rewrite kahanSum_finite, Hsum.
Qed.

Lemma constrained_sums_to_delta_witness :
  exists adj : list Qc,
    TwoPass.rebalanceWithoutNegativeRebalancing
      (finite [q 6000 1; q 5000 1; q 6000 1]) (finite [q 3 10; q 1 2; q 1 5])
      (Fin (q 10000 1))
    = Ok (finite adj)
    /\ sumQc adj = q 10000 1
    /\ kahanSum (finite adj) = Fin (q 10000 1).
Proof.
  apply (constrained_sums_to_delta [q 6000 1; q 5000 1; q 6000 1]
           [q 3 10; q 1 2; q 1 5] (q 10000 1)).
  - reflexivity.
  - qc_eval.
  - qc_eval.
  - qc_eval.
  - intros _. vm_compute. reflexivity.
Defined.

Section ClampedAssets.

Local Open Scope Qc_scope.



End ClampedAssets.



Section Liquidation.

Local Open Scope Qc_scope.

Lemma diffQ_liquidation (vs ts : list Qc) :
  length vs = length ts -> diffQ vs ts (- sumQc vs) = map Qcopp vs.
Proof.
  unfold diffQ. generalize (sumQc vs) as T. intros T. revert ts.
  induction vs as [|v vs IH]; intros [|t ts] Hlen; cbn in *; try discriminate.
  - reflexivity.
  - f_equal; [ring | apply IH; lia].
Qed.

Lemma clampQ_liquidation (T : Qc) (vs : list Qc) :
  0 < T -> Forall (fun v => 0 <= v) vs ->
  map (clampQ (- T)) (map Qcopp vs) = map Qcopp vs.
Proof.
  intros HT Hvs. rewrite map_map.
  induction Hvs as [|v vs Hv _ IH]; cbn; [reflexivity|].
  f_equal; [|exact IH].
  unfold clampQ.
  assert (HT' : - T <= 0) by (qc_to_q; lra).
  assert (Hv' : - v <= 0) by (qc_to_q; lra).
  now rewrite !Qcltb_false.
Qed.

Lemma sharesQ_liquidation (T : Qc) (vs : list Qc) :
  T <> 0 -> sumQc (map Qcopp vs) = - T ->
  sharesQ (map Qcopp vs) (- T) = map Qcopp vs.
Proof.
  intros HT Hsum. unfold sharesQ. rewrite Hsum.
  rewrite <- (map_id (map Qcopp vs)) at 2.
  apply map_ext. intro x. field.
  intro E. apply HT. rewrite <- (Qcopp_involutive T), E. reflexivity.
Qed.

End Liquidation.

(** C7.  Full liquidation.  With vectors of the same length, sums that are
    not negative and have a positive total [T], and targets between 0 and 1
    that sum to 1, the two-pass variant called with [sumToAdd = -T] returns,
    at every index, the opposite of the asset's sum. *)
Theorem full_liquidation (vs ts : list Qc) :
  length vs = length ts ->
  Forall (fun v => 0 <= v)%Qc vs ->
  (0 < sumQc vs)%Qc ->
  Forall (fun t => 0 <= t <= 1)%Qc ts ->
  sumQc ts = 1%Qc ->
  TwoPass.rebalanceWithoutNegativeRebalancing (finite vs) (finite ts)
    (Fin (- sumQc vs)%Qc)
  = Ok (finite (map Qcopp vs)).
Proof.
  intros Hlen Hvs Htotal _ _.
  pose proof (total_nonzero vs Htotal) as HT.
  assert (Hd : (- sumQc vs)%Qc <> 0%Qc).
  { intro E. apply HT. rewrite <- (Qcopp_involutive (sumQc vs)), E. reflexivity. }
  assert (Hc : clampedQ vs ts (- sumQc vs) = map Qcopp vs).
  { unfold clampedQ. rewrite diffQ_liquidation by assumption.
    now apply clampQ_liquidation. }
  rewrite twopass_finite; try assumption.
  - rewrite Hc, sharesQ_liquidation; auto using sumQc_opp.
  - now rewrite Hc, sumQc_opp.
Qed.

Lemma full_liquidation_witness :
  TwoPass.rebalanceWithoutNegativeRebalancing
    (finite [q 6000 1; q 5000 1; q 6000 1]) (finite [q 3 10; q 1 2; q 1 5])
    (Fin (- sumQc [q 6000 1; q 5000 1; q 6000 1])%Qc)
  = Ok (finite (map Qcopp [q 6000 1; q 5000 1; q 6000 1])).
Proof.
  apply (full_liquidation [q 6000 1; q 5000 1; q 6000 1] [q 3 10; q 1 2; q 1 5]).
  - reflexivity.
  - qc_eval.
  - qc_eval.
  - qc_eval.
  - qc_eval.
Defined.

(** ** Division by a zero total *)

Section ZeroTotal.

Local Open Scope Qc_scope.



Lemma length_diffInitial (sumsInitial allocTargets : list number) (sumToAdd : number) :
  length (TwoPass.diffInitial sumsInitial allocTargets sumToAdd)
  = length allocTargets.
Proof.
  unfold TwoPass.diffInitial, calculateAllocation, mapi.
  now rewrite length_mapi_from, length_map.
Qed.

Lemma length_clamped (sumsInitial allocTargets : list number) (sumToAdd : number) :
  length (TwoPass.sumFinalDividedDiffInitial sumsInitial allocTargets sumToAdd)
  = length allocTargets.
Proof.
  unfold TwoPass.sumFinalDividedDiffInitial.
  now rewrite length_map, length_diffInitial.
Qed.

Lemma shares_of_zeros (n : nat) (sumToAdd : number) :
  map (fun d => (d * sumToAdd)%js)
    (snd (calculateAllocation (finite (repeat 0 n))))
  = repeat NaN n.
Proof.
  unfold calculateAllocation. cbn [snd].
  rewrite kahanSum_finite, sumQc_repeat_zero.
  induction n as [|n IH]; cbn -[Num.div Num.mul]; [reflexivity|].
  change (map Fin (repeat (Q2Qc 0) n)) with (finite (repeat (Q2Qc 0) n)).
  apply (f_equal2 cons); [rewrite div_zero_zero; apply mul_NaN_l | exact IH].
Qed.

(** A sum that is positive has a positive term, and dually. *)
Lemma sumQc_pos_inv (l : list Qc) : 0 < sumQc l -> Exists (fun x => 0 < x) l.
Proof.
  induction l as [|x l IH]; cbn; intro H.
  - destruct (Qclt_irrefl _ H).
  - destruct (Qclt_le_dec 0 x) as [Hx|Hx]; [now left|].
    right. apply IH. qc_to_q. lra.
Qed.

Lemma sumQc_neg_inv (l : list Qc) : sumQc l < 0 -> Exists (fun x => x < 0) l.
Proof.
  induction l as [|x l IH]; cbn; intro H.
  - destruct (Qclt_irrefl _ H).
  - destruct (Qclt_le_dec x 0) as [Hx|Hx]; [now left|].
    right. apply IH. qc_to_q. lra.
Qed.

Lemma sumQc_diffQ (vs ts : list Qc) (d : Qc) :
  length vs = length ts ->
  sumQc (diffQ vs ts d) = sumQc ts * (sumQc vs + d) - sumQc vs.
Proof.
  unfold diffQ. generalize (sumQc vs + d) as F. intro F. revert ts.
  induction vs as [|v vs IH]; intros [|t ts] Hlen; cbn in *; try discriminate.
  - ring.
  - rewrite IH by lia. ring.
Qed.

(** When the targets sum to 1 the differences sum to [sumToAdd], so one of
    them agrees in sign with it: a valid input is never degenerate. *)
Lemma valid_input_not_degenerate (vs ts : list Qc) (d : Qc) :
  length vs = length ts -> 0 < sumQc vs -> sumQc ts = 1 -> d <> 0 ->
  existsb (agrees_in_sign (Fin d))
    (TwoPass.diffInitial (finite vs) (finite ts) (Fin d)) = true.
Proof.
  intros Hlen Htotal Hts Hd.
  rewrite (diffInitial_finite vs ts d Hlen (total_nonzero vs Htotal)).
  assert (Hsum : sumQc (diffQ vs ts d) = d).
  { rewrite sumQc_diffQ, Hts by assumption. ring. }
  apply existsb_exists.
  destruct (Qc_nonzero_cases d Hd) as [Hd'|Hd'].
  - assert (Hex : Exists (fun x => 0 < x) (diffQ vs ts d))
      by (apply sumQc_pos_inv; now rewrite Hsum).
    apply Exists_exists in Hex as [x [Hin Hx]].
    exists (Fin x). split; [now apply in_map|].
    unfold agrees_in_sign. cbn -[Num.Qcltb].
    rewrite (Qcltb_true 0 d), (Qcltb_true 0 x) by assumption.
    reflexivity.
  - assert (Hex : Exists (fun x => x < 0) (diffQ vs ts d))
      by (apply sumQc_neg_inv; now rewrite Hsum).
    apply Exists_exists in Hex as [x [Hin Hx]].
    exists (Fin x). split; [now apply in_map|].
    unfold agrees_in_sign. cbn -[Num.Qcltb].
    rewrite (Qcltb_true d 0), (Qcltb_true x 0) by assumption.
    apply orb_true_r.
Qed.

End ZeroTotal.







(** ** The iterative variant: the loop ends *)

Section IterativeLoop.

Import Iterative.
Local Open Scope js_scope.

Lemma length_set_at (arr : list number) (i : nat) (x : number) :
  length (set_at arr i x) = length arr.
Proof.
  revert i. induction arr as [|y arr IH]; intros [|i]; cbn; auto.
Qed.

(** A write inside the array is read back; a read past the end is [NaN]. *)
Lemma get_set_at (arr : list number) (i : nat) (x : number) :
  get (set_at arr i x) i = x \/ get arr i = NaN.
Proof.
  unfold get. revert i. induction arr as [|y arr IH]; intros [|i]; cbn; auto.
Qed.

Lemma length_set_delete_le (i : nat) (s : list nat) :
  (length (set_delete i s) <= length s)%nat.
Proof. apply filter_length_le. Qed.

Lemma length_set_delete_lt (i : nat) (s : list nat) :
  In i s -> (length (set_delete i s) < length s)%nat.
Proof.
  unfold set_delete. induction s as [|j s IH]; intros Hin; [destruct Hin|].
  cbn. destruct (Nat.eqb_spec j i) as [->|Hne]; cbn.
  - pose proof (filter_length_le (fun j => negb (Nat.eqb j i)) s). lia.
  - destruct Hin as [->|Hin]; [congruence|]. apply IH in Hin. lia.
Qed.

Lemma geb_zero_not_ltb (r : number) : (r >=? 0) = true -> (r <? 0) = false.
Proof.
  destruct r as [x| | |]; cbn; try reflexivity; try discriminate.
  intro H. destruct (Qcleb_spec 0 x) as [Hx|]; [|discriminate].
  now apply Qcltb_false.
Qed.

(** What a turn of the [for] loop does to the set and to the remaining sum:
    it deletes the index it visits, or it leaves the set as it was and
    subtracts the single redistribution, or the remaining sum is [NaN]. *)
Lemma redistribute_cases (single : number) (i : nat) (st : state) :
  let st' := redistribute single i st in
  indexesRedistribution st' = set_delete i (indexesRedistribution st)
  \/ (indexesRedistribution st' = indexesRedistribution st
      /\ (reimainingToDistribute st' = reimainingToDistribute st - single
          \/ reimainingToDistribute st' = NaN)).
Proof.
  unfold redistribute.
  destruct (get (sumDivided st) i + single >=? 0) eqn:Heff;
    cbn [sumDivided indexesRedistribution reimainingToDistribute].
  - match goal with |- context [if ?c then _ else _] => destruct c end;
      cbn [sumDivided indexesRedistribution reimainingToDistribute]; auto.
  - destruct (get_set_at (sumDivided st) i 0) as [Hget|Hget].
    + rewrite Hget. cbn. now left.
    + match goal with |- context [if ?c then _ else _] => destruct c end;
        cbn [sumDivided indexesRedistribution reimainingToDistribute]; auto.
      right. split; [reflexivity|]. right.
      rewrite Hget.
      destruct single, (reimainingToDistribute st); reflexivity.
Qed.

Lemma iter_sub_NaN (n : nat) (s : number) : iter_sub n NaN s = NaN.
Proof. induction n as [|n IH]; cbn; [reflexivity | now rewrite IH]. Qed.

Lemma forLoop_length_le (single : number) (todo : list nat) (st : state) :
  (length (indexesRedistribution (forLoop single todo st))
   <= length (indexesRedistribution st))%nat.
Proof.
  revert st. induction todo as [|i todo IH]; intro st; cbn [forLoop]; [lia|].
  assert (H : (length (indexesRedistribution (redistribute single i st))
               <= length (indexesRedistribution st))%nat).
  { destruct (redistribute_cases single i st) as [E|[E _]]; rewrite E;
      [apply length_set_delete_le | lia]. }
  destruct (reimainingToDistribute (redistribute single i st) >=? 0); [exact H|].
  specialize (IH (redistribute single i st)). lia.
Qed.

(** The [for] loop, started on [todo] after [k] turns that deleted nothing:
    it deletes an index, or breaks, or ends with the set as it was and with
    a remaining sum that is [NaN] or the initial one minus a single
    redistribution for each turn. *)
Lemma forLoop_progress (single r0 : number) (todo : list nat) :
  forall (k : nat) (st : state),
    incl todo (indexesRedistribution st) ->
    reimainingToDistribute st = NaN
    \/ reimainingToDistribute st = iter_sub k r0 single ->
    let st' := forLoop single todo st in
    (length (indexesRedistribution st') < length (indexesRedistribution st))%nat
    \/ (reimainingToDistribute st' >=? 0) = true
    \/ (reimainingToDistribute st' = NaN
        \/ reimainingToDistribute st' = iter_sub (k + length todo) r0 single).
Proof.
  induction todo as [|i todo IH]; intros k st Hincl Hrem; cbn [forLoop length].
  - right. right. now rewrite Nat.add_0_r.
  - destruct (redistribute_cases single i st) as [Hdel|[Hsame Hsub]].
    + left.
      assert (Hlt : (length (indexesRedistribution (redistribute single i st))
                     < length (indexesRedistribution st))%nat).
      { rewrite Hdel. apply length_set_delete_lt. apply Hincl. now left. }
      destruct (reimainingToDistribute (redistribute single i st) >=? 0);
        [exact Hlt|].
      pose proof (forLoop_length_le single todo (redistribute single i st)). lia.
    + destruct (reimainingToDistribute (redistribute single i st) >=? 0) eqn:Hbreak;
        [now (right; left)|].
      assert (Hrem' : reimainingToDistribute (redistribute single i st) = NaN
                      \/ reimainingToDistribute (redistribute single i st)
                         = iter_sub (S k) r0 single).
      { destruct Hsub as [Hsub|Hsub]; [|now left].
        rewrite Hsub. destruct Hrem as [Hrem|Hrem]; rewrite Hrem.
        - left. now destruct single.
        - now right. }
      assert (Hincl' : incl todo (indexesRedistribution (redistribute single i st))).
      { rewrite Hsame. intros j Hj. apply Hincl. now right. }
      specialize (IH (S k) _ Hincl' Hrem'). cbn zeta in IH.
      rewrite Hsame in IH.
      replace (k + S (length todo))%nat with (S k + length todo)%nat by lia.
      exact IH.
Qed.

End IterativeLoop.

Section IterativeTermination.

Import Iterative.
Local Open Scope js_scope.

Lemma of_nat_succ (n : nat) :
  Q2Qc (inject_Z (Z.of_nat (S n))) = (Q2Qc (inject_Z (Z.of_nat n)) + 1)%Qc.
Proof.
  apply Qc_is_canon. unfold Qcplus. cbn [this Q2Qc]. rewrite !Qred_correct.
  rewrite Nat2Z.inj_succ. unfold Z.succ. rewrite inject_Z_plus. reflexivity.
Qed.

Lemma of_nat_nonneg (n : nat) : (0 <= Q2Qc (inject_Z (Z.of_nat n)))%Qc.
Proof.
  unfold Qcle. cbn [this Q2Qc]. rewrite !Qred_correct.
  unfold Qle. cbn. lia.
Qed.

Lemma iter_sub_fin (n : nat) (r s : Qc) :
  iter_sub n (Fin r) (Fin s) = Fin (r - Q2Qc (inject_Z (Z.of_nat n)) * s)%Qc.
Proof.
  induction n as [|n IH].
  - cbn [iter_sub]. f_equal.
    change (Q2Qc (inject_Z (Z.of_nat 0))) with 0%Qc. ring.
  - cbn [iter_sub]. rewrite IH, of_nat_succ.
    cbn [Num.sub Num.add Num.neg]. f_equal. ring.
Qed.

Lemma iter_sub_NInf (n : nat) : iter_sub (S n) NInf NInf = NaN.
Proof. induction n as [|n IH]; [reflexivity|]. cbn [iter_sub] in *. now rewrite IH. Qed.

(** After as many single redistributions as there are indexes, nothing
    remains to distribute. *)
Lemma iter_sub_all (n : nat) (r : number) :
  (0 < n)%nat -> (r <? 0) = true ->
  (iter_sub n r (r / Num.of_nat n) <? 0) = false.
Proof.
  intros Hn Hr. unfold Num.of_nat.
  pose proof (of_nat_nonzero n Hn) as Hnz.
  destruct r as [x| | |]; try discriminate.
  - rewrite div_fin by assumption. rewrite iter_sub_fin.
    replace (x - Q2Qc (inject_Z (Z.of_nat n)) * (x / Q2Qc (inject_Z (Z.of_nat n))))%Qc
      with 0%Qc by (now field).
    reflexivity.
  - unfold Num.div. rewrite (Qcltb_false _ _ (of_nat_nonneg n)).
    destruct n as [|n]; [lia|]. now rewrite iter_sub_NInf.
Qed.

Lemma continues_inv (st : state) :
  continues st = true ->
  (reimainingToDistribute st <? 0) = true
  /\ (0 < length (indexesRedistribution st))%nat.
Proof.
  unfold continues. intro H. apply andb_prop in H as [H1 H2].
  split; [assumption | now apply Nat.ltb_lt].
Qed.

(** One pass of the [while] loop deletes an index or makes its test fail. *)
Lemma pass_progress (st : state) :
  continues st = true ->
  (length (indexesRedistribution (pass st)) < length (indexesRedistribution st))%nat
  \/ continues (pass st) = false.
Proof.
  intro Hc. apply continues_inv in Hc as [Hneg Hsize].
  pose proof (forLoop_progress
                (reimainingToDistribute st
                 / Num.of_nat (length (indexesRedistribution st)))
                (reimainingToDistribute st)
                (indexesRedistribution st) 0 st
                (incl_refl _) (or_intror eq_refl)) as H.
  cbn zeta in H. fold (pass st) in H.
  destruct H as [H|[H|[H|H]]]; [now left| right; unfold continues ..].
  - now rewrite (geb_zero_not_ltb _ H).
  - now rewrite H.
  - rewrite H. cbn [Nat.add]. now rewrite iter_sub_all.
Qed.

Lemma whileLoop_stops (fuel : nat) (st : state) :
  continues st = false -> whileLoop fuel st = Some st.
Proof. intro H. destruct fuel; cbn; now rewrite H. Qed.

Lemma whileLoop_terminates (fuel : nat) :
  forall st : state,
    (length (indexesRedistribution st) < fuel)%nat ->
    exists st', whileLoop fuel st = Some st'.
Proof.
  induction fuel as [|fuel IH]; intros st Hfuel; [lia|].
  cbn [whileLoop]. destruct (continues st) eqn:Hc; [|now exists st].
  destruct (pass_progress st Hc) as [Hlt|Hstop].
  - apply IH. lia.
  - exists (pass st). now apply whileLoop_stops.
Qed.



End IterativeTermination.



(** ** The iterative variant when no difference is negative *)

Section IterativeSubdivision.

Import Iterative.
Local Open Scope js_scope.

Variables (sumInitial : number) (allocInitial : list number) (sumToAdd : number).

Lemma set_at_app (pre rest : list number) (x y : number) :
  set_at (pre ++ x :: rest) (length pre) y = pre ++ y :: rest.
Proof. induction pre as [|z pre IH]; cbn; [reflexivity | now rewrite IH]. Qed.

Lemma subdivide_sumDivided (k : nat) (value : number) (st : state) :
  sumDivided (subdivide sumInitial allocInitial sumToAdd k value st)
  = set_at (sumDivided st) k
      (positivePart (sumToAddSuddivision sumInitial allocInitial sumToAdd k value)).
Proof.
  unfold subdivide, positivePart, sumToAddSuddivision.
  now match goal with |- context [if ?c then _ else _] => destruct c end.
Qed.

(** The [forEach] fills [sumDivided], from left to right, with the positive
    parts of the subdivisions. *)
Lemma forEach_from_sumDivided (arr : list number) :
  forall (pre : list number) (idx : list nat) (rem : number),
    sumDivided
      (forEach_from (length pre) (subdivide sumInitial allocInitial sumToAdd) arr
         (mkState (pre ++ repeat NaN (length arr)) idx rem))
    = pre ++ map positivePart
               (mapi_from (length pre)
                  (sumToAddSuddivision sumInitial allocInitial sumToAdd) arr).
Proof.
  induction arr as [|value arr IH]; intros pre idx rem.
  - reflexivity.
  - cbn [forEach_from mapi_from map length].
    remember (subdivide sumInitial allocInitial sumToAdd (length pre) value
                (mkState (pre ++ repeat NaN (S (length arr))) idx rem)) as st eqn:Est.
    assert (Hsd : sumDivided st
                  = (pre ++ [positivePart
                               (sumToAddSuddivision sumInitial allocInitial sumToAdd
                                  (length pre) value)])
                    ++ repeat NaN (length arr)).
    { rewrite Est, subdivide_sumDivided. cbn [sumDivided].
      change (repeat NaN (S (length arr))) with (NaN :: repeat NaN (length arr)).
      now rewrite set_at_app, <- app_assoc. }
    destruct st as [sd idx' rem']. cbn [sumDivided] in Hsd. subst sd.
    replace (S (length pre))
      with (length (pre ++ [positivePart
                              (sumToAddSuddivision sumInitial allocInitial sumToAdd
                                 (length pre) value)]))
      by (rewrite length_app; cbn; lia).
    rewrite IH, <- app_assoc. reflexivity.
Qed.

Lemma subdivision_sumDivided (allocTargets : list number) :
  sumDivided (subdivision sumInitial allocInitial allocTargets sumToAdd)
  = map positivePart
      (mapi (sumToAddSuddivision sumInitial allocInitial sumToAdd) allocTargets).
Proof.
  unfold subdivision. apply (forEach_from_sumDivided allocTargets [] [] 0).
Qed.

(** Subdivisions that are finite and not negative leave the sum of the
    negative rebalancings at zero. *)
Lemma forEach_from_nothing_negative (arr : list number) :
  forall (k : nat) (st : state),
    Forall (fun s => exists x, s = Fin x /\ (0 <= x)%Qc)
      (mapi_from k (sumToAddSuddivision sumInitial allocInitial sumToAdd) arr) ->
    reimainingToDistribute st = Fin 0%Qc ->
    reimainingToDistribute
      (forEach_from k (subdivide sumInitial allocInitial sumToAdd) arr st)
    = Fin 0%Qc.
Proof.
  induction arr as [|value arr IH]; intros k st Hall Hrem; [exact Hrem|].
  cbn [forEach_from mapi_from] in *. inversion Hall as [|? ? [x [Hx Hpos]] Hall']; subst.
  apply IH; [assumption|].
  unfold subdivide.
  change ((value - get allocInitial k) * sumInitial + value * sumToAdd)
    with (sumToAddSuddivision sumInitial allocInitial sumToAdd k value).
  rewrite Hx. cbn [Num.leb Num.zero].
  destruct (Qcleb_spec x 0) as [Hle|_]; cbn [reimainingToDistribute]; [|exact Hrem].
  rewrite Hrem, (Qcle_antisym _ _ Hle Hpos). reflexivity.
Qed.

End IterativeSubdivision.

Section NoNegativeDifference.

Local Open Scope Qc_scope.

Lemma subdivisions_finite (T : Qc) (cur ts : list Qc) (d : Qc) :
  length cur = length ts ->
  mapi (sumToAddSuddivision (Fin T) (finite cur) (Fin d)) (finite ts)
  = finite (rebalanceQ T cur ts d).
Proof.
  intro Hlen. unfold rebalanceQ.
  rewrite (mapi_zipWith _
             (fun value a => ((value - a) * Fin T + value * Fin d)%js)
             (finite ts) (finite cur)).
  - now apply zipWith_finite.
  - reflexivity.
  - now rewrite !length_finite.
Qed.

Lemma positivePart_nonneg (l : list Qc) :
  Forall (fun x => 0 <= x) l -> map positivePart (finite l) = finite l.
Proof.
  induction 1 as [|x l Hx _ IH]; cbn [finite map] in *; [reflexivity|].
  f_equal; [|exact IH].
  unfold positivePart. cbn [Num.leb Num.zero].
  destruct (Qcleb_spec x 0) as [Hle|_]; [|reflexivity].
  now rewrite (Qcle_antisym _ _ Hle Hx).
Qed.

Lemma iterative_no_negative (fuel : nat) (T : Qc) (cur ts : list Qc) (d : Qc) :
  length cur = length ts ->
  Forall (fun x => 0 <= x) (rebalanceQ T cur ts d) ->
  Iterative.rebalanceWithoutNegativeRebalancing fuel (Fin T) (finite cur)
    (finite ts) (Fin d)
  = Some (finite (rebalanceQ T cur ts d)).
Proof.
  intros Hlen Hall. unfold Iterative.rebalanceWithoutNegativeRebalancing.
  assert (Hrem : Iterative.reimainingToDistribute
                   (Iterative.subdivision (Fin T) (finite cur) (finite ts) (Fin d))
                 = Fin 0).
  { unfold Iterative.subdivision. apply forEach_from_nothing_negative; [|reflexivity].
    fold (mapi (sumToAddSuddivision (Fin T) (finite cur) (Fin d)) (finite ts)).
    rewrite subdivisions_finite by assumption.
    apply Forall_map. revert Hall. apply Forall_impl. intros x Hx. now exists x. }
  rewrite Hrem. cbn [Num.ltb Num.zero]. rewrite Qcltb_false by apply Qcle_refl.
  rewrite subdivision_sumDivided, subdivisions_finite by assumption.
  now rewrite positivePart_nonneg.
Qed.

Lemma rebalanceQ_diffQ (vs ts : list Qc) (d : Qc) :
  sumQc vs <> 0 ->
  rebalanceQ (sumQc vs) (map (fun v => v / sumQc vs) vs) ts d = diffQ vs ts d.
Proof.
  intro HT. unfold rebalanceQ, diffQ. rewrite zipWith_map_r.
  apply zipWith_ext. intros t v. now field.
Qed.

Lemma clampQ_nonneg (d : Qc) (l : list Qc) :
  0 < d -> Forall (fun x => 0 <= x) l -> map (clampQ d) l = l.
Proof.
  intros Hd Hall. induction Hall as [|x l Hx _ IH]; cbn; [reflexivity|].
  f_equal; [|exact IH].
  unfold clampQ. now rewrite (Qcltb_true _ _ Hd), (Qcltb_false _ _ Hx).
Qed.

Lemma twopass_no_negative (vs ts : list Qc) (d : Qc) :
  length vs = length ts -> 0 < sumQc vs -> sumQc ts = 1 -> 0 < d ->
  Forall (fun x => 0 <= x) (diffQ vs ts d) ->
  TwoPass.rebalanceWithoutNegativeRebalancing (finite vs) (finite ts) (Fin d)
  = Ok (finite (diffQ vs ts d)).
Proof.
  intros Hlen Htotal Hts Hd Hall.
  assert (Hd' : d <> 0) by (apply Qclt_nonzero; now left).
  assert (Hc : clampedQ vs ts d = diffQ vs ts d)
    by (unfold clampedQ; now apply clampQ_nonneg).
  assert (Hsum : sumQc (diffQ vs ts d) = d).
  { rewrite sumQc_diffQ, Hts by assumption. ring. }
  rewrite twopass_finite; auto using total_nonzero.
  - rewrite Hc. unfold sharesQ. rewrite Hsum. do 2 f_equal.
    rewrite <- (map_id (diffQ vs ts d)) at 2.
    apply map_ext. intro x. now field.
  - now rewrite Hc, Hsum.
Qed.

Lemma not_negative_finite (l : list Qc) :
  Forall (fun x => (x <? 0)%js = false) (finite l) -> Forall (fun x => 0 <= x) l.
Proof.
  intro H. apply Forall_map in H. revert H. apply Forall_impl.
  intros x Hx. cbn in Hx. destruct (Qcltb_spec x 0) as [|Hn]; [discriminate|].
  now apply Qcnot_lt_le.
Qed.

End NoNegativeDifference.

(** ** The iterative variant when the positive differences are equal *)

Section EqualPositiveDifferences.

Import Iterative.
Local Open Scope Qc_scope.

Local Abbreviation natQ n := (Q2Qc (inject_Z (Z.of_nat n))).

Lemma Qcleb_true (a b : Qc) : a <= b -> Num.Qcleb a b = true.
Proof. intro H. destruct (Qcleb_spec a b); [reflexivity | contradiction]. Qed.

Lemma Qcleb_false (a b : Qc) : b < a -> Num.Qcleb a b = false.
Proof.
  intro H. destruct (Qcleb_spec a b) as [Hle|]; [|reflexivity].
  destruct (Qcle_not_lt _ _ Hle H).
Qed.

Lemma Qcleb_false_inv (a b : Qc) : Num.Qcleb a b = false -> b < a.
Proof.
  intro H. destruct (Qcleb_spec a b) as [|Hn]; [discriminate|].
  now apply Qcnot_le_lt.
Qed.

Lemma Qcmult_pos (a b : Qc) : 0 < a -> 0 < b -> 0 < a * b.
Proof. intros Ha Hb. qc_to_q. now apply Qmult_lt_0_compat. Qed.

Lemma Qcmult_pos_neg (a b : Qc) : 0 < a -> b < 0 -> a * b < 0.
Proof.
  intros Ha Hb. apply Qcopp_pos in Hb.
  pose proof (Qcmult_pos _ _ Ha Hb) as H.
  replace (a * - b) with (- (a * b)) in H by ring.
  qc_to_q. lra.
Qed.

Lemma of_nat_pos (n : nat) : (0 < n)%nat -> 0 < natQ n.
Proof.
  intro Hn. destruct (Qcle_lt_or_eq _ _ (of_nat_nonneg n)) as [H|H]; [exact H|].
  symmetry in H. destruct (of_nat_nonzero n Hn H).
Qed.

Lemma positivePart_fin (x : Qc) : positivePart (Fin x) = Fin (positivePartQ x).
Proof. unfold positivePart, positivePartQ. cbn. now destruct (Num.Qcleb x (Q2Qc 0)). Qed.

Lemma length_positions_from (l : list Qc) (k k' : nat) :
  length (positions_from k l) = length (positions_from k' l).
Proof.
  revert k k'. induction l as [|x l IH]; intros k k'; cbn; [reflexivity|].
  destruct (Num.Qcleb x 0); cbn; auto.
Qed.

Lemma no_positions (s : Qc) (l : list Qc) (k : nat) :
  positions_from k l = [] -> map positivePartQ l = map (evenShare s) l.
Proof.
  revert k. induction l as [|x l IH]; intros k H; cbn in *; [reflexivity|].
  unfold positivePartQ at 1, evenShare at 1.
  destruct (Num.Qcleb x 0); [|discriminate].
  f_equal. now apply (IH (S k)).
Qed.

Lemma get_app_length (pre rest : list number) (x : number) :
  get (pre ++ x :: rest) (length pre) = x.
Proof. unfold get. now rewrite app_nth2, Nat.sub_diag by lia. Qed.

Lemma set_add_fresh (k : nat) (s : list nat) :
  (forall j, In j s -> (j < k)%nat) -> set_add k s = s ++ [k].
Proof.
  intro H. unfold set_add.
  destruct (existsb (Nat.eqb k) s) eqn:E; [|reflexivity].
  apply existsb_exists in E as [j [Hin Hj]]. apply Nat.eqb_eq in Hj. subst j.
  apply H in Hin. lia.
Qed.

Lemma subdivide_fin (sumInitial : number) (allocInitial : list number)
    (sumToAdd : number) (k : nat) (value : number) (sd : list number)
    (idx : list nat) (a x : Qc) :
  sumToAddSuddivision sumInitial allocInitial sumToAdd k value = Fin x ->
  subdivide sumInitial allocInitial sumToAdd k value (mkState sd idx (Fin a))
  = if Num.Qcleb x 0 then mkState (set_at sd k 0%js) idx (Fin (a + x))
    else mkState (set_at sd k (Fin x)) (set_add k idx) (Fin a).
Proof.
  intro Hx. unfold subdivide.
  change ((value - get allocInitial k) * sumInitial + value * sumToAdd)%js
    with (sumToAddSuddivision sumInitial allocInitial sumToAdd k value).
  rewrite Hx. cbn [Num.leb Num.zero]. now destruct (Num.Qcleb x (Q2Qc 0)).
Qed.

(** The set and the sum of the negative rebalancings after the [forEach]. *)
Lemma forEach_from_finite (sumInitial : number) (allocInitial : list number)
    (sumToAdd : number) (arr : list number) :
  forall (l : list Qc) (k : nat) (sd : list number) (idx : list nat) (a : Qc),
    mapi_from k (sumToAddSuddivision sumInitial allocInitial sumToAdd) arr = finite l ->
    (forall j, In j idx -> (j < k)%nat) ->
    let st' := forEach_from k (subdivide sumInitial allocInitial sumToAdd) arr
                 (mkState sd idx (Fin a)) in
    indexesRedistribution st' = idx ++ positions_from k l
    /\ reimainingToDistribute st' = Fin (a + nonPositiveSum l).
Proof.
  induction arr as [|value arr IH]; intros [|x l] k sd idx a Hmap Hidx;
    cbn [mapi_from finite map] in Hmap; try discriminate.
  - cbn. split; [now rewrite app_nil_r | f_equal; unfold nonPositiveSum; cbn; ring].
  - injection Hmap as Hx Hmap. cbn [forEach_from positions_from].
    rewrite (subdivide_fin _ _ _ k value sd idx a x Hx).
    unfold nonPositiveSum. cbn [filter].
    destruct (Num.Qcleb x 0) eqn:Hle.
    + destruct (IH l (S k) (set_at sd k 0%js) idx (a + x) Hmap) as [H1 H2].
      { intros j Hj. apply Hidx in Hj. lia. }
      split; [exact H1|]. rewrite H2. f_equal. unfold nonPositiveSum. cbn. ring.
    + rewrite (set_add_fresh k idx Hidx).
      destruct (IH l (S k) (set_at sd k (Fin x)) (idx ++ [k]) a Hmap) as [H1 H2].
      { intros j Hj. apply in_app_or in Hj as [Hj|[<-|[]]]; [apply Hidx in Hj|]; lia. }
      split; [|exact H2]. now rewrite H1, <- app_assoc.
Qed.

(** The [for] loop when every index of the set holds the same sum [p] and
    the single redistribution [s] leaves it positive: every index gets
    [p + s], none is deleted, and the loop breaks at the last index with
    nothing left to distribute. *)
Lemma forLoop_equal_positive (p s : Qc) (idx : list nat) :
  s < 0 -> 0 < p + s ->
  forall (l : list Qc) (pre : list number) (r : Qc),
    (forall x, In x l -> Num.Qcleb x 0 = false -> x = p) ->
    r = natQ (length (positions_from (length pre) l)) * s ->
    forLoop (Fin s) (positions_from (length pre) l)
      (mkState (pre ++ finite (map positivePartQ l)) idx (Fin r))
    = mkState (pre ++ finite (map (evenShare s) l)) idx (Fin 0).
Proof.
  intros Hs Hps. induction l as [|x l IH]; intros pre r Hall Hr.
  - cbn in *. subst r. do 2 f_equal.
    change (Q2Qc (inject_Z 0)) with 0. ring.
  - cbn [positions_from map finite] in *.
    unfold positivePartQ at 1, evenShare at 1.
    assert (Hall' : forall y, In y l -> Num.Qcleb y 0 = false -> y = p)
      by (intros y Hy; apply Hall; now right).
    destruct (Num.Qcleb x 0) eqn:Hle.
    + specialize (IH (pre ++ [Fin 0]) r Hall').
      rewrite length_app, Nat.add_1_r, <- !app_assoc in IH. apply IH.
      rewrite Hr. reflexivity.
    + pose proof (Hall x (or_introl eq_refl) Hle) as Hx. subst x.
      cbn [forLoop length] in *.
      unfold redistribute.
      cbn [sumDivided indexesRedistribution reimainingToDistribute].
      rewrite get_app_length. cbn [Num.add Num.geb Num.leb Num.zero].
      rewrite (Qcleb_true 0 (p + s)) by now apply Qclt_le_weak.
      cbn [sumDivided indexesRedistribution reimainingToDistribute].
      rewrite set_at_app, get_app_length. cbn [Num.leb Num.zero].
      rewrite (Qcleb_false (p + s) 0) by assumption.
      cbn [sumDivided indexesRedistribution reimainingToDistribute Num.sub Num.add Num.neg].
      rewrite of_nat_succ in Hr.
      remember (length (positions_from (S (length pre)) l)) as c eqn:Ec.
      assert (Hr' : r + - s = natQ c * s) by (rewrite Hr; ring).
      rewrite Hr'.
      destruct c as [|c].
      * change (natQ 0) with 0. replace (0 * s) with 0 by ring.
        cbn [Num.geb Num.leb Num.zero]. rewrite (Qcleb_true 0 0) by apply Qcle_refl.
        symmetry in Ec. apply length_zero_iff_nil in Ec.
        now rewrite (no_positions s l _ Ec).
      * cbn [Num.geb Num.leb Num.zero].
        rewrite Qcleb_false
          by (apply Qcmult_pos_neg; [apply of_nat_pos; lia | assumption]).
        specialize (IH (pre ++ [Fin (p + s)]) (natQ (S c) * s) Hall').
        rewrite length_app, Nat.add_1_r, <- !app_assoc in IH. apply IH.
        now rewrite Ec.
Qed.


Lemma state_eta (st : state) :
  st = mkState (sumDivided st) (indexesRedistribution st) (reimainingToDistribute st).
Proof. now destruct st. Qed.

Lemma sumQc_parts (l : list Qc) :
  sumQc l = sumQc (map positivePartQ l) + nonPositiveSum l.
Proof.
  unfold nonPositiveSum. induction l as [|x l IH]; cbn; [ring|].
  unfold positivePartQ at 1. destruct (Num.Qcleb x 0); cbn; rewrite IH; ring.
Qed.

Lemma sumQc_equal_positive (p : Qc) (l : list Qc) (k : nat) :
  (forall x, In x l -> Num.Qcleb x 0 = false -> x = p) ->
  sumQc (map positivePartQ l) = natQ (length (positions_from k l)) * p.
Proof.
  revert k. induction l as [|x l IH]; intros k Hall.
  - cbn. change (Q2Qc (inject_Z 0)) with 0. ring.
  - cbn [map sumQc positions_from]. unfold positivePartQ at 1.
    assert (Hall' : forall y, In y l -> Num.Qcleb y 0 = false -> y = p)
      by (intros y Hy; apply Hall; now right).
    destruct (Num.Qcleb x 0) eqn:Hle.
    + rewrite (IH (S k) Hall'). ring.
    + rewrite (Hall x (or_introl eq_refl) Hle).
      cbn [length]. rewrite of_nat_succ, (IH (S k) Hall'). ring.
Qed.

Lemma clampQ_positivePartQ (d x : Qc) : 0 < d -> clampQ d x = positivePartQ x.
Proof.
  intro Hd. unfold clampQ, positivePartQ. rewrite (Qcltb_true _ _ Hd).
  destruct (Qcltb_spec x 0) as [Hx|Hx].
  - now rewrite Qcleb_true by now apply Qclt_le_weak.
  - apply Qcnot_lt_le in Hx. destruct (Qcleb_spec x 0) as [Hle|]; [|reflexivity].
    now apply Qcle_antisym.
Qed.

(** The sum that each positive index gets: [p + r / k] is [d / k]. *)
Lemma even_share_positive (p r : Qc) (k : nat) :
  (0 < k)%nat -> 0 < natQ k * p + r -> 0 < p + r / natQ k.
Proof.
  intros Hk Hd.
  replace (p + r / natQ k) with ((natQ k * p + r) * / natQ k)
    by (field; now apply of_nat_nonzero).
  apply Qcmult_pos; [assumption|]. now apply Qcinv_pos, of_nat_pos.
Qed.

Lemma single_negative (r : Qc) (k : nat) : (0 < k)%nat -> r < 0 -> r / natQ k < 0.
Proof.
  intros Hk Hr. unfold Qcdiv. rewrite Qcmult_comm.
  apply Qcmult_pos_neg; [|assumption]. now apply Qcinv_pos, of_nat_pos.
Qed.

Lemma iterative_equal_positive (fuel : nat) (T : Qc) (cur ts : list Qc) (d p : Qc) :
  length cur = length ts ->
  (0 < fuel)%nat ->
  (forall x, In x (rebalanceQ T cur ts d) -> Num.Qcleb x 0 = false -> x = p) ->
  nonPositiveSum (rebalanceQ T cur ts d) < 0 ->
  0 < sumQc (rebalanceQ T cur ts d) ->
  Iterative.rebalanceWithoutNegativeRebalancing fuel (Fin T) (finite cur)
    (finite ts) (Fin d)
  = Some (finite (map (evenShare
                         (nonPositiveSum (rebalanceQ T cur ts d)
                          / natQ (length (positions_from 0 (rebalanceQ T cur ts d)))))
                    (rebalanceQ T cur ts d))).
Proof.
  intros Hlen Hfuel Hall Hr Hsum.
  set (l := rebalanceQ T cur ts d) in *.
  set (r := nonPositiveSum l) in *.
  set (k := length (positions_from 0 l)).
  assert (Hk : (0 < k)%nat).
  { destruct k as [|k'] eqn:Ek; [|lia]. exfalso.
    rewrite sumQc_parts, (sumQc_equal_positive p l 0 Hall) in Hsum.
    fold k in Hsum. rewrite Ek in Hsum.
    change (Q2Qc (inject_Z (Z.of_nat 0))) with 0 in Hsum.
    fold r in Hsum. replace (0 * p + r) with r in Hsum by ring.
    exact (Qclt_asym _ _ Hr Hsum). }
  assert (Hd : 0 < natQ k * p + r).
  { unfold k, r. rewrite <- (sumQc_equal_positive p l 0 Hall), <- sumQc_parts.
    exact Hsum. }
  pose proof (subdivision_sumDivided (Fin T) (finite cur) (Fin d) (finite ts)) as Hsd.
  rewrite subdivisions_finite in Hsd by assumption. fold l in Hsd.
  rewrite (map_finite positivePart positivePartQ l positivePart_fin) in Hsd.
  assert (Hst : indexesRedistribution
                  (subdivision (Fin T) (finite cur) (finite ts) (Fin d))
                = [] ++ positions_from 0 l
                /\ reimainingToDistribute
                     (subdivision (Fin T) (finite cur) (finite ts) (Fin d))
                   = Fin (0 + nonPositiveSum l)).
  { apply (forEach_from_finite (Fin T) (finite cur) (Fin d) (finite ts) l 0
             (repeat NaN (length (finite ts))) [] 0).
    - apply (subdivisions_finite T cur ts d Hlen).
    - intros j []. }
  destruct Hst as [Hidx Hrem]. cbn [app] in Hidx.
  fold r in Hrem. replace (0 + r) with r in Hrem by ring.
  unfold Iterative.rebalanceWithoutNegativeRebalancing.
  rewrite (state_eta (subdivision (Fin T) (finite cur) (finite ts) (Fin d))).
  rewrite Hsd, Hidx, Hrem. cbn [reimainingToDistribute Num.ltb Num.zero].
  rewrite (Qcltb_true _ _ Hr).
  destruct fuel as [|fuel]; [lia|].
  cbn [whileLoop]. unfold continues at 1.
  cbn [reimainingToDistribute indexesRedistribution Num.ltb Num.zero].
  rewrite (Qcltb_true _ _ Hr). fold k.
  replace (Nat.ltb 0 k) with true by (symmetry; now apply Nat.ltb_lt).
  cbn [andb]. unfold pass.
  cbn [reimainingToDistribute indexesRedistribution]. fold k.
  unfold Num.of_nat. rewrite div_fin by now apply of_nat_nonzero.
  assert (HF : forLoop (Fin (r / natQ k)) (positions_from 0 l)
                 (mkState (finite (map positivePartQ l)) (positions_from 0 l) (Fin r))
               = mkState (finite (map (evenShare (r / natQ k)) l))
                   (positions_from 0 l) (Fin 0)).
  { apply (forLoop_equal_positive p (r / natQ k) (positions_from 0 l)
             (single_negative r k Hk Hr) (even_share_positive p r k Hk Hd)
             l [] r Hall).
    cbn [length]. fold k. field. now apply of_nat_nonzero. }
  rewrite HF, whileLoop_stops; [reflexivity|].
  unfold continues. cbn [reimainingToDistribute Num.ltb Num.zero].
  now rewrite Qcltb_false by apply Qcle_refl.
Qed.

Lemma twopass_equal_positive (vs ts : list Qc) (d p : Qc) :
  length vs = length ts -> 0 < sumQc vs -> sumQc ts = 1 -> 0 < d ->
  (forall x, In x (diffQ vs ts d) -> Num.Qcleb x 0 = false -> x = p) ->
  TwoPass.rebalanceWithoutNegativeRebalancing (finite vs) (finite ts) (Fin d)
  = Ok (finite (map (evenShare
                       (nonPositiveSum (diffQ vs ts d)
                        / natQ (length (positions_from 0 (diffQ vs ts d)))))
                  (diffQ vs ts d))).
Proof.
  intros Hlen Htotal Hts Hd Hall.
  set (l := diffQ vs ts d) in *.
  set (r := nonPositiveSum l).
  set (k := length (positions_from 0 l)).
  assert (Hsum : sumQc l = d).
  { unfold l. rewrite sumQc_diffQ, Hts by assumption. ring. }
  assert (Hc : clampedQ vs ts d = map positivePartQ l).
  { unfold clampedQ. fold l. apply map_ext. intro x. now apply clampQ_positivePartQ. }
  assert (HS : sumQc (map positivePartQ l) = natQ k * p)
    by apply (sumQc_equal_positive p l 0 Hall).
  assert (Hdr : d = natQ k * p + r).
  { rewrite <- Hsum, <- HS. apply sumQc_parts. }
  assert (Hk : (0 < k)%nat).
  { destruct k as [|k'] eqn:Ek; [|lia]. exfalso.
    change (Q2Qc (inject_Z (Z.of_nat 0))) with 0 in Hdr.
    assert (Hr : r <= 0).
    { unfold r, nonPositiveSum. apply Qcopp_nonpos.
      rewrite <- sumQc_opp. apply sumQc_nonneg, Forall_map, Forall_forall.
      intros x Hx. apply filter_In in Hx as [_ Hx].
      apply Qcopp_nonneg. now destruct (Qcleb_spec x 0). }
    rewrite Hdr in Hd. replace (0 * p + r) with r in Hd by ring.
    exact (Qcle_not_lt _ _ Hr Hd). }
  assert (Hp : 0 < p).
  { destruct (positions_from 0 l) as [|i rest] eqn:E; [cbn in k; lia|].
    clear - Hall E. revert E. generalize 0%nat.
    induction l as [|x l IH]; intros n E; [discriminate|].
    cbn in E. destruct (Num.Qcleb x 0) eqn:Hle.
    - apply (IH (fun y Hy => Hall y (or_intror Hy)) (S n) E).
    - rewrite <- (Hall x (or_introl eq_refl) Hle). now apply Qcleb_false_inv. }
  assert (HS' : sumQc (clampedQ vs ts d) <> 0).
  { rewrite Hc, HS. apply Qclt_nonzero. left.
    apply Qcmult_pos; [now apply of_nat_pos | assumption]. }
  rewrite twopass_finite; auto using total_nonzero.
  - do 2 f_equal. unfold sharesQ. rewrite Hc, HS, map_map.
    apply map_ext_in. intros x Hx. unfold evenShare, positivePartQ.
    destruct (Num.Qcleb x 0) eqn:Hle; [unfold Qcdiv; ring|].
    rewrite (Hall x Hx Hle), Hdr. field.
    split; [now apply of_nat_nonzero | apply Qclt_nonzero; now left].
  - apply Qclt_nonzero. now left.
Qed.

Lemma nonPositiveSum_negative (l : list Qc) :
  Exists (fun x => x < 0) l -> nonPositiveSum l < 0.
Proof.
  intro Hex. unfold nonPositiveSum. apply sumQc_neg.
  - apply Forall_forall. intros x Hx. apply filter_In in Hx as [_ Hx].
    now destruct (Qcleb_spec x 0).
  - apply Exists_exists in Hex as [x [Hin Hx]]. apply Exists_exists.
    exists x. split; [|assumption].
    apply filter_In. split; [assumption|].
    apply Qcleb_true. now apply Qclt_le_weak.
Qed.

Lemma equal_positive_finite (p : Qc) (l : list Qc) :
  Forall (fun x => (x >? 0)%js = true -> x = Fin p) (finite l) ->
  forall x, In x l -> Num.Qcleb x 0 = false -> x = p.
Proof.
  intros H x Hin Hle. rewrite Forall_forall in H.
  specialize (H (Fin x) (in_map Fin l x Hin)).
  assert (E : Fin x = Fin p).
  { apply H. cbn. apply Qcltb_true. now apply Qcleb_false_inv. }
  now injection E.
Qed.

Lemma nonneg_or_negative (l : list Qc) :
  Forall (fun x => 0 <= x) l \/ Exists (fun x => x < 0) l.
Proof.
  induction l as [|x l [IH|IH]].
  - left. constructor.
  - destruct (Qclt_le_dec x 0) as [Hx|Hx]; [right; now left | left; now constructor].
  - right. now right.
Qed.

End EqualPositiveDifferences.

(** C8, as the code has it.  Take a common valid input: vectors of the same
    length, sums that are not negative and have a positive total, targets
    that sum to 1, and [sumToAdd > 0]; the iterative variant is called as
    [main] calls it, with the total and the allocation of the sums.  When no
    asset has a negative difference, or when the positive differences are
    all equal (as when only one asset has a positive difference), the two
    variants return the same adjustments. *)
Theorem variants_agree (fuel : nat) (vs ts : list Qc) (d : Qc) :
  length vs = length ts ->
  Forall (fun v => 0 <= v)%Qc vs ->
  (0 < sumQc vs)%Qc ->
  sumQc ts = 1%Qc ->
  (0 < d)%Qc ->
  (0 < fuel)%nat ->
  Forall (fun x => (x <? 0)%js = false)
    (TwoPass.diffInitial (finite vs) (finite ts) (Fin d))
  \/ (exists p : Qc,
        Forall (fun x => (x >? 0)%js = true -> x = Fin p)
          (TwoPass.diffInitial (finite vs) (finite ts) (Fin d))) ->
  exists adj : list number,
    Iterative.rebalanceWithoutNegativeRebalancing fuel
      (fst (calculateAllocation (finite vs))) (snd (calculateAllocation (finite vs)))
      (finite ts) (Fin d)
    = Some adj
    /\ TwoPass.rebalanceWithoutNegativeRebalancing (finite vs) (finite ts) (Fin d)
       = Ok adj.
Proof.
  intros Hlen _ Htotal Hts Hd Hfuel Hcases.
  pose proof (total_nonzero vs Htotal) as HT.
  rewrite (diffInitial_finite vs ts d Hlen HT) in Hcases.
  rewrite calculateAllocation_finite by assumption. cbn [fst snd].
  pose proof (rebalanceQ_diffQ vs ts d HT) as E.
  assert (Hlen' : length (map (fun v => (v / sumQc vs)%Qc) vs) = length ts)
    by now rewrite length_map.
  assert (Hnonneg : Forall (fun x => 0 <= x)%Qc (diffQ vs ts d) ->
                    exists adj : list number,
                      Iterative.rebalanceWithoutNegativeRebalancing fuel
                        (Fin (sumQc vs)) (finite (map (fun v => (v / sumQc vs)%Qc) vs))
                        (finite ts) (Fin d)
                      = Some adj
                      /\ TwoPass.rebalanceWithoutNegativeRebalancing
                           (finite vs) (finite ts) (Fin d)
                         = Ok adj).
  { intro Hall. exists (finite (diffQ vs ts d)). split.
    - rewrite iterative_no_negative; rewrite ?E; auto.
    - now apply twopass_no_negative. }
  destruct Hcases as [Hall|[p Hp]].
  - apply Hnonneg. now apply not_negative_finite.
  - destruct (nonneg_or_negative (diffQ vs ts d)) as [Hall|Hneg]; [now apply Hnonneg|].
    pose proof (equal_positive_finite p (diffQ vs ts d) Hp) as Hall.
    pose proof (iterative_equal_positive fuel (sumQc vs)
                  (map (fun v => (v / sumQc vs)%Qc) vs) ts d p Hlen' Hfuel) as Hit.
    rewrite E in Hit.
    eexists. split.
    + apply Hit; [assumption | now apply nonPositiveSum_negative |].
      rewrite sumQc_diffQ, Hts by assumption.
      now replace (1 * (sumQc vs + d) - sumQc vs)%Qc with d by ring.
    + now apply twopass_equal_positive with (p := p).
Qed.

Lemma variants_agree_witness :
  exists adj : list number,
    Iterative.rebalanceWithoutNegativeRebalancing 1
      (fst (calculateAllocation (finite [q 3 1; q 3 1; q 7 1])))
      (snd (calculateAllocation (finite [q 3 1; q 3 1; q 7 1])))
      (finite [q 2 5; q 2 5; q 1 5]) (Fin (q 2 1))
    = Some adj
    /\ TwoPass.rebalanceWithoutNegativeRebalancing (finite [q 3 1; q 3 1; q 7 1])
         (finite [q 2 5; q 2 5; q 1 5]) (Fin (q 2 1))
       = Ok adj.
Proof.
  apply (variants_agree 1 [q 3 1; q 3 1; q 7 1] [q 2 5; q 2 5; q 1 5] (q 2 1)).
  - reflexivity.
  - qc_eval.
  - qc_eval.
  - qc_eval.
  - qc_eval.
  - lia.
  - right. exists (q 3 1).
    repeat constructor;
      first [ intros _; array_eval
            | let H := fresh in intro H; vm_compute in H; discriminate H ].
Defined.

(** C8 as stated fails.  The sums [2; 2; 4] with the targets
    [1/2; 3/10; 1/5] and [sumToAdd = 2] are a valid input, with the
    differences [3; 1; -2].  The iterative variant takes one half of the
    negative difference from each of the two positive ones; the two-pass
    variant divides [sumToAdd] in the proportion 3 to 1. *)
Lemma variants_differ :
  calculateAllocation (finite [q 2 1; q 2 1; q 4 1])
  = (Fin (q 8 1), finite [q 1 4; q 1 4; q 1 2])
  /\ sumQc [q 1 2; q 3 10; q 1 5] = 1%Qc
  /\ TwoPass.diffInitial (finite [q 2 1; q 2 1; q 4 1])
       (finite [q 1 2; q 3 10; q 1 5]) (Fin (q 2 1))
     = finite [q 3 1; q 1 1; q (-2) 1]
  /\ Iterative.rebalanceWithoutNegativeRebalancing 4 (Fin (q 8 1))
       (finite [q 1 4; q 1 4; q 1 2]) (finite [q 1 2; q 3 10; q 1 5]) (Fin (q 2 1))
     = Some (finite [q 2 1; q 0 1; q 0 1])
  /\ TwoPass.rebalanceWithoutNegativeRebalancing (finite [q 2 1; q 2 1; q 4 1])
       (finite [q 1 2; q 3 10; q 1 5]) (Fin (q 2 1))
     = Ok (finite [q 3 2; q 1 2; q 0 1])
  /\ finite [q 2 1; q 0 1; q 0 1] <> finite [q 3 2; q 1 2; q 0 1].
Proof.
  split; [array_eval|].
  split; [qc_eval|].
  split; [array_eval|].
  split; [array_eval|].
  split; [array_eval|].
  intro E. apply (f_equal (same_numbers (finite [q 2 1; q 0 1; q 0 1]))) in E.
  vm_compute in E. discriminate E.
Qed.

(** * Further properties of the scripts *)

(** ** [kahanSum] on numbers that are not finite *)

Section KahanNonFinite.

Local Open Scope js_scope.

Lemma add_NaN_l (x : number) : NaN + x = NaN.
Proof. now destruct x. Qed.

Lemma add_NaN_r (x : number) : x + NaN = NaN.
Proof. now destruct x. Qed.

Lemma sub_NaN_l (x : number) : NaN - x = NaN.
Proof. now destruct x. Qed.

Lemma sub_NaN_r (x : number) : x - NaN = NaN.
Proof. now destruct x. Qed.

(** Once the running sum is [NaN] it stays [NaN]. *)
Lemma kahanLoop_NaN_sum (rest : list number) (r : number) :
  kahanLoop NaN r rest = NaN.
Proof.
  revert r. induction rest as [|v rest IH]; intro r; cbn [kahanLoop]; [reflexivity|].
  now rewrite add_NaN_l.
Qed.

(** A compensation that is [NaN] makes the next sum [NaN]. *)
Lemma kahanLoop_NaN_compensation (rest : list number) (s v : number) :
  kahanLoop s NaN (v :: rest) = NaN.
Proof.
  cbn [kahanLoop]. rewrite sub_NaN_r, add_NaN_r. apply kahanLoop_NaN_sum.
Qed.

Lemma kahanLoop_NaN_element (rest : list number) :
  forall s r : number, In NaN rest -> kahanLoop s r rest = NaN.
Proof.
  induction rest as [|v rest IH]; intros s r Hin; [destruct Hin|].
  destruct Hin as [->|Hin].
  - cbn [kahanLoop]. rewrite sub_NaN_l, add_NaN_r. apply kahanLoop_NaN_sum.
  - cbn [kahanLoop]. now apply IH.
Qed.

(** Adding a number that is not finite leaves a sum that is [NaN] or a
    compensation that is [NaN]. *)
Lemma kahanLoop_non_finite_element (x v : number) (rest : list number) (s r : number) :
  Num.is_finite x = false ->
  kahanLoop s r (x :: v :: rest) = NaN.
Proof.
  intro Hx. cbn [kahanLoop].
  destruct x as [q0| | |]; [discriminate| | |];
    destruct r as [r0| | |], s as [s0| | |]; cbn;
    try (destruct v; cbn; apply kahanLoop_NaN_sum).
Qed.

Lemma kahanLoop_non_finite_inside (pre : list number) (x v : number)
    (rest : list number) :
  Num.is_finite x = false ->
  forall s r : number, kahanLoop s r (pre ++ x :: v :: rest) = NaN.
Proof.
  intro Hx. induction pre as [|p pre IH]; intros s r.
  - now apply kahanLoop_non_finite_element.
  - cbn [app kahanLoop]. apply IH.
Qed.

End KahanNonFinite.

(** X1.  On finite numbers [kahanSum] is the exact sum: with exact arithmetic
    the compensation never leaves zero.  The sum of no number is 0. *)
Theorem kahanSum_exact (l : list Qc) :
  kahanSum (finite l) = Fin (sumQc l) /\ kahanSum [] = Fin 0%Qc.
Proof. split; [apply kahanSum_finite | reflexivity]. Qed.

Lemma kahanSum_has_NaN (arr : list number) : In NaN arr -> kahanSum arr = NaN.
Proof.
  destruct arr as [|a0 rest]; intros Hin; [destruct Hin|].
  cbn [kahanSum]. destruct Hin as [->|Hin].
  - apply kahanLoop_NaN_sum.
  - now apply kahanLoop_NaN_element.
Qed.

(** X2.  A [NaN] anywhere in the array makes [kahanSum] return [NaN]. *)
Theorem kahanSum_NaN (arr : list number) :
  In NaN arr -> kahanSum arr = NaN.
Proof. apply kahanSum_has_NaN. Qed.

Lemma kahanSum_NaN_witness : kahanSum [Fin (q 1 1); NaN; Fin (q 2 1)] = NaN.
Proof.
  apply (kahanSum_NaN [Fin (q 1 1); NaN; Fin (q 2 1)]).
  right. left. reflexivity.
Defined.

(** X3.  An infinity is not carried to the result as it would be by a plain
    sum: when a number that is not finite is followed by two numbers or
    more, whatever they are, [kahanSum] returns [NaN], because the
    compensation becomes [Infinity - Infinity]. *)
Theorem kahanSum_infinity_is_lost (pre : list number) (x a b : number)
    (rest : list number) :
  Num.is_finite x = false ->
  kahanSum (pre ++ x :: a :: b :: rest) = NaN.
Proof.
  intro Hx. destruct pre as [|p pre].
  - cbn [app kahanSum kahanLoop].
    destruct x as [q0| | |]; [discriminate| | |];
      destruct a as [a0| | |]; cbn;
      try apply kahanLoop_NaN_sum;
      try (destruct b; cbn; apply kahanLoop_NaN_sum).
  - cbn [app kahanSum]. now apply kahanLoop_non_finite_inside.
Qed.

Lemma kahanSum_infinity_is_lost_witness :
  kahanSum ([] ++ PInf :: Fin (q 1 1) :: Fin (q 1 1) :: []) = NaN.
Proof.
  apply (kahanSum_infinity_is_lost [] PInf (Fin (q 1 1)) (Fin (q 1 1)) []).
  reflexivity.
Defined.

(** ** The first script's variant against the third's *)

Section FirstScriptFacts.

Local Open Scope js_scope.

Lemma first_script_unfold (sumsInitial allocTargets : list number) (sumToAdd : number) :
  FirstScript.rebalanceWithoutNegativeRebalancing sumsInitial allocTargets sumToAdd
  = if Nat.eqb (length sumsInitial) (length allocTargets) then
      Ok (map (fun d => d * sumToAdd)
            (snd (calculateAllocation
                    (map (fun s => if s <? 0 then 0 else s)
                       (TwoPass.diffInitial sumsInitial allocTargets sumToAdd)))))
    else AssertionError same_length_message.
Proof. reflexivity. Qed.

Lemma twopass_unfold (sumsInitial allocTargets : list number) (sumToAdd : number) :
  TwoPass.rebalanceWithoutNegativeRebalancing sumsInitial allocTargets sumToAdd
  = if Nat.eqb (length sumsInitial) (length allocTargets) then
      if sumToAdd === 0 then Ok (repeat 0 (length sumsInitial))
      else Ok (map (fun d => d * sumToAdd)
                 (snd (calculateAllocation
                         (TwoPass.sumFinalDividedDiffInitial
                            sumsInitial allocTargets sumToAdd))))
    else AssertionError same_length_message.
Proof. reflexivity. Qed.

Lemma positive_not_zero (x : number) : (x >? 0) = true -> (x === 0) = false.
Proof.
  destruct x as [x0| | |]; cbn; try reflexivity; try discriminate.
  intro H. destruct (Qcltb_spec 0 x0) as [Hx|]; [|discriminate].
  apply Qceqb_false. intro E. subst x0. exact (Qclt_irrefl _ Hx).
Qed.

End FirstScriptFacts.

(** X8.  When [sumToAdd > 0] the first script's
    [rebalanceWithoutNegativeRebalancing] and the third script's return the
    same result, on all arguments: the third script only adds the cases
    [sumToAdd = 0] and [sumToAdd < 0]. *)
Theorem first_script_agrees_on_deposit (sumsInitial allocTargets : list number)
    (sumToAdd : number) :
  (sumToAdd >? 0)%js = true ->
  FirstScript.rebalanceWithoutNegativeRebalancing sumsInitial allocTargets sumToAdd
  = TwoPass.rebalanceWithoutNegativeRebalancing sumsInitial allocTargets sumToAdd.
Proof.
  intro Hpos. rewrite first_script_unfold, twopass_unfold.
  rewrite (positive_not_zero _ Hpos).
  unfold TwoPass.sumFinalDividedDiffInitial, TwoPass.clamp. now rewrite Hpos.
Qed.

Lemma first_script_agrees_on_deposit_witness :
  FirstScript.rebalanceWithoutNegativeRebalancing
    (finite [q 6000 1; q 5000 1; q 6000 1]) (finite [q 3 10; q 1 2; q 1 5])
    (Fin (q 10000 1))
  = TwoPass.rebalanceWithoutNegativeRebalancing
      (finite [q 6000 1; q 5000 1; q 6000 1]) (finite [q 3 10; q 1 2; q 1 5])
      (Fin (q 10000 1)).
Proof.
  apply (first_script_agrees_on_deposit
           (finite [q 6000 1; q 5000 1; q 6000 1]) (finite [q 3 10; q 1 2; q 1 5])
           (Fin (q 10000 1))).
  reflexivity.
Defined.

Section FirstScriptLiquidation.

Local Open Scope Qc_scope.

Lemma clamp_negative_opposites (vs : list Qc) :
  Forall (fun v => 0 <= v) vs ->
  map (fun s => if (s <? 0)%js then 0%js else s) (finite (map Qcopp vs))
  = finite (repeat 0 (length vs)).
Proof.
  induction 1 as [|v vs Hv _ IH]; [reflexivity|].
  cbn [map finite length repeat] in *. f_equal; [|exact IH].
  cbn [Num.ltb Num.zero]. destruct (Qcltb_spec (- v) 0) as [|Hn]; [reflexivity|].
  f_equal. apply Qcle_antisym; [|now apply Qcnot_lt_le].
  apply Qcopp_nonpos. now rewrite Qcopp_involutive.
Qed.

End FirstScriptLiquidation.

(** X9.  On a full liquidation ([sumToAdd] the opposite of the positive
    total of sums that are not negative) the first script's variant returns
    [NaN] for every asset: it clamps every difference to zero and divides by
    their sum.  (The third script's variant returns the opposite of each sum.) *)
Theorem first_script_liquidation_is_NaN (vs ts : list Qc) :
  length vs = length ts ->
  Forall (fun v => 0 <= v)%Qc vs ->
  (0 < sumQc vs)%Qc ->
  FirstScript.rebalanceWithoutNegativeRebalancing (finite vs) (finite ts)
    (Fin (- sumQc vs)%Qc)
  = Ok (repeat NaN (length vs)).
Proof.
  intros Hlen Hvs Htotal. rewrite first_script_unfold.
  rewrite !length_finite, Hlen, Nat.eqb_refl. f_equal.
  rewrite (diffInitial_finite vs ts _ Hlen (total_nonzero vs Htotal)).
  rewrite diffQ_liquidation by assumption.
  rewrite clamp_negative_opposites by assumption.
  rewrite <- Hlen. apply shares_of_zeros.
Qed.

Lemma first_script_liquidation_is_NaN_witness :
  FirstScript.rebalanceWithoutNegativeRebalancing
    (finite [q 6000 1; q 5000 1; q 6000 1]) (finite [q 3 10; q 1 2; q 1 5])
    (Fin (- sumQc [q 6000 1; q 5000 1; q 6000 1])%Qc)
  = Ok (repeat NaN 3).
Proof.
  apply (first_script_liquidation_is_NaN [q 6000 1; q 5000 1; q 6000 1]
           [q 3 10; q 1 2; q 1 5]).
  - reflexivity.
  - qc_eval.
  - qc_eval.
Defined.

(** ** What the checked functions return *)

Section Shapes.

Local Open Scope js_scope.

Lemma length_mapi {A B : Type} (f : nat -> A -> B) (l : list A) :
  length (mapi f l) = length l.
Proof. apply length_mapi_from. Qed.

Lemma length_twopass_shares (sumsInitial allocTargets : list number) (sumToAdd : number) :
  length (map (fun d => d * sumToAdd)
            (snd (calculateAllocation
                    (TwoPass.sumFinalDividedDiffInitial
                       sumsInitial allocTargets sumToAdd))))
  = length allocTargets.
Proof.
  unfold calculateAllocation. cbn [snd]. now rewrite !length_map, length_clamped.
Qed.

End Shapes.

Lemma checked_shapes (sumInitial : number)
    (first allocTargets : list number) (sumToAdd : number) :
  (length first = length allocTargets ->
   (exists adj, rebalance sumInitial first allocTargets sumToAdd = Ok adj
                /\ length adj = length allocTargets)
   /\ (exists adj,
         TwoPass.rebalanceWithoutNegativeRebalancing first allocTargets sumToAdd
         = Ok adj
         /\ length adj = length allocTargets))
  /\ (length first <> length allocTargets ->
      rebalance sumInitial first allocTargets sumToAdd
      = AssertionError same_length_message
      /\ TwoPass.rebalanceWithoutNegativeRebalancing first allocTargets sumToAdd
         = AssertionError same_length_message).
Proof.
  split.
  - intro Hlen. split.
    + unfold rebalance. rewrite Hlen, Nat.eqb_refl.
      eexists. split; [reflexivity | apply length_mapi].
    + rewrite twopass_unfold, Hlen, Nat.eqb_refl.
      destruct (sumToAdd === 0)%js; eexists; (split; [reflexivity|]).
      * apply repeat_length.
      * apply length_twopass_shares.
  - intro Hlen. apply Nat.eqb_neq in Hlen.
    unfold rebalance. rewrite twopass_unfold, Hlen. split; reflexivity.
Qed.

(** X7.  [rebalance] and the two-pass variant fail in one case only: they
    raise the assertion error exactly when their two arrays differ in
    length.  Otherwise they return one adjustment for each target, whatever
    the numbers are (finite or not). *)
Theorem checked_functions_shape (sumInitial : number)
    (first allocTargets : list number) (sumToAdd : number) :
  (length first = length allocTargets ->
   (exists adj, rebalance sumInitial first allocTargets sumToAdd = Ok adj
                /\ length adj = length allocTargets)
   /\ (exists adj,
         TwoPass.rebalanceWithoutNegativeRebalancing first allocTargets sumToAdd
         = Ok adj
         /\ length adj = length allocTargets))
  /\ (length first <> length allocTargets ->
      rebalance sumInitial first allocTargets sumToAdd
      = AssertionError same_length_message
      /\ TwoPass.rebalanceWithoutNegativeRebalancing first allocTargets sumToAdd
         = AssertionError same_length_message).
Proof. apply checked_shapes. Qed.

Lemma checked_functions_shape_witness :
  (exists adj, rebalance (Fin (q 4 1)) [NaN; PInf] (finite [q 1 2; q 1 2]) NInf = Ok adj
               /\ length adj = 2%nat)
  /\ rebalance (Fin (q 4 1)) [NaN] (finite [q 1 2; q 1 2]) (Fin (q 1 1))
     = AssertionError same_length_message.
Proof.
  split.
  - apply (proj1 (checked_functions_shape (Fin (q 4 1)) [NaN; PInf]
                    (finite [q 1 2; q 1 2]) NInf)).
    reflexivity.
  - apply (proj2 (checked_functions_shape (Fin (q 4 1)) [NaN]
                    (finite [q 1 2; q 1 2]) (Fin (q 1 1)))).
    cbn. lia.
Defined.

(** ** The adjustments of the two-pass variant against the differences *)

Section Overshoot.

Local Open Scope Qc_scope.

Lemma Forall2_map_self {A : Type} (P : A -> A -> Prop) (f : A -> A) (l : list A) :
  (forall x, In x l -> P (f x) x) -> Forall2 P (map f l) l.
Proof.
  induction l as [|x l IH]; intro H; cbn; constructor.
  - apply H. now left.
  - apply IH. intros y Hy. apply H. now right.
Qed.

Lemma sumQc_le (f g : Qc -> Qc) (l : list Qc) :
  (forall x, f x <= g x) -> sumQc (map f l) <= sumQc (map g l).
Proof.
  intro H. induction l as [|x l IH]; cbn; [apply Qcle_refl|].
  now apply Qcplus_le_compat.
Qed.

Lemma clampQ_ge (d x : Qc) : 0 < d -> x <= clampQ d x.
Proof.
  intro Hd. unfold clampQ. rewrite (Qcltb_true _ _ Hd).
  destruct (Qcltb_spec x 0) as [Hx|]; [now apply Qclt_le_weak | apply Qcle_refl].
Qed.

Lemma clampQ_le (d x : Qc) : d < 0 -> clampQ d x <= x.
Proof.
  intro Hd. unfold clampQ. rewrite (Qcltb_false 0 d) by now apply Qclt_le_weak.
  destruct (Qcltb_spec 0 x) as [Hx|]; [now apply Qclt_le_weak | apply Qcle_refl].
Qed.

(** The clamped differences of a deposit sum to [d] at least, those of a
    withdrawal to [d] at most. *)
Lemma sum_clamped_ge (l : list Qc) (d : Qc) :
  0 < d -> sumQc l <= sumQc (map (clampQ d) l).
Proof.
  intro Hd. rewrite <- (map_id l) at 1.
  apply sumQc_le. intro x. now apply clampQ_ge.
Qed.

Lemma sum_clamped_le (l : list Qc) (d : Qc) :
  d < 0 -> sumQc (map (clampQ d) l) <= sumQc l.
Proof.
  intro Hd. rewrite <- (map_id l) at 2.
  apply sumQc_le. intro x. now apply clampQ_le.
Qed.

Lemma ratio_le_1 (d S : Qc) : 0 < d -> d <= S -> d / S <= 1.
Proof.
  intros Hd HS.
  assert (HS' : 0 < S) by (eapply Qclt_le_trans; eassumption).
  qc_to_q. apply Qle_shift_div_r; [assumption | lra].
Qed.

(** A share of a deposit is at most the clamped difference it comes from. *)
Lemma share_le (x S d : Qc) : 0 <= x -> 0 < d -> d <= S -> x / S * d <= x.
Proof.
  intros Hx Hd HS.
  replace (x / S * d) with (d / S * x) by (unfold Qcdiv; ring).
  rewrite <- (Qcmult_1_l x) at 2.
  apply Qcmult_le_compat_r; [now apply ratio_le_1 | assumption].
Qed.

(** A share of a withdrawal is at least the clamped difference. *)
Lemma share_ge (x S d : Qc) : x <= 0 -> d < 0 -> S <= d -> x <= x / S * d.
Proof.
  intros Hx Hd HS.
  assert (HS' : S < 0) by (eapply Qcle_lt_trans; eassumption).
  assert (Hnz : - S <> 0).
  { apply Qclt_nonzero. left. now apply Qcopp_pos. }
  assert (H : (- x) / (- S) * (- d) <= - x).
  { apply share_le; [now apply Qcopp_nonneg | now apply Qcopp_pos
                    | now apply Qcopp_le_compat]. }
  replace ((- x) / (- S) * (- d)) with (- (x / S * d)) in H.
  - qc_to_q. lra.
  - field. split; [assumption|]. apply Qclt_nonzero. now right.
Qed.

End Overshoot.

(** X10.  The two-pass variant never overshoots.  On a valid input with
    [sumToAdd] not zero, each adjustment lies between zero and the clamped
    difference of its asset: a deposit buys no more of an asset than what
    brings it to its target, a withdrawal sells no more than what does. *)
Theorem twopass_never_overshoots (vs ts : list Qc) (d : Qc) :
  length vs = length ts ->
  (0 < sumQc vs)%Qc ->
  sumQc ts = 1%Qc ->
  d <> 0%Qc ->
  exists adj c : list Qc,
    TwoPass.rebalanceWithoutNegativeRebalancing (finite vs) (finite ts) (Fin d)
    = Ok (finite adj)
    /\ TwoPass.sumFinalDividedDiffInitial (finite vs) (finite ts) (Fin d) = finite c
    /\ ((0 < d)%Qc -> Forall2 (fun a x => 0 <= a <= x)%Qc adj c)
    /\ ((d < 0)%Qc -> Forall2 (fun a x => x <= a <= 0)%Qc adj c).
Proof.
  intros Hlen Htotal Hts Hd.
  pose proof (valid_input_not_degenerate vs ts d Hlen Htotal Hts Hd) as Hex.
  pose proof (agrees_diffQ vs ts d Hlen Htotal Hex) as Hex'.
  assert (Hsum : sumQc (diffQ vs ts d) = d).
  { rewrite sumQc_diffQ, Hts by assumption. ring. }
  exists (sharesQ (clampedQ vs ts d) d), (clampedQ vs ts d).
  split; [now apply twopass_valid|].
  split; [apply clamped_finite; [assumption | now apply total_nonzero]|].
  split; intro Hsign; apply Forall2_map_self; intros x Hx;
    apply in_map_iff in Hx as [y [<- _]].
  - assert (HS : (d <= sumQc (clampedQ vs ts d))%Qc).
    { rewrite <- Hsum at 1. now apply sum_clamped_ge. }
    pose proof (clampQ_deposit d y Hsign) as Hy.
    split.
    + apply share_nonneg; [assumption | | now apply Qclt_le_weak].
      eapply Qclt_le_trans; eassumption.
    + now apply share_le.
  - assert (HS : (sumQc (clampedQ vs ts d) <= d)%Qc).
    { rewrite <- Hsum at 2. now apply sum_clamped_le. }
    pose proof (clampQ_withdrawal d y Hsign) as Hy.
    split.
    + now apply share_ge.
    + apply share_nonpos; [assumption | | now apply Qclt_le_weak].
      eapply Qcle_lt_trans; eassumption.
Qed.

Lemma twopass_never_overshoots_witness :
  exists adj c : list Qc,
    TwoPass.rebalanceWithoutNegativeRebalancing
      (finite [q 6000 1; q 5000 1; q 6000 1]) (finite [q 3 10; q 1 2; q 1 5])
      (Fin (q 10000 1))
    = Ok (finite adj)
    /\ TwoPass.sumFinalDividedDiffInitial
         (finite [q 6000 1; q 5000 1; q 6000 1]) (finite [q 3 10; q 1 2; q 1 5])
         (Fin (q 10000 1))
       = finite c
    /\ ((0 < q 10000 1)%Qc -> Forall2 (fun a x => 0 <= a <= x)%Qc adj c)
    /\ ((q 10000 1 < 0)%Qc -> Forall2 (fun a x => x <= a <= 0)%Qc adj c).
Proof.
  apply (twopass_never_overshoots [q 6000 1; q 5000 1; q 6000 1]
           [q 3 10; q 1 2; q 1 5] (q 10000 1)).
  - reflexivity.
  - qc_eval.
  - qc_eval.
  - qc_eval.
Defined.

Section NoShortSale.

Local Open Scope Qc_scope.

Lemma clampQ_ge_opposite (d t F v : Qc) :
  d < 0 -> 0 <= t -> 0 <= F -> 0 <= v -> - v <= clampQ d (t * F - v).
Proof.
  intros Hd Ht HF Hv.
  pose proof (Qcmult_nonneg _ _ Ht HF) as HtF.
  unfold clampQ. rewrite (Qcltb_false 0 d) by now apply Qclt_le_weak.
  destruct (Qcltb_spec 0 (t * F - v)) as [Hx|Hx].
  - qc_to_q. lra.
  - revert HtF. generalize (t * F). intros y Hy. qc_to_q. lra.
Qed.

Lemma no_short_sale_shares (d S F : Qc) :
  d < 0 -> S <= d -> 0 <= F ->
  forall ts vs : list Qc,
    length vs = length ts ->
    Forall (fun t => 0 <= t) ts ->
    Forall (fun v => 0 <= v) vs ->
    Forall2 (fun v a => 0 <= v + a) vs
      (map (fun x => x / S * d)
         (map (clampQ d) (zipWith (fun t v => t * F - v) ts vs))).
Proof.
  intros Hd HS HF. induction ts as [|t ts IH]; intros [|v vs] Hlen Hts Hvs;
    cbn in *; try discriminate; constructor.
  - inversion Hts; inversion Hvs; subst.
    assert (Hc : - v <= clampQ d (t * F - v)) by now apply clampQ_ge_opposite.
    assert (Ha : clampQ d (t * F - v) <= clampQ d (t * F - v) / S * d).
    { apply share_ge; [now apply clampQ_withdrawal | assumption..]. }
    revert Hc Ha. generalize (clampQ d (t * F - v) / S * d).
    generalize (clampQ d (t * F - v)). intros c a Hc Ha. qc_to_q. lra.
  - inversion Hts; inversion Hvs; subst. apply IH; auto.
Qed.

End NoShortSale.

(** X11.  A withdrawal never takes from an asset more than it holds.  With
    sums and targets that are not negative, a positive total, targets that
    sum to 1, and a withdrawal that leaves a final sum that is not negative,
    every sum plus its adjustment is not negative. *)
Theorem twopass_no_short_sale (vs ts : list Qc) (d : Qc) :
  length vs = length ts ->
  Forall (fun v => 0 <= v)%Qc vs ->
  (0 < sumQc vs)%Qc ->
  Forall (fun t => 0 <= t)%Qc ts ->
  sumQc ts = 1%Qc ->
  (d < 0)%Qc ->
  (0 <= sumQc vs + d)%Qc ->
  exists adj : list Qc,
    TwoPass.rebalanceWithoutNegativeRebalancing (finite vs) (finite ts) (Fin d)
    = Ok (finite adj)
    /\ Forall2 (fun v a => 0 <= v + a)%Qc vs adj.
Proof.
  intros Hlen Hvs Htotal Hts Hsum1 Hd HF.
  assert (Hd' : d <> 0%Qc) by (apply Qclt_nonzero; now right).
  pose proof (valid_input_not_degenerate vs ts d Hlen Htotal Hsum1 Hd') as Hex.
  assert (Hsum : sumQc (diffQ vs ts d) = d).
  { rewrite sumQc_diffQ, Hsum1 by assumption. ring. }
  exists (sharesQ (clampedQ vs ts d) d).
  split; [now apply twopass_valid|].
  apply no_short_sale_shares; try assumption.
  fold (diffQ vs ts d). fold (clampedQ vs ts d).
  rewrite <- Hsum at 2. now apply sum_clamped_le.
Qed.

Lemma twopass_no_short_sale_witness :
  exists adj : list Qc,
    TwoPass.rebalanceWithoutNegativeRebalancing
      (finite [q 6000 1; q 5000 1; q 6000 1]) (finite [q 3 10; q 1 2; q 1 5])
      (Fin (q (-16000) 1))
    = Ok (finite adj)
    /\ Forall2 (fun v a => 0 <= v + a)%Qc [q 6000 1; q 5000 1; q 6000 1] adj.
Proof.
  apply (twopass_no_short_sale [q 6000 1; q 5000 1; q 6000 1]
           [q 3 10; q 1 2; q 1 5] (q (-16000) 1)).
  - reflexivity.
  - qc_eval.
  - qc_eval.
  - qc_eval.
  - qc_eval.
  - qc_eval.
  - qc_eval.
Defined.

(** ** The two-pass variant and [rebalance] *)

Section NothingOpposes.

Local Open Scope Qc_scope.

Lemma clampQ_not_opposed (d x : Qc) :
  d <> 0 -> opposes_in_sign (Fin d) (Fin x) = false -> clampQ d x = x.
Proof.
  intros Hd H. unfold opposes_in_sign in H. cbn -[Num.Qcltb] in H.
  apply orb_false_elim in H as [H1 H2]. unfold clampQ.
  destruct (Qc_nonzero_cases d Hd) as [Hd'|Hd'].
  - rewrite (Qcltb_true _ _ Hd') in *. cbn [andb] in H1. now rewrite H1.
  - rewrite (Qcltb_true _ _ Hd') in H2. cbn [andb] in H2.
    rewrite (Qcltb_false 0 d) by now apply Qclt_le_weak. now rewrite H2.
Qed.

Lemma twopass_nothing_opposed (vs ts : list Qc) (d : Qc) :
  length vs = length ts -> 0 < sumQc vs -> sumQc ts = 1 -> d <> 0 ->
  (forall x, In x (diffQ vs ts d) -> clampQ d x = x) ->
  TwoPass.rebalanceWithoutNegativeRebalancing (finite vs) (finite ts) (Fin d)
  = Ok (finite (diffQ vs ts d)).
Proof.
  intros Hlen Htotal Hts Hd Hall.
  assert (Hc : clampedQ vs ts d = diffQ vs ts d).
  { unfold clampedQ. rewrite <- (map_id (diffQ vs ts d)) at 2.
    now apply map_ext_in. }
  assert (Hsum : sumQc (diffQ vs ts d) = d).
  { rewrite sumQc_diffQ, Hts by assumption. ring. }
  rewrite twopass_finite; auto using total_nonzero.
  - rewrite Hc. unfold sharesQ. rewrite Hsum. do 2 f_equal.
    rewrite <- (map_id (diffQ vs ts d)) at 2.
    apply map_ext. intro x. now field.
  - now rewrite Hc, Hsum.
Qed.

Lemma rebalance_of_allocation (vs ts : list Qc) (d : Qc) :
  length vs = length ts -> sumQc vs <> 0 ->
  rebalance (fst (calculateAllocation (finite vs)))
    (snd (calculateAllocation (finite vs))) (finite ts) (Fin d)
  = Ok (finite (diffQ vs ts d)).
Proof.
  intros Hlen HT. rewrite calculateAllocation_finite by assumption. cbn [fst snd].
  rewrite rebalance_finite by now rewrite length_map.
  now rewrite rebalanceQ_diffQ.
Qed.

Lemma rebalanceQ_balanced (T d : Qc) (ts : list Qc) :
  rebalanceQ T ts ts d = map (fun t => t * d) ts.
Proof.
  unfold rebalanceQ. induction ts as [|t ts IH]; cbn; [reflexivity|].
  f_equal; [ring | exact IH].
Qed.

End NothingOpposes.

(** X12.  On a valid input with [sumToAdd] not zero on which no asset has a
    difference opposed in sign to [sumToAdd], the two-pass variant returns
    what [rebalance] returns for the total and the allocation of the sums:
    the constraint changes the result only when it has to. *)
Theorem twopass_is_rebalance_when_unopposed (vs ts : list Qc) (d : Qc) :
  length vs = length ts ->
  (0 < sumQc vs)%Qc ->
  sumQc ts = 1%Qc ->
  d <> 0%Qc ->
  Forall (fun x => opposes_in_sign (Fin d) x = false)
    (TwoPass.diffInitial (finite vs) (finite ts) (Fin d)) ->
  exists adj : list number,
    TwoPass.rebalanceWithoutNegativeRebalancing (finite vs) (finite ts) (Fin d)
    = Ok adj
    /\ rebalance (fst (calculateAllocation (finite vs)))
         (snd (calculateAllocation (finite vs))) (finite ts) (Fin d)
       = Ok adj.
Proof.
  intros Hlen Htotal Hts Hd Hall.
  pose proof (total_nonzero vs Htotal) as HT.
  rewrite (diffInitial_finite vs ts d Hlen HT) in Hall.
  exists (finite (diffQ vs ts d)). split.
  - apply twopass_nothing_opposed; try assumption.
    intros x Hx. apply clampQ_not_opposed; [assumption|].
    rewrite Forall_forall in Hall. apply Hall. now apply in_map.
  - now apply rebalance_of_allocation.
Qed.

Lemma twopass_is_rebalance_when_unopposed_witness :
  exists adj : list number,
    TwoPass.rebalanceWithoutNegativeRebalancing (finite [q 2 1; q 3 1; q 5 1])
      (finite [q 1 4; q 1 4; q 1 2]) (Fin (q 10 1))
    = Ok adj
    /\ rebalance (fst (calculateAllocation (finite [q 2 1; q 3 1; q 5 1])))
         (snd (calculateAllocation (finite [q 2 1; q 3 1; q 5 1])))
         (finite [q 1 4; q 1 4; q 1 2]) (Fin (q 10 1))
       = Ok adj.
Proof.
  apply (twopass_is_rebalance_when_unopposed [q 2 1; q 3 1; q 5 1]
           [q 1 4; q 1 4; q 1 2] (q 10 1)).
  - reflexivity.
  - qc_eval.
  - qc_eval.
  - qc_eval.
  - repeat constructor.
Defined.

(** X5.  When the current allocation is already the target allocation,
    [rebalance] divides [sumToAdd] by the targets: the adjustment of each
    asset is its target times [sumToAdd], whatever [sumInitial] is. *)
Theorem rebalance_balanced (T d : Qc) (ts : list Qc) :
  rebalance (Fin T) (finite ts) (finite ts) (Fin d)
  = Ok (finite (map (fun t => (t * d)%Qc) ts)).
Proof.
  rewrite rebalance_finite by reflexivity. now rewrite rebalanceQ_balanced.
Qed.

(** X6.  Full liquidation with [rebalance].  Called with the total and the
    allocation of sums whose total is not zero, and with [sumToAdd] the
    opposite of the total, [rebalance] returns the opposite of each sum,
    whatever the targets are. *)
Theorem rebalance_full_liquidation (vs ts : list Qc) :
  length vs = length ts ->
  sumQc vs <> 0%Qc ->
  rebalance (fst (calculateAllocation (finite vs)))
    (snd (calculateAllocation (finite vs))) (finite ts) (Fin (- sumQc vs)%Qc)
  = Ok (finite (map Qcopp vs)).
Proof.
  intros Hlen HT. rewrite rebalance_of_allocation by assumption.
  now rewrite diffQ_liquidation.
Qed.

Lemma rebalance_full_liquidation_witness :
  rebalance (fst (calculateAllocation (finite [q 6000 1; q 5000 1; q 6000 1])))
    (snd (calculateAllocation (finite [q 6000 1; q 5000 1; q 6000 1])))
    (finite [q 3 10; q 1 2; q 1 5])
    (Fin (- sumQc [q 6000 1; q 5000 1; q 6000 1])%Qc)
  = Ok (finite (map Qcopp [q 6000 1; q 5000 1; q 6000 1])).
Proof.
  apply (rebalance_full_liquidation [q 6000 1; q 5000 1; q 6000 1]
           [q 3 10; q 1 2; q 1 5]).
  - reflexivity.
  - qc_eval.
Defined.

(** ** A total of zero *)

Section ZeroTotalInput.

Local Open Scope js_scope.

Lemma zero_total_differences (sfd : list number) :
  forall vs : list Qc,
    length sfd = length vs ->
    zipWith (fun s a => s - a * Fin 0%Qc) sfd
      (map (fun v => v / Fin 0%Qc) (finite vs))
    = repeat NaN (length vs).
Proof.
  induction sfd as [|s sfd IH]; intros [|v vs] Hlen; cbn [length] in Hlen;
    try discriminate; [reflexivity|].
  cbn [finite map zipWith length repeat]. f_equal.
  - unfold Num.div. cbn. destruct (v ?= Q2Qc 0)%Qc; cbn; now destruct s.
  - apply IH. lia.
Qed.

Lemma clamp_NaN (sumToAdd : number) : TwoPass.clamp sumToAdd NaN = NaN.
Proof. unfold TwoPass.clamp. now destruct (sumToAdd >? 0). Qed.

Lemma map_repeat_NaN (f : number -> number) (n : nat) :
  f NaN = NaN -> map f (repeat NaN n) = repeat NaN n.
Proof. intro H. rewrite map_repeat. now rewrite H. Qed.

Lemma zero_total_clamped (vs : list Qc) (allocTargets : list number)
    (sumToAdd : number) :
  length vs = length allocTargets ->
  sumQc vs = 0%Qc ->
  TwoPass.sumFinalDividedDiffInitial (finite vs) allocTargets sumToAdd
  = repeat NaN (length vs).
Proof.
  intros Hlen Hsum.
  unfold TwoPass.sumFinalDividedDiffInitial, TwoPass.diffInitial, calculateAllocation.
  rewrite kahanSum_finite, Hsum.
  rewrite (mapi_zipWith _ (fun s a => s - a * Fin 0%Qc)
             (map (fun a => a * (Fin 0%Qc + sumToAdd)) allocTargets)
             (map (fun v => v / Fin 0%Qc) (finite vs))).
  - rewrite zero_total_differences by (now rewrite length_map).
    apply map_repeat_NaN, clamp_NaN.
  - reflexivity.
  - now rewrite !length_map, length_finite.
Qed.

End ZeroTotalInput.

Lemma twopass_zero_total_NaN (vs : list Qc) (allocTargets : list number)
    (sumToAdd : number) :
  length vs = length allocTargets ->
  sumQc vs = 0%Qc ->
  (sumToAdd === 0)%js = false ->
  TwoPass.rebalanceWithoutNegativeRebalancing (finite vs) allocTargets sumToAdd
  = Ok (repeat NaN (length vs)).
Proof.
  intros Hlen Hsum Hd. rewrite twopass_unfold.
  rewrite length_finite, Hlen, Nat.eqb_refl, Hd.
  rewrite zero_total_clamped by assumption.
  unfold calculateAllocation. cbn [snd]. f_equal.
  rewrite map_repeat_NaN by reflexivity.
  rewrite <- Hlen. apply map_repeat_NaN. reflexivity.
Qed.

(** X13.  When the sums have a total of zero (a portfolio that holds
    nothing) and [sumToAdd] is not zero, the two-pass variant returns [NaN]
    for every asset, whatever the targets are: the allocation of the sums
    is a division by zero. *)
Theorem twopass_zero_total_is_NaN (vs : list Qc) (allocTargets : list number)
    (sumToAdd : number) :
  length vs = length allocTargets ->
  sumQc vs = 0%Qc ->
  (sumToAdd === 0)%js = false ->
  TwoPass.rebalanceWithoutNegativeRebalancing (finite vs) allocTargets sumToAdd
  = Ok (repeat NaN (length vs)).
Proof. apply twopass_zero_total_NaN. Qed.

Lemma twopass_zero_total_is_NaN_witness :
  TwoPass.rebalanceWithoutNegativeRebalancing (finite [0%Qc; 0%Qc])
    (finite [q 1 2; q 1 2]) (Fin (q 10 1))
  = Ok (repeat NaN 2).
Proof.
  apply (twopass_zero_total_is_NaN [0%Qc; 0%Qc] (finite [q 1 2; q 1 2]) (Fin (q 10 1))).
  - reflexivity.
  - qc_eval.
  - reflexivity.
Defined.

(** ** What the loops of the iterative variant keep *)

Section IterativeInvariants.

Import Iterative.
Local Open Scope js_scope.

(** A property of the state kept by every turn of the [for] loop is kept by
    the [while] loop. *)
Lemma forLoop_preserves (P : state -> Prop) :
  (forall single i st, P st -> P (redistribute single i st)) ->
  forall single todo st, P st -> P (forLoop single todo st).
Proof.
  intros Hstep single todo. induction todo as [|i todo IH]; intros st HP;
    cbn [forLoop]; [exact HP|].
  destruct (reimainingToDistribute (redistribute single i st) >=? 0); auto.
Qed.

Lemma whileLoop_preserves (P : state -> Prop) :
  (forall st, continues st = true -> P st -> P (pass st)) ->
  forall fuel st st',
    whileLoop fuel st = Some st' -> P st -> P st' /\ continues st' = false.
Proof.
  intros Hpass fuel. induction fuel as [|fuel IH]; intros st st' Hrun HP;
    cbn [whileLoop] in Hrun; destruct (continues st) eqn:Hc;
    try discriminate.
  - injection Hrun as <-. now split.
  - apply (IH (pass st)); auto.
  - injection Hrun as <-. now split.
Qed.

Lemma whileLoop_preserves_turns (P : state -> Prop) :
  (forall single i st, P st -> P (redistribute single i st)) ->
  forall fuel st st', whileLoop fuel st = Some st' -> P st -> P st'.
Proof.
  intros Hstep fuel st st' Hrun HP.
  apply (whileLoop_preserves P) in Hrun; [tauto | | assumption].
  intros s _ Hs. unfold pass. now apply forLoop_preserves.
Qed.

Lemma redistribute_length (single : number) (i : nat) (st : state) :
  length (sumDivided (redistribute single i st)) = length (sumDivided st).
Proof.
  unfold redistribute.
  repeat match goal with
         | |- context [if ?c then _ else _] => destruct c
         end; cbn [sumDivided]; apply length_set_at.
Qed.

Lemma Forall_set_at (P : number -> Prop) (arr : list number) (i : nat) (x : number) :
  Forall P arr -> P x -> Forall P (set_at arr i x).
Proof.
  intros Harr Hx. revert i. induction Harr as [|y arr Hy Harr IH]; intros [|i]; cbn;
    constructor; auto.
Qed.

Lemma redistribute_not_negative (single : number) (i : nat) (st : state) :
  Forall (fun x => (x <? 0) = false) (sumDivided st) ->
  Forall (fun x => (x <? 0) = false) (sumDivided (redistribute single i st)).
Proof.
  intro H. unfold redistribute.
  destruct (get (sumDivided st) i + single >=? 0) eqn:Heff;
    cbn [sumDivided indexesRedistribution reimainingToDistribute];
    match goal with
    | |- context [if ?c then _ else _] => destruct c
    end; cbn [sumDivided]; apply Forall_set_at; auto using geb_zero_not_ltb.
Qed.

Lemma positivePart_not_negative (s : number) : (positivePart s <? 0) = false.
Proof.
  unfold positivePart. destruct s as [x| | |]; cbn; try reflexivity.
  destruct (Qcleb_spec x 0) as [|Hn]; cbn; [reflexivity|].
  apply Qcltb_false. apply Qclt_le_weak. now apply Qcnot_le_lt.
Qed.

Lemma subdivision_state (sumInitial : number) (allocInitial allocTargets : list number)
    (sumToAdd : number) :
  length (sumDivided (subdivision sumInitial allocInitial allocTargets sumToAdd))
  = length allocTargets
  /\ Forall (fun x => (x <? 0) = false)
       (sumDivided (subdivision sumInitial allocInitial allocTargets sumToAdd)).
Proof.
  rewrite subdivision_sumDivided. split.
  - now rewrite length_map, length_mapi.
  - apply Forall_map, Forall_forall. intros x _. apply positivePart_not_negative.
Qed.

(** What the function returns is the array of a state reached from the
    [forEach] by turns of the [for] loop. *)
Lemma iterative_result (P : state -> Prop) (fuel : nat) (sumInitial : number)
    (allocInitial allocTargets : list number) (sumToAdd : number) (adj : list number) :
  (forall single i st, P st -> P (redistribute single i st)) ->
  P (subdivision sumInitial allocInitial allocTargets sumToAdd) ->
  rebalanceWithoutNegativeRebalancing fuel sumInitial allocInitial allocTargets sumToAdd
  = Some adj ->
  exists st, P st /\ adj = sumDivided st.
Proof.
  intros Hstep Hinit. unfold rebalanceWithoutNegativeRebalancing.
  destruct (reimainingToDistribute _ <? 0).
  - destruct (whileLoop fuel _) as [st'|] eqn:Hrun; [|discriminate].
    cbn. intro H. injection H as <-. exists st'. split; [|reflexivity].
    eapply whileLoop_preserves_turns; eauto.
  - intro H. injection H as <-. eauto.
Qed.

End IterativeInvariants.

(** X14.  Whenever the iterative variant returns, on any arguments, it
    returns one adjustment for each target, and no adjustment is negative:
    it never tells to sell. *)
Theorem iterative_shape (fuel : nat) (sumInitial : number)
    (allocInitial allocTargets : list number) (sumToAdd : number) (adj : list number) :
  Iterative.rebalanceWithoutNegativeRebalancing fuel sumInitial allocInitial
    allocTargets sumToAdd = Some adj ->
  length adj = length allocTargets
  /\ Forall (fun x => (x <? 0)%js = false) adj.
Proof.
  intro Hrun.
  destruct (subdivision_state sumInitial allocInitial allocTargets sumToAdd)
    as [Hlen Hall].
  destruct (iterative_result
              (fun st => length (Iterative.sumDivided st) = length allocTargets
                         /\ Forall (fun x => (x <? 0)%js = false)
                              (Iterative.sumDivided st))
              fuel sumInitial allocInitial allocTargets sumToAdd adj)
    as [st [[H1 H2] ->]]; auto.
  intros single i st [H1 H2]. split.
  - now rewrite redistribute_length.
  - now apply redistribute_not_negative.
Qed.

Lemma iterative_shape_witness :
  length (finite [q 2 1; q 0 1; q 0 1]) = 3%nat
  /\ Forall (fun x => (x <? 0)%js = false) (finite [q 2 1; q 0 1; q 0 1]).
Proof.
  apply (iterative_shape 4 (Fin (q 8 1)) (finite [q 1 4; q 1 4; q 1 2])
           (finite [q 1 2; q 3 10; q 1 5]) (Fin (q 2 1))).
  array_eval.
Defined.



(** ** The iterative variant on a deposit *)

Section SetAtQ.

Local Open Scope Qc_scope.

Lemma set_at_finite (l : list Qc) (i : nat) (y : Qc) :
  set_at (finite l) i (Fin y) = finite (set_atQ l i y).
Proof.
  revert i. induction l as [|x l IH]; intros [|i]; cbn; try reflexivity.
  f_equal. apply IH.
Qed.

Lemma length_set_atQ (l : list Qc) (i : nat) (y : Qc) :
  length (set_atQ l i y) = length l.
Proof. revert i. induction l as [|x l IH]; intros [|i]; cbn; auto. Qed.

Lemma nth_set_atQ_same (l : list Qc) (i : nat) (y : Qc) :
  (i < length l)%nat -> nth i (set_atQ l i y) 0 = y.
Proof.
  revert i. induction l as [|x l IH]; intros [|i] Hi; cbn in *; try lia.
  - reflexivity.
  - apply IH. lia.
Qed.

Lemma nth_set_atQ_other (l : list Qc) (i j : nat) (y : Qc) :
  j <> i -> nth j (set_atQ l i y) 0 = nth j l 0.
Proof.
  revert i j. induction l as [|x l IH]; intros [|i] [|j] Hne; cbn;
    try reflexivity; try congruence.
  apply IH. congruence.
Qed.

Lemma sumQc_set_atQ (l : list Qc) (i : nat) (y : Qc) :
  (i < length l)%nat -> sumQc (set_atQ l i y) = sumQc l - nth i l 0 + y.
Proof.
  revert i. induction l as [|x l IH]; intros [|i] Hi; cbn in *; try lia.
  - ring.
  - rewrite IH by lia. ring.
Qed.

Lemma get_finite (l : list Qc) (i : nat) :
  (i < length l)%nat -> get (finite l) i = Fin (nth i l 0).
Proof.
  intro Hi. unfold get, finite.
  rewrite (nth_indep _ NaN (Fin 0)) by now rewrite length_map.
  apply (map_nth Fin).
Qed.

Lemma nth_nonneg (l : list Qc) (j : nat) :
  Forall (fun x => 0 <= x) l -> 0 <= nth j l 0.
Proof.
  intro H. revert j. induction H as [|x l Hx _ IH]; intros [|j]; cbn;
    auto using Qcle_refl.
Qed.

Lemma nth_nonneg_Forall (l : list Qc) :
  (forall j, 0 <= nth j l 0) -> Forall (fun x => 0 <= x) l.
Proof.
  induction l as [|x l IH]; intro H; constructor.
  - apply (H 0%nat).
  - apply IH. intro j. apply (H (S j)).
Qed.

Lemma sumQc_all_zero (l : list Qc) :
  (forall j, 0 <= nth j l 0) -> (forall j, ~ 0 < nth j l 0) -> sumQc l = 0.
Proof.
  induction l as [|x l IH]; intros Hge Hle; cbn; [reflexivity|].
  rewrite IH.
  - assert (Hx : x = 0).
    { apply Qcle_antisym; [|apply (Hge 0%nat)].
      apply Qcnot_lt_le. apply (Hle 0%nat). }
    rewrite Hx. ring.
  - intro j. apply (Hge (S j)).
  - intro j. apply (Hle (S j)).
Qed.

Lemma of_nat_mul_nonpos (m : nat) (s : Qc) :
  s < 0 -> Q2Qc (inject_Z (Z.of_nat m)) * s <= 0.
Proof.
  intro Hs. apply Qcopp_nonpos.
  replace (- (Q2Qc (inject_Z (Z.of_nat m)) * s))
    with (Q2Qc (inject_Z (Z.of_nat m)) * - s) by ring.
  apply Qcmult_nonneg; [apply of_nat_nonneg|].
  apply Qclt_le_weak. now apply Qcopp_pos.
Qed.

Lemma of_nat_succ_mul (m : nat) (s : Qc) :
  Q2Qc (inject_Z (Z.of_nat (S m))) * s = Q2Qc (inject_Z (Z.of_nat m)) * s + s.
Proof. rewrite of_nat_succ. ring. Qed.

End SetAtQ.

Section Distributing.

Import Iterative.
Local Open Scope Qc_scope.

Local Abbreviation natQ n := (Q2Qc (inject_Z (Z.of_nat n))).

Variables (total : Qc) (sd0 : list Qc).

Lemma in_set_delete (i k : nat) (s : list nat) :
  In k (set_delete i s) <-> In k s /\ k <> i.
Proof.
  unfold set_delete. rewrite filter_In. split; intros [H1 H2]; split; auto.
  - intro E. subst k. now rewrite Nat.eqb_refl in H2.
  - now apply negb_true_iff, Nat.eqb_neq.
Qed.

(** Writing at [i] a sum [y] between zero and the sum it replaces, with
    what is taken from the entry added to what remains. *)
Lemma distributing_update (sd : list Qc) (idx idx' : list nat) (r r' y : Qc) (i : nat) :
  length sd = length sd0 ->
  (forall j, 0 <= nth j sd 0 <= nth j sd0 0) ->
  sumQc sd + r = total ->
  (forall k, In k idx -> (k < length sd)%nat) ->
  (forall j, 0 < nth j sd 0 -> In j idx) ->
  (i < length sd)%nat ->
  0 <= y <= nth i sd 0 ->
  r' <= 0 ->
  y + r' = nth i sd 0 + r ->
  incl idx' idx ->
  (forall j, j <> i -> In j idx -> In j idx') ->
  (0 < y -> In i idx') ->
  distributing total sd0 (mkState (finite (set_atQ sd i y)) idx' (Fin r')).
Proof.
  intros Hlen Hb Hsum Hrange Hpos Hi [Hy0 Hy1] Hr' Heq Hincl Hkeep Hnew.
  exists (set_atQ sd i y), r'. cbn [sumDivided indexesRedistribution reimainingToDistribute].
  split; [reflexivity|]. split; [reflexivity|].
  split; [now rewrite length_set_atQ|].
  assert (Hnth : forall j, nth j (set_atQ sd i y) 0
                           = if Nat.eq_dec j i then y else nth j sd 0).
  { intro j. destruct (Nat.eq_dec j i) as [->|Hne].
    - now apply nth_set_atQ_same.
    - now apply nth_set_atQ_other. }
  split.
  { intro j. rewrite Hnth. destruct (Nat.eq_dec j i) as [->|Hne]; [|apply Hb].
    split; [assumption|]. eapply Qcle_trans; [exact Hy1 | apply Hb]. }
  split; [assumption|].
  split.
  { rewrite sumQc_set_atQ by assumption. rewrite <- Hsum.
    replace (sumQc sd - nth i sd 0 + y + r') with (sumQc sd + (y + r') - nth i sd 0)
      by ring.
    rewrite Heq. ring. }
  split.
  { intros k Hk. rewrite length_set_atQ. apply Hrange. now apply Hincl. }
  intros j Hj. rewrite Hnth in Hj. destruct (Nat.eq_dec j i) as [->|Hne].
  - now apply Hnew.
  - apply Hkeep; [assumption|]. now apply Hpos.
Qed.

Lemma remaining_after_full (s r M : Qc) :
  s < 0 -> r <= M + s -> M <= 0 -> r + - s <= M /\ r + - s <= 0.
Proof. intros. qc_to_q. split; lra. Qed.

Lemma remaining_after_part (x s r M : Qc) :
  x + s < 0 -> r <= M + s -> M <= 0 ->
  r + - (s + - (x + s)) <= M /\ r + - (s + - (x + s)) <= 0.
Proof. intros. qc_to_q. split; lra. Qed.

(** A turn of the [for] loop on an index inside the array. *)
Lemma redistribute_keeps (s : Qc) (i m : nat) (st : state) :
  s < 0 ->
  distributing total sd0 st ->
  (i < length sd0)%nat ->
  (forall r, reimainingToDistribute st = Fin r -> r <= natQ (S m) * s) ->
  distributing total sd0 (redistribute (Fin s) i st)
  /\ (forall r, reimainingToDistribute (redistribute (Fin s) i st) = Fin r ->
                r <= natQ m * s).
Proof.
  intros Hs [sd [r [Hsd [Hrem [Hlen [Hb [Hr [Hsum [Hrange Hpos]]]]]]]]] Hi Hbound.
  specialize (Hbound r Hrem). rewrite of_nat_succ_mul in Hbound.
  pose proof (of_nat_mul_nonpos m s Hs) as Hm.
  set (M := natQ m * s) in *. clearbody M.
  assert (Hi' : (i < length sd)%nat) by lia.
  destruct (Hb i) as [Hx0 Hx1].
  unfold redistribute. rewrite Hsd, Hrem, (get_finite sd i Hi').
  set (x := nth i sd 0) in *.
  cbn [Num.add Num.geb Num.leb Num.zero].
  destruct (Qcleb_spec 0 (x + s)) as [Heff|Heff];
    cbn [sumDivided indexesRedistribution reimainingToDistribute
         Num.sub Num.add Num.neg].
  - rewrite set_at_finite, get_finite by (rewrite length_set_atQ; lia).
    rewrite nth_set_atQ_same by lia. cbn [Num.leb Num.zero].
    destruct (remaining_after_full s r M Hs Hbound Hm) as [Hr1 Hr2].
    assert (Hy : 0 <= x + s <= x) by (split; [assumption | qc_to_q; lra]).
    destruct (Qcleb_spec (x + s) 0) as [Hz|Hz];
      cbn [sumDivided indexesRedistribution reimainingToDistribute].
    + split; [|intros r0 E; injection E as <-; exact Hr1].
      apply (distributing_update sd (indexesRedistribution st) _ r); auto.
      * unfold x. ring.
      * intros k Hk. now apply in_set_delete in Hk.
      * intros j Hne Hj. now apply in_set_delete.
      * intro Hpos'. destruct (Qcle_not_lt _ _ Hz Hpos').
    + split; [|intros r0 E; injection E as <-; exact Hr1].
      apply (distributing_update sd (indexesRedistribution st) _ r); auto.
      * unfold x. ring.
      * apply incl_refl.
      * intros _. apply Hpos. fold x.
        apply Qcnot_le_lt in Hz. qc_to_q. lra.
  - apply Qcnot_le_lt in Heff. unfold Num.zero.
    rewrite set_at_finite, get_finite by (rewrite length_set_atQ; lia).
    rewrite nth_set_atQ_same by lia. cbn [Num.leb Num.zero].
    rewrite (Qcleb_true 0 0) by apply Qcle_refl.
    cbn [sumDivided indexesRedistribution reimainingToDistribute].
    destruct (remaining_after_part x s r M Heff Hbound Hm) as [Hr1 Hr2].
    split; [|intros r0 E; injection E as <-; exact Hr1].
    apply (distributing_update sd (indexesRedistribution st) _ r); auto.
    + split; [apply Qcle_refl | assumption].
    + unfold x. ring.
    + intros k Hk. now apply in_set_delete in Hk.
    + intros j Hne Hj. now apply in_set_delete.
    + intro Hpos'. destruct (Qclt_irrefl _ Hpos').
Qed.

Lemma forLoop_keeps (s : Qc) (todo : list nat) :
  s < 0 ->
  forall st : state,
    distributing total sd0 st ->
    (forall i, In i todo -> (i < length sd0)%nat) ->
    (forall r, reimainingToDistribute st = Fin r -> r <= natQ (length todo) * s) ->
    distributing total sd0 (forLoop (Fin s) todo st).
Proof.
  intro Hs. induction todo as [|i todo IH]; intros st Hst Htodo Hbound;
    cbn [forLoop]; [exact Hst|].
  destruct (redistribute_keeps s i (length todo) st Hs Hst) as [Hst' Hbound'].
  - apply Htodo. now left.
  - exact Hbound.
  - destruct (reimainingToDistribute (redistribute (Fin s) i st) >=? 0)%js;
      [exact Hst'|].
    apply IH; auto. intros j Hj. apply Htodo. now right.
Qed.

Lemma pass_keeps (st : state) :
  continues st = true -> distributing total sd0 st -> distributing total sd0 (pass st).
Proof.
  intros Hc Hst. apply continues_inv in Hc as [Hneg Hsize].
  pose proof Hst as [sd [r [Hsd [Hrem [Hlen [Hb [Hr [Hsum [Hrange Hpos]]]]]]]]].
  rewrite Hrem in Hneg. cbn in Hneg.
  destruct (Qcltb_spec r 0) as [Hr'|]; [|discriminate].
  unfold pass. rewrite Hrem. unfold Num.of_nat.
  rewrite div_fin by now apply of_nat_nonzero.
  apply forLoop_keeps; auto.
  - now apply single_negative.
  - intros i Hi. rewrite <- Hlen. now apply Hrange.
  - intros r0 E. rewrite Hrem in E. injection E as <-.
    replace (natQ (length (indexesRedistribution st))
             * (r / natQ (length (indexesRedistribution st)))) with r
      by (field; now apply of_nat_nonzero).
    apply Qcle_refl.
Qed.

(** When the loop has ended and the sum to distribute is positive, nothing
    remains to distribute. *)
Lemma distributing_end (st : state) :
  0 < total -> distributing total sd0 st -> continues st = false ->
  exists adj : list Qc,
    sumDivided st = finite adj
    /\ length adj = length sd0
    /\ (forall j, 0 <= nth j adj 0 <= nth j sd0 0)
    /\ sumQc adj = total.
Proof.
  intros Htotal [sd [r [Hsd [Hrem [Hlen [Hb [Hr [Hsum [Hrange Hpos]]]]]]]]] Hc.
  exists sd. repeat split; auto; try apply Hb.
  assert (Hr0 : r = 0).
  { unfold continues in Hc. rewrite Hrem in Hc. cbn in Hc.
    destruct (Qcltb_spec r 0) as [|Hn]; cbn in Hc.
    - destruct (length (indexesRedistribution st)) eqn:El; [|discriminate].
      apply length_zero_iff_nil in El. rename El into Hnil.
      assert (Hzero : sumQc sd = 0).
      { apply sumQc_all_zero; [intro j; apply Hb|].
        intros j Hj. apply Hpos in Hj. now rewrite Hnil in Hj. }
      rewrite Hzero in Hsum. exfalso.
      assert (Hrt : r = total) by (rewrite <- Hsum; ring).
      rewrite Hrt in Hr. exact (Qcle_not_lt _ _ Hr Htotal).
    - apply Qcle_antisym; [assumption | now apply Qcnot_lt_le]. }
  rewrite <- Hsum, Hr0. ring.
Qed.

End Distributing.

Section IterativeDeposit.

Import Iterative.
Local Open Scope Qc_scope.

Lemma positivePartQ_nonneg (x : Qc) : 0 <= positivePartQ x.
Proof.
  unfold positivePartQ. destruct (Qcleb_spec x 0) as [|Hn]; [apply Qcle_refl|].
  apply Qclt_le_weak. now apply Qcnot_le_lt.
Qed.

Lemma nonPositiveSum_nonpos (l : list Qc) : nonPositiveSum l <= 0.
Proof.
  unfold nonPositiveSum. apply Qcopp_nonpos. rewrite <- sumQc_opp.
  apply sumQc_nonneg, Forall_map, Forall_forall.
  intros x Hx. apply filter_In in Hx as [_ Hx].
  apply Qcopp_nonneg. now destruct (Qcleb_spec x 0).
Qed.

Lemma positions_from_range (l : list Qc) :
  forall k i, In i (positions_from k l) -> (k <= i < k + length l)%nat.
Proof.
  induction l as [|x l IH]; intros k i Hin; cbn in *; [destruct Hin|].
  destruct (Num.Qcleb x 0).
  - apply IH in Hin. lia.
  - destruct Hin as [<-|Hin]; [lia|]. apply IH in Hin. lia.
Qed.

Lemma length_positions_from_le (l : list Qc) (k : nat) :
  (length (positions_from k l) <= length l)%nat.
Proof.
  revert k. induction l as [|x l IH]; intro k; cbn; [lia|].
  specialize (IH (S k)). destruct (Num.Qcleb x 0); cbn; lia.
Qed.

Lemma positive_in_positions (l : list Qc) :
  forall k j, 0 < nth j (map positivePartQ l) 0 -> In (k + j)%nat (positions_from k l).
Proof.
  induction l as [|x l IH]; intros k j Hj.
  - destruct j; cbn in Hj; destruct (Qclt_irrefl _ Hj).
  - cbn [positions_from]. destruct j as [|j]; cbn [map nth] in Hj.
    + unfold positivePartQ in Hj. destruct (Num.Qcleb x 0).
      * destruct (Qclt_irrefl _ Hj).
      * left. lia.
    + replace (k + S j)%nat with (S k + j)%nat by lia.
      destruct (Num.Qcleb x 0); [|right]; now apply IH.
Qed.

(** The state after the [forEach], on finite arguments. *)
Lemma subdivision_finite (T : Qc) (cur ts : list Qc) (d : Qc) :
  length cur = length ts ->
  subdivision (Fin T) (finite cur) (finite ts) (Fin d)
  = mkState (finite (map positivePartQ (rebalanceQ T cur ts d)))
      (positions_from 0 (rebalanceQ T cur ts d))
      (Fin (nonPositiveSum (rebalanceQ T cur ts d))).
Proof.
  intro Hlen. set (l := rebalanceQ T cur ts d).
  pose proof (subdivision_sumDivided (Fin T) (finite cur) (Fin d) (finite ts)) as Hsd.
  rewrite subdivisions_finite in Hsd by assumption. fold l in Hsd.
  rewrite (map_finite positivePart positivePartQ l positivePart_fin) in Hsd.
  assert (Hst : indexesRedistribution
                  (subdivision (Fin T) (finite cur) (finite ts) (Fin d))
                = [] ++ positions_from 0 l
                /\ reimainingToDistribute
                     (subdivision (Fin T) (finite cur) (finite ts) (Fin d))
                   = Fin (0 + nonPositiveSum l)).
  { apply (forEach_from_finite (Fin T) (finite cur) (Fin d) (finite ts) l 0
             (repeat NaN (length (finite ts))) [] 0).
    - apply (subdivisions_finite T cur ts d Hlen).
    - intros j []. }
  destruct Hst as [Hidx Hrem]. cbn [app] in Hidx. rewrite Qcplus_0_l in Hrem.
  rewrite (state_eta (subdivision (Fin T) (finite cur) (finite ts) (Fin d))).
  now rewrite Hsd, Hidx, Hrem.
Qed.

Lemma subdivision_distributing (l : list Qc) :
  distributing (sumQc l) (map positivePartQ l)
    (mkState (finite (map positivePartQ l)) (positions_from 0 l)
       (Fin (nonPositiveSum l))).
Proof.
  exists (map positivePartQ l), (nonPositiveSum l).
  cbn [sumDivided indexesRedistribution reimainingToDistribute].
  split; [reflexivity|]. split; [reflexivity|]. split; [reflexivity|].
  split.
  { intro j. split; [|apply Qcle_refl].
    apply nth_nonneg, Forall_map, Forall_forall.
    intros x _. apply positivePartQ_nonneg. }
  split; [apply nonPositiveSum_nonpos|].
  split; [symmetry; apply sumQc_parts|].
  split.
  - intros i Hi. apply positions_from_range in Hi. rewrite length_map. lia.
  - intros j Hj. apply (positive_in_positions l 0 j Hj).
Qed.

(** The iterative variant when the subdivisions have a positive sum: it
    returns, and what it returns has that sum, with every entry between
    zero and the positive part of its subdivision. *)
Lemma iterative_deposit (fuel : nat) (T : Qc) (cur ts : list Qc) (d : Qc) :
  length cur = length ts ->
  0 < sumQc (rebalanceQ T cur ts d) ->
  (length ts < fuel)%nat ->
  exists adj : list Qc,
    Iterative.rebalanceWithoutNegativeRebalancing fuel (Fin T) (finite cur)
      (finite ts) (Fin d)
    = Some (finite adj)
    /\ length adj = length (rebalanceQ T cur ts d)
    /\ (forall j, 0 <= nth j adj 0
                  <= nth j (map positivePartQ (rebalanceQ T cur ts d)) 0)
    /\ sumQc adj = sumQc (rebalanceQ T cur ts d).
Proof.
  intros Hlen Htotal Hfuel. set (l := rebalanceQ T cur ts d) in *.
  unfold Iterative.rebalanceWithoutNegativeRebalancing.
  rewrite (subdivision_finite T cur ts d Hlen). fold l.
  set (st0 := mkState (finite (map positivePartQ l)) (positions_from 0 l)
                (Fin (nonPositiveSum l))).
  pose proof (subdivision_distributing l) as H0. fold st0 in H0.
  assert (Hend : forall st, distributing (sumQc l) (map positivePartQ l) st ->
                            continues st = false ->
                            exists adj : list Qc,
                              Some (sumDivided st) = Some (finite adj)
                              /\ length adj = length l
                              /\ (forall j, 0 <= nth j adj 0
                                            <= nth j (map positivePartQ l) 0)
                              /\ sumQc adj = sumQc l).
  { intros st Hst Hc.
    destruct (distributing_end (sumQc l) (map positivePartQ l) st Htotal Hst Hc)
      as [adj [E [Hl [Hb Hs]]]].
    exists adj. rewrite E, Hl, length_map. auto. }
  destruct (reimainingToDistribute st0 <? 0)%js eqn:Hneg.
  - destruct (whileLoop_terminates fuel st0) as [st' Hrun].
    { cbn [st0 indexesRedistribution].
      pose proof (length_positions_from_le l 0) as Hle.
      assert (Hll : length l = length ts).
      { unfold l, rebalanceQ. rewrite length_zipWith; auto. }
      lia. }
    rewrite Hrun. cbn [option_map].
    destruct (whileLoop_preserves (distributing (sumQc l) (map positivePartQ l))
                (pass_keeps (sumQc l) (map positivePartQ l)) fuel st0 st' Hrun H0)
      as [Hst' Hc].
    now apply Hend.
  - apply Hend; [assumption|]. unfold continues. now rewrite Hneg.
Qed.

Lemma Forall2_of_nth (P : Qc -> Qc -> Prop) (adj : list Qc) :
  forall l : list Qc,
    length adj = length l ->
    (forall j, (j < length l)%nat -> P (nth j adj 0) (nth j l 0)) ->
    Forall2 P adj l.
Proof.
  induction adj as [|a adj IH]; intros [|x l] Hlen H; cbn in Hlen;
    try discriminate; constructor.
  - apply (H 0%nat). cbn. lia.
  - apply IH; [lia|]. intros j Hj. apply (H (S j)). cbn. lia.
Qed.

Lemma nth_positive_parts (l : list Qc) (j : nat) :
  nth j (map positivePartQ l) 0 = positivePartQ (nth j l 0).
Proof. exact (map_nth positivePartQ l 0 j). Qed.

Lemma below_positive_part (a x : Qc) :
  0 <= a <= positivePartQ x -> 0 <= a /\ (x <= 0 -> a = 0) /\ (0 <= x -> a <= x).
Proof.
  unfold positivePartQ. intros [Ha Hx]. split; [assumption|].
  destruct (Qcleb_spec x 0) as [Hle|Hn].
  - assert (E : a = 0) by now apply Qcle_antisym. split; [auto|].
    intros Hx0. rewrite E. assumption.
  - split; [|auto]. intro Hle. contradiction.
Qed.

End IterativeDeposit.

(** X16.  The iterative variant on a deposit.  With a current and a target
    allocation of the same length that each sum to 1, [sumToAdd > 0] and
    more passes allowed than there are targets, the function returns
    adjustments that are not negative and sum to [sumToAdd], whatever
    [sumInitial] is. *)
Theorem iterative_distributes_deposit (fuel : nat) (T : Qc) (cur ts : list Qc) (d : Qc) :
  length cur = length ts ->
  sumQc cur = 1%Qc ->
  sumQc ts = 1%Qc ->
  (0 < d)%Qc ->
  (length ts < fuel)%nat ->
  exists adj : list Qc,
    Iterative.rebalanceWithoutNegativeRebalancing fuel (Fin T) (finite cur)
      (finite ts) (Fin d)
    = Some (finite adj)
    /\ Forall (fun a => 0 <= a)%Qc adj
    /\ sumQc adj = d
    /\ kahanSum (finite adj) = Fin d.
Proof.
  intros Hlen Hcur Hts Hd Hfuel.
  assert (Hsum : sumQc (rebalanceQ T cur ts d) = d).
  { rewrite sumQc_rebalanceQ, Hcur, Hts by assumption. ring. }
  destruct (iterative_deposit fuel T cur ts d Hlen) as [adj [Hrun [_ [Hb Hs]]]];
    [now rewrite Hsum | assumption |].
  exists adj. split; [assumption|].
  split; [apply nth_nonneg_Forall; intro j; apply Hb|].
  rewrite Hsum in Hs. split; [assumption|].
  now rewrite kahanSum_finite, Hs.
Qed.

Lemma iterative_distributes_deposit_witness :
  exists adj : list Qc,
    Iterative.rebalanceWithoutNegativeRebalancing 4 (Fin (q 17000 1))
      (finite [q 6 17; q 5 17; q 6 17]) (finite [q 3 10; q 1 2; q 1 5])
      (Fin (q 10000 1))
    = Some (finite adj)
    /\ Forall (fun a => 0 <= a)%Qc adj
    /\ sumQc adj = q 10000 1
    /\ kahanSum (finite adj) = Fin (q 10000 1).
Proof.
  apply (iterative_distributes_deposit 4 (q 17000 1) [q 6 17; q 5 17; q 6 17]
           [q 3 10; q 1 2; q 1 5] (q 10000 1)).
  - reflexivity.
  - qc_eval.
  - qc_eval.
  - qc_eval.
  - cbn. lia.
Defined.

(** X17.  The iterative variant never overshoots.  Under the same
    conditions, compared with what [rebalance] returns on the same
    arguments, every adjustment is zero where [rebalance] does not tell to
    buy, and at most what [rebalance] tells to buy elsewhere. *)
Theorem iterative_never_overshoots (fuel : nat) (T : Qc) (cur ts : list Qc) (d : Qc) :
  length cur = length ts ->
  sumQc cur = 1%Qc ->
  sumQc ts = 1%Qc ->
  (0 < d)%Qc ->
  (length ts < fuel)%nat ->
  exists adj u : list Qc,
    Iterative.rebalanceWithoutNegativeRebalancing fuel (Fin T) (finite cur)
      (finite ts) (Fin d)
    = Some (finite adj)
    /\ rebalance (Fin T) (finite cur) (finite ts) (Fin d) = Ok (finite u)
    /\ Forall2 (fun a x => 0 <= a /\ (x <= 0 -> a = 0) /\ (0 <= x -> a <= x))%Qc
         adj u.
Proof.
  intros Hlen Hcur Hts Hd Hfuel.
  assert (Hsum : sumQc (rebalanceQ T cur ts d) = d).
  { rewrite sumQc_rebalanceQ, Hcur, Hts by assumption. ring. }
  destruct (iterative_deposit fuel T cur ts d Hlen) as [adj [Hrun [Hl [Hb _]]]];
    [now rewrite Hsum | assumption |].
  exists adj, (rebalanceQ T cur ts d).
  split; [assumption|]. split; [now apply rebalance_finite|].
  apply Forall2_of_nth; [assumption|].
  intros j _. apply below_positive_part.
  specialize (Hb j).
  now rewrite nth_positive_parts in Hb.
Qed.

Lemma iterative_never_overshoots_witness :
  exists adj u : list Qc,
    Iterative.rebalanceWithoutNegativeRebalancing 4 (Fin (q 17000 1))
      (finite [q 6 17; q 5 17; q 6 17]) (finite [q 3 10; q 1 2; q 1 5])
      (Fin (q 10000 1))
    = Some (finite adj)
    /\ rebalance (Fin (q 17000 1)) (finite [q 6 17; q 5 17; q 6 17])
         (finite [q 3 10; q 1 2; q 1 5]) (Fin (q 10000 1))
       = Ok (finite u)
    /\ Forall2 (fun a x => 0 <= a /\ (x <= 0 -> a = 0) /\ (0 <= x -> a <= x))%Qc
         adj u.
Proof.
  apply (iterative_never_overshoots 4 (q 17000 1) [q 6 17; q 5 17; q 6 17]
           [q 3 10; q 1 2; q 1 5] (q 10000 1)).
  - reflexivity.
  - qc_eval.
  - qc_eval.
  - qc_eval.
  - cbn. lia.
Defined.

(** ** Printing *)

Section PrintingFacts.

Variable toString : number -> string.

Local Open Scope string_scope.

Lemma resultRow_ok (sumsDivided allocFinalSums allocInitial allocFinal : list number)
    (index : nat) (input : Allocation) :
  exists row,
    resultRow sumsDivided allocFinalSums allocInitial allocFinal index input = Ok row
    /\ TableRow.name row = name input
    /\ TableRow.allocationTarget row = allocationTarget input.
Proof. unfold resultRow. cbn. eexists. split; [reflexivity|]. split; reflexivity. Qed.

Lemma mapi_result_from_ok {A B : Type} (f : nat -> A -> result B) (g : A -> B -> Prop)
    (l : list A) :
  (forall k x, exists y, f k x = Ok y /\ g x y) ->
  forall k, exists ys, mapi_result_from k f l = Ok ys /\ Forall2 g l ys.
Proof.
  intro Hf. induction l as [|x l IH]; intro k; cbn.
  - exists []. split; [reflexivity | constructor].
  - destruct (Hf k x) as [y [-> Hy]]. destruct (IH (S k)) as [ys [-> Hys]].
    exists (y :: ys). split; [reflexivity | now constructor].
Qed.

Lemma displayResults_ok (inputs : list Allocation) (sumsDivided allocInitial : list number) :
  length inputs = length sumsDivided ->
  length allocInitial = length inputs ->
  exists rows,
    displayResults toString inputs sumsDivided allocInitial
    = ([Log ("Final sum: "
             ++ toString
                  (kahanSum
                     (mapi (fun index input => (value input + get sumsDivided index)%js)
                        inputs)));
        TableOfResults rows], Ok tt)
    /\ Forall2 (fun input row => TableRow.name row = name input
                                 /\ TableRow.allocationTarget row = allocationTarget input)
         inputs rows.
Proof.
  intros H1 H2. unfold displayResults.
  replace (Nat.eqb (length inputs) (length sumsDivided)
           && Nat.eqb (length allocInitial) (length inputs))%bool with true
    by (now rewrite <- H1, H2, !Nat.eqb_refl).
  cbn [andb assert ret bind console_log lift app].
  match goal with
  | |- context [mapi_result_from 0 ?f inputs] =>
      destruct (mapi_result_from_ok f
                  (fun input row => TableRow.name row = name input
                                    /\ TableRow.allocationTarget row = allocationTarget input)
                  inputs) with (k := 0%nat) as [rows [E Hrows]]
  end.
  - intros k x. apply resultRow_ok.
  - rewrite E. exists rows. split; [reflexivity | assumption].
Qed.

Lemma displayResults_fails (inputs : list Allocation) (sumsDivided allocInitial : list number) :
  length inputs <> length sumsDivided \/ length allocInitial <> length inputs ->
  displayResults toString inputs sumsDivided allocInitial
  = ([], AssertionError same_length_message).
Proof.
  intro H. unfold displayResults.
  replace (Nat.eqb (length inputs) (length sumsDivided)
           && Nat.eqb (length allocInitial) (length inputs))%bool with false.
  - reflexivity.
  - symmetry. apply andb_false_iff.
    destruct H as [H|H]; [left | right]; now apply Nat.eqb_neq.
Qed.

End PrintingFacts.

Section MainFacts.

Variable toString : number -> string.

Local Open Scope string_scope.

Lemma main_after_checks (inputs : list Allocation) (sumToAdd : number) :
  checks inputs sumToAdd = true ->
  exists (adj1 adj2 : list number) (rows1 rows2 : list TableRow.t),
    rebalance (fst (calculateAllocation (map value inputs)))
      (snd (calculateAllocation (map value inputs)))
      (map allocationTarget inputs) sumToAdd
    = Ok adj1
    /\ TwoPass.rebalanceWithoutNegativeRebalancing (map value inputs)
         (map allocationTarget inputs) sumToAdd
       = Ok adj2
    /\ displayResults toString inputs adj1 (snd (calculateAllocation (map value inputs)))
       = ([Log ("Final sum: "
                ++ toString
                     (kahanSum
                        (mapi (fun index input => (value input + get adj1 index)%js)
                           inputs)));
           TableOfResults rows1], Ok tt)
    /\ displayResults toString inputs adj2 (snd (calculateAllocation (map value inputs)))
       = ([Log ("Final sum: "
                ++ toString
                     (kahanSum
                        (mapi (fun index input => (value input + get adj2 index)%js)
                           inputs)));
           TableOfResults rows2], Ok tt)
    /\ main toString inputs sumToAdd
       = (written toString inputs sumToAdd
            (fst (displayResults toString inputs adj1
                    (snd (calculateAllocation (map value inputs)))))
            (fst (displayResults toString inputs adj2
                    (snd (calculateAllocation (map value inputs))))),
          Ok tt).
Proof.
  intro Hc. unfold checks in Hc.
  apply andb_prop in Hc as [Hc H5]. apply andb_prop in Hc as [Hc H4].
  apply andb_prop in Hc as [Hc H3]. apply andb_prop in Hc as [H1 H2].
  assert (Hlen : length (snd (calculateAllocation (map value inputs)))
                 = length (map allocationTarget inputs)).
  { unfold calculateAllocation. cbn [snd]. now rewrite !length_map. }
  destruct (proj1 (checked_shapes (fst (calculateAllocation (map value inputs)))
                     (snd (calculateAllocation (map value inputs)))
                     (map allocationTarget inputs) sumToAdd) Hlen)
    as [[adj1 [E1 L1]] _].
  destruct (proj1 (checked_shapes (fst (calculateAllocation (map value inputs)))
                     (map value inputs)
                     (map allocationTarget inputs) sumToAdd))
    as [_ [adj2 [E2 L2]]]; [now rewrite !length_map|].
  rewrite length_map in L1, L2.
  destruct (displayResults_ok toString inputs adj1
              (snd (calculateAllocation (map value inputs))))
    as [rows1 [D1 _]]; [congruence | rewrite Hlen; apply length_map |].
  destruct (displayResults_ok toString inputs adj2
              (snd (calculateAllocation (map value inputs))))
    as [rows2 [D2 _]]; [congruence | rewrite Hlen; apply length_map |].
  exists adj1, adj2, rows1, rows2.
  split; [assumption|]. split; [assumption|]. split; [assumption|].
  split; [assumption|].
  unfold main. rewrite H1, H2, H3, H4, H5.
  change (map (fun value0 => (value0 / kahanSum (map value inputs))%js)
            (map value inputs))
    with (snd (calculateAllocation (map value inputs))).
  change (kahanSum (map value inputs))
    with (fst (calculateAllocation (map value inputs))) at 2.
  rewrite E1, E2.
  cbn [assert ret bind console_log lift app].
  rewrite D1. cbn [assert ret bind console_log lift app].
  rewrite D2. reflexivity.
Qed.

Lemma main_without_checks (inputs : list Allocation) (sumToAdd : number) :
  checks inputs sumToAdd = false ->
  exists message, main toString inputs sumToAdd = ([], AssertionError message).
Proof.
  intro Hc. unfold checks in Hc. unfold main.
  destruct (Nat.leb 2 (length inputs)); [|eexists; reflexivity].
  destruct (forallb (fun s => (value s >=? 0)%js) inputs); [|eexists; reflexivity].
  destruct (forallb _ inputs); [|eexists; reflexivity].
  destruct (kahanSum (map allocationTarget inputs) === Fin 1%Qc)%js;
    [|eexists; reflexivity].
  destruct (sumToAdd + kahanSum (map value inputs) >=? 0)%js;
    [discriminate | eexists; reflexivity].
Qed.

End MainFacts.

Section FinalSums.

Local Open Scope Qc_scope.

Lemma final_sums_from (inputs : list Allocation) :
  forall (vs adj : list Qc) (pre : list number),
    map value inputs = finite vs ->
    length adj = length vs ->
    mapi_from (length pre)
      (fun index input => (value input + get (pre ++ finite adj) index)%js) inputs
    = finite (zipWith Qcplus vs adj).
Proof.
  induction inputs as [|input inputs IH]; intros [|v vs] [|a adj] pre Hv Hlen;
    cbn in Hv, Hlen; try discriminate; [reflexivity|].
  injection Hv as Hv0 Hv.
  change (finite (a :: adj)) with (Fin a :: finite adj).
  cbn [mapi_from zipWith].
  change (finite (v + a :: zipWith Qcplus vs adj))
    with (Fin (v + a) :: finite (zipWith Qcplus vs adj)).
  f_equal.
  - now rewrite Hv0, get_app_length.
  - replace (S (length pre)) with (length (pre ++ [Fin a]))
      by (rewrite length_app; cbn; lia).
    rewrite <- (IH vs adj (pre ++ [Fin a]) Hv) by lia.
    now rewrite <- app_assoc.
Qed.

Lemma sumQc_zipWith_plus (vs adj : list Qc) :
  length adj = length vs ->
  sumQc (zipWith Qcplus vs adj) = sumQc vs + sumQc adj.
Proof.
  revert adj. induction vs as [|v vs IH]; intros [|a adj] Hlen; cbn in *;
    try discriminate; [ring|].
  rewrite IH by lia. ring.
Qed.

(** The final sum that [displayResults] computes, on finite numbers. *)
Lemma final_sum_finite (inputs : list Allocation) (vs adj : list Qc) :
  map value inputs = finite vs ->
  length adj = length vs ->
  kahanSum (mapi (fun index input => (value input + get (finite adj) index)%js) inputs)
  = Fin (sumQc vs + sumQc adj).
Proof.
  intros Hv Hlen.
  pose proof (final_sums_from inputs vs adj [] Hv Hlen) as E.
  cbn [length app] in E. unfold mapi. rewrite E.
  now rewrite kahanSum_finite, sumQc_zipWith_plus.
Qed.

Lemma twopass_total (vs ts : list Qc) (d : Qc) :
  length vs = length ts -> 0 < sumQc vs -> sumQc ts = 1 ->
  exists adj : list Qc,
    TwoPass.rebalanceWithoutNegativeRebalancing (finite vs) (finite ts) (Fin d)
    = Ok (finite adj)
    /\ length adj = length vs
    /\ sumQc adj = d.
Proof.
  intros Hlen Htotal Hts. destruct (Qc_eq_dec d 0) as [->|Hd].
  - exists (repeat 0 (length vs)). split; [now apply twopass_zero|].
    split; [apply repeat_length | apply sumQc_repeat_zero].
  - pose proof (valid_input_not_degenerate vs ts d Hlen Htotal Hts Hd) as Hex.
    exists (sharesQ (clampedQ vs ts d) d).
    split; [now apply twopass_valid|].
    split.
    + unfold sharesQ, clampedQ, diffQ. rewrite !length_map, length_zipWith; auto.
    + apply sumQc_sharesQ. apply sum_clamped_nonzero; [assumption|].
      now apply agrees_diffQ.
Qed.

End FinalSums.

(** X18.  [displayResults] fails, before it writes anything, exactly when
    its three arrays do not have the same length.  Otherwise, whatever the
    numbers are, it writes the line of the final sum and then a table with
    one row for each input, in the order of the inputs, with the name and
    the target of the input. *)
Theorem displayResults_shape (toString : number -> string)
    (inputs : list Allocation) (sumsDivided allocInitial : list number) :
  (length inputs = length sumsDivided /\ length allocInitial = length inputs ->
   exists rows,
     displayResults toString inputs sumsDivided allocInitial
     = ([Log ("Final sum: "
              ++ toString
                   (kahanSum
                      (mapi (fun index input => (value input + get sumsDivided index)%js)
                         inputs)));
         TableOfResults rows], Ok tt)
     /\ Forall2 (fun input row => TableRow.name row = name input
                                  /\ TableRow.allocationTarget row = allocationTarget input)
          inputs rows)
  /\ (length inputs <> length sumsDivided \/ length allocInitial <> length inputs ->
      displayResults toString inputs sumsDivided allocInitial
      = ([], AssertionError same_length_message)).
Proof.
  split.
  - intros [H1 H2]. now apply displayResults_ok.
  - apply displayResults_fails.
Qed.

Lemma displayResults_shape_witness :
  displayResults (fun _ => ""%string)
    [mkAllocation "a" (Fin (q 1 1)) (Fin (q 1 1))] [] [Fin (q 1 1)]
  = ([], AssertionError same_length_message).
Proof.
  apply (proj2 (displayResults_shape (fun _ => ""%string)
                  [mkAllocation "a" (Fin (q 1 1)) (Fin (q 1 1))] [] [Fin (q 1 1)])).
  left. cbn. lia.
Defined.

(** X19.  [main] can only fail in its five checks, and then it has written
    nothing.  When the checks pass, whatever the numbers are, no assertion
    of [rebalance], of [rebalanceWithoutNegativeRebalancing], of
    [displayResults] or of [truncate] fails: [main] writes the inputs and
    the two results, each with its final sum and a table of one row for
    each input. *)
Theorem main_fails_only_in_checks (toString : number -> string)
    (inputs : list Allocation) (sumToAdd : number) :
  (checks inputs sumToAdd = true ->
   exists (line1 line2 : string) (rows1 rows2 : list TableRow.t),
     main toString inputs sumToAdd
     = (written toString inputs sumToAdd
          [Log line1; TableOfResults rows1] [Log line2; TableOfResults rows2],
        Ok tt)
     /\ length rows1 = length inputs
     /\ length rows2 = length inputs)
  /\ (checks inputs sumToAdd = false ->
      exists message, main toString inputs sumToAdd = ([], AssertionError message)).
Proof.
  split.
  - intro Hc.
    destruct (main_after_checks toString inputs sumToAdd Hc)
      as [adj1 [adj2 [rows1 [rows2 [E1 [E2 [D1 [D2 Hmain]]]]]]]].
    pose proof D1 as D1'. pose proof D2 as D2'.
    destruct (displayResults_ok toString inputs adj1
                (snd (calculateAllocation (map value inputs)))) as [r1 [F1 G1]].
    { apply (f_equal snd) in D1. cbn [snd] in D1.
      destruct (Nat.eq_dec (length inputs) (length adj1)) as [|Hne]; [assumption|].
      rewrite displayResults_fails in D1 by now left. discriminate. }
    { unfold calculateAllocation. cbn [snd]. now rewrite !length_map. }
    destruct (displayResults_ok toString inputs adj2
                (snd (calculateAllocation (map value inputs)))) as [r2 [F2 G2]].
    { apply (f_equal snd) in D2. cbn [snd] in D2.
      destruct (Nat.eq_dec (length inputs) (length adj2)) as [|Hne]; [assumption|].
      rewrite displayResults_fails in D2 by now left. discriminate. }
    { unfold calculateAllocation. cbn [snd]. now rewrite !length_map. }
    rewrite F1, F2 in Hmain. cbn [fst] in Hmain.
    do 2 eexists. exists r1, r2. split; [exact Hmain|].
    split; symmetry; eapply Forall2_length; eassumption.
  - apply main_without_checks.
Qed.

Lemma main_fails_only_in_checks_witness :
  exists (line1 line2 : string) (rows1 rows2 : list TableRow.t),
    main (fun _ => ""%string)
      [mkAllocation "Etf azionari" (Fin (q 60000 1)) (Fin (q 3 10));
       mkAllocation "Fondi pensione" (Fin (q 5000 1)) (Fin (q 1 2));
       mkAllocation "Obbligazioni" (Fin (q 6000 1)) (Fin (q 1 5))]
      (Fin (q 10000 1))
    = (written (fun _ => ""%string)
         [mkAllocation "Etf azionari" (Fin (q 60000 1)) (Fin (q 3 10));
          mkAllocation "Fondi pensione" (Fin (q 5000 1)) (Fin (q 1 2));
          mkAllocation "Obbligazioni" (Fin (q 6000 1)) (Fin (q 1 5))]
         (Fin (q 10000 1))
         [Log line1; TableOfResults rows1] [Log line2; TableOfResults rows2],
       Ok tt)
    /\ length rows1 = 3%nat
    /\ length rows2 = 3%nat.
Proof.
  apply (proj1 (main_fails_only_in_checks (fun _ => ""%string)
                  [mkAllocation "Etf azionari" (Fin (q 60000 1)) (Fin (q 3 10));
                   mkAllocation "Fondi pensione" (Fin (q 5000 1)) (Fin (q 1 2));
                   mkAllocation "Obbligazioni" (Fin (q 6000 1)) (Fin (q 1 5))]
                  (Fin (q 10000 1)))).
  vm_compute. reflexivity.
Defined.

(** X20.  When the checks of [main] pass on finite inputs with a positive
    total, both results are printed with the same final sum: the total of
    the inputs plus [sumToAdd]. *)
Theorem main_prints_final_sum (toString : number -> string)
    (inputs : list Allocation) (vs ts : list Qc) (d : Qc) :
  checks inputs (Fin d) = true ->
  map value inputs = finite vs ->
  map allocationTarget inputs = finite ts ->
  (0 < sumQc vs)%Qc ->
  exists rows1 rows2 : list TableRow.t,
    main toString inputs (Fin d)
    = (written toString inputs (Fin d)
         [Log ("Final sum: " ++ toString (Fin (sumQc vs + d)%Qc));
          TableOfResults rows1]
         [Log ("Final sum: " ++ toString (Fin (sumQc vs + d)%Qc));
          TableOfResults rows2],
       Ok tt).
Proof.
  intros Hc Hv Ht Htotal.
  destruct (main_after_checks toString inputs (Fin d) Hc)
    as [adj1 [adj2 [rows1 [rows2 [E1 [E2 [D1 [D2 Hmain]]]]]]]].
  assert (Hlen : length vs = length ts).
  { rewrite <- (length_finite vs), <- (length_finite ts), <- Hv, <- Ht.
    now rewrite !length_map. }
  assert (Hts : sumQc ts = 1%Qc).
  { unfold checks in Hc. apply andb_prop in Hc as [Hc _].
    apply andb_prop in Hc as [_ H4].
    rewrite Ht, kahanSum_finite in H4. cbn in H4.
    now destruct (Qceqb_spec (sumQc ts) 1). }
  pose proof (total_nonzero vs Htotal) as HT.
  rewrite Hv, Ht in E1, E2.
  rewrite rebalance_of_allocation in E1 by assumption. injection E1 as <-.
  destruct (twopass_total vs ts d Hlen Htotal Hts) as [a2 [E2' [L2 S2]]].
  rewrite E2' in E2. injection E2 as <-.
  assert (S1 : sumQc (diffQ vs ts d) = d).
  { rewrite sumQc_diffQ, Hts by assumption. ring. }
  assert (L1 : length (diffQ vs ts d) = length vs).
  { unfold diffQ. rewrite length_zipWith; auto. }
  rewrite (final_sum_finite inputs vs (diffQ vs ts d) Hv L1), S1 in D1.
  rewrite (final_sum_finite inputs vs a2 Hv L2), S2 in D2.
  rewrite D1, D2 in Hmain. cbn [fst] in Hmain.
  exists rows1, rows2. exact Hmain.
Qed.

Lemma main_prints_final_sum_witness :
  exists rows1 rows2 : list TableRow.t,
    main (fun _ => ""%string)
      [mkAllocation "Etf azionari" (Fin (q 60000 1)) (Fin (q 3 10));
       mkAllocation "Fondi pensione" (Fin (q 5000 1)) (Fin (q 1 2));
       mkAllocation "Obbligazioni" (Fin (q 6000 1)) (Fin (q 1 5))]
      (Fin (q 10000 1))
    = (written (fun _ => ""%string)
         [mkAllocation "Etf azionari" (Fin (q 60000 1)) (Fin (q 3 10));
          mkAllocation "Fondi pensione" (Fin (q 5000 1)) (Fin (q 1 2));
          mkAllocation "Obbligazioni" (Fin (q 6000 1)) (Fin (q 1 5))]
         (Fin (q 10000 1))
         [Log ("Final sum: "
               ++ (fun _ => ""%string)
                    (Fin (sumQc [q 60000 1; q 5000 1; q 6000 1] + q 10000 1)%Qc));
          TableOfResults rows1]
         [Log ("Final sum: "
               ++ (fun _ => ""%string)
                    (Fin (sumQc [q 60000 1; q 5000 1; q 6000 1] + q 10000 1)%Qc));
          TableOfResults rows2],
       Ok tt).
Proof.
  apply (main_prints_final_sum (fun _ => ""%string)
           [mkAllocation "Etf azionari" (Fin (q 60000 1)) (Fin (q 3 10));
            mkAllocation "Fondi pensione" (Fin (q 5000 1)) (Fin (q 1 2));
            mkAllocation "Obbligazioni" (Fin (q 6000 1)) (Fin (q 1 5))]
           [q 60000 1; q 5000 1; q 6000 1] [q 3 10; q 1 2; q 1 5] (q 10000 1)).
  - vm_compute. reflexivity.
  - reflexivity.
  - reflexivity.
  - qc_eval.
Defined.

(** ** The allocation of finite sums *)

Section AllocationFacts.

Local Open Scope Qc_scope.

Lemma fraction_le_1 (v T : Qc) : 0 < T -> v <= T -> v / T <= 1.
Proof. intros HT Hv. qc_to_q. apply Qle_shift_div_r; [assumption | lra]. Qed.

Lemma fraction_nonneg (v T : Qc) : 0 < T -> 0 <= v -> 0 <= v / T.
Proof.
  intros HT Hv. apply Qcmult_nonneg; [assumption|].
  apply Qclt_le_weak. now apply Qcinv_pos.
Qed.

Lemma term_le_sum (vs : list Qc) (v : Qc) :
  Forall (fun x => 0 <= x) vs -> In v vs -> v <= sumQc vs.
Proof.
  induction 1 as [|x vs Hx Hvs IH]; intros Hin; [destruct Hin|].
  cbn. pose proof (sumQc_nonneg vs Hvs) as Hs.
  destruct Hin as [->|Hin].
  - revert Hs. generalize (sumQc vs). intros s Hs. qc_to_q. lra.
  - apply IH in Hin. revert Hin. generalize (sumQc vs). intros s Hin.
    qc_to_q. lra.
Qed.

Lemma sumQc_fractions (vs : list Qc) (T : Qc) :
  sumQc (map (fun v => v / T) vs) = sumQc vs / T.
Proof. unfold Qcdiv. apply sumQc_scale. Qed.

End AllocationFacts.

(** X4.  The allocation of finite sums whose total is not zero sums to 1;
    when the sums are not negative (and their total is positive) every
    fraction is between 0 and 1. *)
Theorem allocation_sums_to_one (vs : list Qc) :
  sumQc vs <> 0%Qc ->
  exists fractions : list Qc,
    calculateAllocation (finite vs) = (Fin (sumQc vs), finite fractions)
    /\ sumQc fractions = 1%Qc
    /\ (Forall (fun v => 0 <= v)%Qc vs ->
        Forall (fun f => 0 <= f <= 1)%Qc fractions).
Proof.
  intro HT. exists (map (fun v => (v / sumQc vs)%Qc) vs).
  split; [now apply calculateAllocation_finite|].
  split.
  - rewrite sumQc_fractions. now field.
  - intro Hvs.
    assert (Hpos : (0 < sumQc vs)%Qc).
    { destruct (Qcle_lt_or_eq _ _ (sumQc_nonneg vs Hvs)) as [H|H]; [exact H|].
      symmetry in H. contradiction. }
    apply Forall_map, Forall_forall. intros v Hv. split.
    + apply fraction_nonneg; [assumption|].
      rewrite Forall_forall in Hvs. now apply Hvs.
    + apply fraction_le_1; [assumption | now apply term_le_sum].
Qed.

Lemma allocation_sums_to_one_witness :
  exists fractions : list Qc,
    calculateAllocation (finite [q 6000 1; q 5000 1; q 6000 1])
    = (Fin (sumQc [q 6000 1; q 5000 1; q 6000 1]), finite fractions)
    /\ sumQc fractions = 1%Qc
    /\ (Forall (fun v => 0 <= v)%Qc [q 6000 1; q 5000 1; q 6000 1] ->
        Forall (fun f => 0 <= f <= 1)%Qc fractions).
Proof.
  apply (allocation_sums_to_one [q 6000 1; q 5000 1; q 6000 1]).
  qc_eval.
Defined.

(** ** [main] on a total of zero *)

Section MainZeroTotal.

Local Open Scope js_scope.

Lemma zero_total_rebalance (ts : list number) (sumToAdd : number) :
  forall vs : list Qc,
    length ts = length vs ->
    zipWith (fun value a => (value - a) * Fin 0%Qc + value * sumToAdd) ts
      (map (fun v => v / Fin 0%Qc) (finite vs))
    = repeat NaN (length vs).
Proof.
  induction ts as [|t ts IH]; intros [|v vs] Hlen; cbn [length] in Hlen;
    try discriminate; [reflexivity|].
  cbn [finite map zipWith length repeat]. f_equal.
  - unfold Num.div. cbn. destruct (v ?= Q2Qc 0)%Qc; cbn; destruct t as [t0| | |];
      cbn; try reflexivity;
      destruct (t0 * _)%Qc, sumToAdd; reflexivity.
  - apply IH. lia.
Qed.

Lemma rebalance_zero_total (vs : list Qc) (ts : list number) (sumToAdd : number) :
  length vs = length ts ->
  sumQc vs = 0%Qc ->
  rebalance (fst (calculateAllocation (finite vs)))
    (snd (calculateAllocation (finite vs))) ts sumToAdd
  = Ok (repeat NaN (length vs)).
Proof.
  intros Hlen Hsum. unfold calculateAllocation. cbn [fst snd].
  rewrite kahanSum_finite, Hsum. unfold rebalance.
  rewrite length_map, length_finite, Hlen, Nat.eqb_refl. f_equal.
  rewrite (mapi_zipWith _ (fun value a => (value - a) * Fin 0%Qc + value * sumToAdd)
             ts (map (fun v => v / Fin 0%Qc) (finite vs))).
  - rewrite <- Hlen. now apply zero_total_rebalance.
  - reflexivity.
  - now rewrite length_map, length_finite.
Qed.

Lemma final_sum_of_NaN (inputs : list Allocation) (n : nat) :
  length inputs = n -> (0 < n)%nat ->
  kahanSum (mapi (fun index input => value input + get (repeat NaN n) index) inputs)
  = NaN.
Proof.
  intros Hlen Hn. apply kahanSum_has_NaN.
  destruct inputs as [|input inputs]; [cbn in Hlen; lia|].
  left. unfold mapi. cbn [mapi_from]. destruct n; [lia|]. cbn.
  now destruct (value input).
Qed.

End MainZeroTotal.

(** X21.  The checks of [main] let through inputs whose sums are all zero
    (the last check only asks for a final sum that is not negative).  Then,
    for a [sumToAdd] that is not zero, both results are [NaN]: each is
    printed with the final sum [NaN]. *)
Theorem main_zero_total_prints_NaN (toString : number -> string)
    (inputs : list Allocation) (vs : list Qc) (sumToAdd : number) :
  checks inputs sumToAdd = true ->
  map value inputs = finite vs ->
  sumQc vs = 0%Qc ->
  (sumToAdd === 0)%js = false ->
  exists rows1 rows2 : list TableRow.t,
    main toString inputs sumToAdd
    = (written toString inputs sumToAdd
         [Log ("Final sum: " ++ toString NaN); TableOfResults rows1]
         [Log ("Final sum: " ++ toString NaN); TableOfResults rows2],
       Ok tt).
Proof.
  intros Hc Hv Hsum Hd.
  destruct (main_after_checks toString inputs sumToAdd Hc)
    as [adj1 [adj2 [rows1 [rows2 [E1 [E2 [D1 [D2 Hmain]]]]]]]].
  assert (Hlen : length vs = length (map allocationTarget inputs)).
  { rewrite <- (length_finite vs), <- Hv. now rewrite !length_map. }
  assert (Hn : length inputs = length vs).
  { rewrite <- (length_finite vs), <- Hv. now rewrite length_map. }
  assert (Hpos : (0 < length vs)%nat).
  { unfold checks in Hc. repeat (apply andb_prop in Hc as [Hc _]).
    apply Nat.leb_le in Hc. lia. }
  rewrite Hv in E1, E2.
  rewrite rebalance_zero_total in E1 by assumption. injection E1 as <-.
  rewrite twopass_zero_total_NaN in E2 by assumption. injection E2 as <-.
  rewrite (final_sum_of_NaN inputs (length vs) Hn Hpos) in D1.
  rewrite D1 in Hmain. cbn [fst] in Hmain.
  exists rows1, rows1. exact Hmain.
Qed.

Lemma main_zero_total_prints_NaN_witness :
  exists rows1 rows2 : list TableRow.t,
    main (fun _ => ""%string)
      [mkAllocation "a" (Fin 0%Qc) (Fin (q 1 2));
       mkAllocation "b" (Fin 0%Qc) (Fin (q 1 2))]
      (Fin (q 10 1))
    = (written (fun _ => ""%string)
         [mkAllocation "a" (Fin 0%Qc) (Fin (q 1 2));
          mkAllocation "b" (Fin 0%Qc) (Fin (q 1 2))]
         (Fin (q 10 1))
         [Log ("Final sum: " ++ (fun _ => ""%string) NaN); TableOfResults rows1]
         [Log ("Final sum: " ++ (fun _ => ""%string) NaN); TableOfResults rows2],
       Ok tt).
Proof.
  apply (main_zero_total_prints_NaN (fun _ => ""%string)
           [mkAllocation "a" (Fin 0%Qc) (Fin (q 1 2));
            mkAllocation "b" (Fin 0%Qc) (Fin (q 1 2))]
           [0%Qc; 0%Qc] (Fin (q 10 1))).
  - vm_compute. reflexivity.
  - reflexivity.
  - qc_eval.
  - reflexivity.
Defined.
